(** * Mooney M20J VREF calculator: performance interpolation and TAF parsing

    A shallow embedding of the algorithmic core of the calculator:

    - [Constants] : the built-in Mooney M20J profile;
    - [Text]      : the string and regular-expression primitives of the
                    JavaScript runtime that the weather service calls;
    - [Weather]   : [extractGust] and [parseTaf] (the weather service);
    - [Calc]      : [interpolate] and [useAircraftPerformance]
                    (src/components/CalculatorSection.tsx);
    - [Active]    : [getActiveTafIndex]
                    (src/components/WeatherSection.tsx);
    - [CalculatorView] : the numbers of the table of [SpeedResults]
                    (src/components/CalculatorSection.tsx);
    - [Display]   : [getZTime] and [renderMetarParts]
                    (src/components/WeatherSection.tsx);
    - [Wizard]    : the actions of the profile wizard, from
                    [handleInitNext] to [handleFinish]
                    (src/components/ProfileManager.tsx);
    - [App]       : [handleAddProfile], [handleDeleteProfile] and the
                    weight set for the active profile (src/App.tsx).

    The definitions come first; the modules [TextFacts], [WeatherFacts],
    [CalcFacts] and [ActiveFacts] hold what is proved of the first five,
    [CalcBounds], [CalculatorViewFacts], [ParserFacts], [DisplayFacts],
    [CalendarFacts], [WizardFacts] and [AppFacts] the properties of the
    rest and further properties of the interpolation, the parser and the
    active entry.

    Modelling conventions.

    - A JavaScript [number] that holds a weight, a speed or a factor is an
      exact rational ([Q]); equality of numbers is [Qeq] (written [==]).
      Binary64 rounding, infinities and NaN of these quantities are outside
      the model.  The decimal literals 1.3, 0.5 and 1.404 are the rationals
      13/10, 1/2 and 1404/1000.
    - A property access on [undefined] raises a [TypeError]; a function
      that can do so returns [option], with [None] for the exception.
    - A [Record<string, number>] is a [gmap string Q].
    - A string is the list of its UTF-16 code units ([list N]). *)

From Stdlib Require Import ZArith QArith Qround Qminmax List Sorted.
From Stdlib Require Import Ascii String Lia Lqa Bool.
From stdpp Require Import base option gmap strings.

Local Open Scope Q_scope.

(* ================================================================== *)
(** * Data model (src/types.ts)                                        *)
(* ================================================================== *)

Record SpeedConfig := mkSpeedConfig {
  key      : string;
  label    : string;
  subLabel : string;
  color    : option string
}.

Record ChartDataPoint := mkPoint {
  lbs    : Q;
  speeds : gmap string Q      (* { "clean": 60, "flaps20": 55 } *)
}.

Inductive PresetIcon := User | Users | Weight.

Record WeightPreset := mkPreset {
  preset_label : string;
  val          : Q;
  icon         : PresetIcon
}.

Record AircraftProfile := mkProfile {
  profileId       : string;         (* id *)
  name            : string;
  shortName       : string;
  performanceData : list ChartDataPoint;
  configs         : list SpeedConfig;
  presets         : list WeightPreset;
  dmmsFactor      : Q
}.

Inductive TafType := BASE | FM | TEMPO | BECMG | HEADER.

(** The value of [parseInt]: an integer or NaN. *)
Inductive jsint := Int (z : Z) | NaN.

Record TafEntry := mkTaf {
  raw  : list N;
  gust : option jsint;        (* number | null *)
  type : TafType;
  day  : option jsint;
  hour : option jsint
}.

(* ================================================================== *)
(** * The built-in profile (the constants file)                       *)
(* ================================================================== *)

Module Constants.

Definition speeds3 (clean flaps15 flaps33 : Q) : gmap string Q :=
  <["clean"%string := clean]>
    (<["flaps15"%string := flaps15]>
       (<["flaps33"%string := flaps33]> ∅)).

Definition MOONEY_M20J : AircraftProfile :=
  mkProfile "mooney-m20j-default-v3" "Mooney M20J (201)" "M20J"
    [ mkPoint 2200 (speeds3 56 53 50);
      mkPoint 2400 (speeds3 59 55 52);
      mkPoint 2600 (speeds3 (123 # 2) (113 # 2) (107 # 2));
      mkPoint 2740 (speeds3 63 58 56) ]
    [ mkSpeedConfig "clean" "Flaps 0°" "Gear Down" None;
      mkSpeedConfig "flaps15" "Flaps 15°" "Gear Down / Takeoff" (Some "blue"%string);
      mkSpeedConfig "flaps33" "Flaps 33°" "Gear Down / Full" None ]
    [ mkPreset "Solo + Full Fuel" 1850 User;
      mkPreset "Training (Dual)" 2100 Users;
      mkPreset "Max Gross" 2740 Weight ]
    (1404 # 1000).

End Constants.

(* ================================================================== *)
(** * Strings and regular expressions of the JavaScript runtime        *)
(* ================================================================== *)

Module Text.

(** The code units of a string literal. *)
Definition str (s : string) : list N :=
  List.map N_of_ascii (list_ascii_of_string s).

(** [[0-9]] *)
Definition isDigit (c : N) : bool := (48 <=? c)%N && (c <=? 57)%N.

(** [\s], also the set that [trim] removes: WhiteSpace and LineTerminator. *)
Definition isSpace (c : N) : bool :=
  existsb (N.eqb c)
    [9; 10; 11; 12; 13; 32; 160; 5760; 8232; 8233; 8239; 8287; 12288; 65279]%N
  || ((8192 <=? c)%N && (c <=? 8202)%N).

(** [[^>]] *)
Definition notGt (c : N) : bool := negb (N.eqb c 62).

Definition LF : N := 10%N.
Definition SP : N := 32%N.

(** [s.startsWith(p)] *)
Fixpoint startsWith (s p : list N) {struct p} : bool :=
  match p, s with
  | [], _ => true
  | c :: p', d :: s' => N.eqb c d && startsWith s' p'
  | _ :: _, [] => false
  end.

Fixpoint indexOfAux (p s : list N) (i : nat) : option nat :=
  if startsWith s p then Some i
  else match s with
       | [] => None
       | _ :: s' => indexOfAux p s' (S i)
       end.

(** [s.indexOf(p, from)]; [None] stands for [-1]. *)
Definition indexOf (s p : list N) (from : nat) : option nat :=
  let k := Nat.min from (length s) in
  indexOfAux p (skipn k s) k.

(** [s.includes(p)] *)
Definition includes (s p : list N) : bool :=
  match indexOf s p 0 with Some _ => true | None => false end.

(** [s.substring(a, b)] and [s.substring(a)] *)
Definition substring (s : list N) (a b : nat) : list N :=
  let lo := Nat.min a b in
  let hi := Nat.max a b in
  firstn (hi - lo) (skipn lo s).

Definition substringFrom (s : list N) (a : nat) : list N := skipn a s.

Fixpoint trimStart (s : list N) : list N :=
  match s with
  | c :: s' => if isSpace c then trimStart s' else s
  | [] => []
  end.

Definition trimEnd (s : list N) : list N := rev (trimStart (rev s)).

(** [s.trim()] *)
Definition trim (s : list N) : list N := trimEnd (trimStart s).

(** [s.split(sep)] for a separator of one code unit. *)
Fixpoint split (sep : N) (s : list N) : list (list N) :=
  match s with
  | [] => [[]]
  | c :: s' =>
      if N.eqb c sep then [] :: split sep s'
      else match split sep s' with
           | piece :: pieces => (c :: piece) :: pieces
           | [] => [[c]]
           end
  end.

(** The value of a run of decimal digits, most significant first. *)
Definition digitsValue (ds : list N) : Z :=
  fold_left (fun acc d => (10 * acc + (Z.of_N d - 48))%Z) ds 0%Z.

Fixpoint takeDigits (s : list N) : list N :=
  match s with
  | c :: s' => if isDigit c then c :: takeDigits s' else []
  | [] => []
  end.

(** [parseInt(s, 10)]: leading white space is skipped, one sign is
    accepted, then the longest run of digits is read; no digit gives NaN.
    (Values are exact integers; [-0] is [0].) *)
Definition parseInt (s : list N) : jsint :=
  let s1 := trimStart s in
  let '(sign, s2) :=
    match s1 with
    | c :: rest =>
        if N.eqb c 45 then ((-1)%Z, rest)
        else if N.eqb c 43 then (1%Z, rest)
        else (1%Z, s1)
    | [] => (1%Z, s1)
    end in
  match takeDigits s2 with
  | [] => NaN
  | ds => Int (sign * digitsValue ds)
  end.

(** ** Regular expressions

    The fragment the program uses: literals, a character class with a
    greedy bounded or unbounded repetition, sequence, alternation and
    numbered capturing groups. *)
Inductive regex :=
| Lit (p : list N)
| Many (cls : N -> bool) (lo : nat) (hi : option nat)
| Seq (r1 r2 : regex)
| Alt (r1 r2 : regex)
| Group (i : nat) (r : regex).

Definition captures := list (nat * list N).

Definition capture (i : nat) (caps : captures) : option (list N) :=
  match List.find (fun p => Nat.eqb (fst p) i) caps with
  | Some p => Some (snd p)
  | None => None
  end.

Definition canTake (hi : option nat) : bool :=
  match hi with Some 0%nat => false | _ => true end.

(** The inputs left after [cls{lo,hi}], the longest repetition first. *)
Fixpoint many (cls : N -> bool) (lo : nat) (hi : option nat) (s : list N)
  : list (list N) :=
  match s with
  | c :: s' =>
      if cls c && canTake hi
      then many cls (Nat.pred lo) (option_map Nat.pred hi) s'
      else []
  | [] => []
  end ++ (if Nat.eqb lo 0 then [s] else []).

(** All the ways [r] matches a prefix of [s], in the order in which a
    backtracking matcher tries them: what is left of the input, and the
    captures. *)
Fixpoint ms (r : regex) (s : list N) (caps : captures)
  : list (list N * captures) :=
  match r with
  | Lit p => if startsWith s p then [(skipn (length p) s, caps)] else []
  | Many cls lo hi => List.map (fun rest => (rest, caps)) (many cls lo hi s)
  | Seq r1 r2 => flat_map (fun m => ms r2 (fst m) (snd m)) (ms r1 s caps)
  | Alt r1 r2 => ms r1 s caps ++ ms r2 s caps
  | Group i r1 =>
      List.map (fun m => (fst m,
                          (i, firstn (length s - length (fst m)) s) :: snd m))
        (ms r1 s caps)
  end.

Record MatchResult := mkMatch {
  index   : nat;
  matched : list N;
  groups  : captures
}.

Definition matchAt (r : regex) (s : list N) (i : nat) : option MatchResult :=
  match ms r s [] with
  | m :: _ => Some (mkMatch i (firstn (length s - length (fst m)) s) (snd m))
  | [] => None
  end.

(** [s.match(r)] for [r] without the [g] flag: the leftmost match. *)
Fixpoint execFrom (r : regex) (s : list N) (i : nat) : option MatchResult :=
  match matchAt r s i with
  | Some m => Some m
  | None => match s with
            | [] => None
            | _ :: s' => execFrom r s' (S i)
            end
  end.

Definition exec (r : regex) (s : list N) : option MatchResult :=
  execFrom r s 0.

(** [s.replace(r, f)] for [r] with the [g] flag.  [skip] counts the code
    units of the current match that are still to be passed over. *)
Fixpoint replaceGo (r : regex) (f : MatchResult -> list N) (s : list N)
  (skip : nat) : list N :=
  match skip with
  | S k => match s with
           | _ :: s' => replaceGo r f s' k
           | [] => []
           end
  | O =>
      match matchAt r s 0 with
      | Some m =>
          f m ++
          match s with
          | c :: s' =>
              match length (matched m) with
              | O => c :: replaceGo r f s' 0
              | S k => replaceGo r f s' k
              end
          | [] => []
          end
      | None =>
          match s with
          | c :: s' => c :: replaceGo r f s' 0
          | [] => []
          end
      end
  end.

Definition replaceAll (r : regex) (f : MatchResult -> list N) (s : list N)
  : list N :=
  replaceGo r f s 0.

(** The replacement patterns [' '] and ['\n$1']. *)
Definition withSpace (_ : MatchResult) : list N := [SP].

Definition lineBreakThenGroup1 (m : MatchResult) : list N :=
  LF :: match capture 1 (groups m) with Some g => g | None => [] end.

(** ** Vocabulary of the statements about matching *)

(** The strings that a regular expression matches as a whole. *)
Fixpoint lang (r : regex) (m : list N) : Prop :=
  match r with
  | Lit p => m = p
  | Many cls lo hi =>
      Forall (fun c => cls c = true) m
      /\ (lo <= length m)%nat
      /\ forall h, hi = Some h -> (length m <= h)%nat
  | Seq r1 r2 => exists m1 m2, m = m1 ++ m2 /\ lang r1 m1 /\ lang r2 m2
  | Alt r1 r2 => lang r1 m \/ lang r2 m
  | Group _ r1 => lang r1 m
  end.

(** [r] matches at the start of [s]. *)
Definition matchesAt (r : regex) (s : list N) : Prop :=
  exists m rest, s = m ++ rest /\ lang r m.

(** [r] matches somewhere in [s]. *)
Definition occursIn (r : regex) (s : list N) : Prop :=
  exists pre m post, s = pre ++ m ++ post /\ lang r m.

(** [p] occurs in [s] as a substring. *)
Definition contains (s p : list N) : Prop :=
  exists pre post, s = pre ++ p ++ post.

Fixpoint groupless (r : regex) : Prop :=
  match r with
  | Lit _ | Many _ _ _ => True
  | Seq r1 r2 | Alt r1 r2 => groupless r1 /\ groupless r2
  | Group _ _ => False
  end.

Definition allDigits (ds : list N) : Prop :=
  Forall (fun c => isDigit c = true) ds.

End Text.

(* ================================================================== *)
(** * The weather service: extractGust and parseTaf                    *)
(* ================================================================== *)

Module Weather.
Import Text.

Definition digits (lo hi : nat) : regex := Many isDigit lo (Some hi).

(** [/([0-9]{3}|VRB)([0-9]{2,3})G([0-9]{2,3})KT/] *)
Definition gustRe : regex :=
  Seq (Group 1 (Alt (digits 3 3) (Lit (str "VRB"))))
 (Seq (Group 2 (digits 2 3))
 (Seq (Lit (str "G"))
 (Seq (Group 3 (digits 2 3))
      (Lit (str "KT"))))).

Definition extractGust (text : list N) : option jsint :=
  match exec gustRe text with
  | Some m =>
      match capture 3 (groups m) with
      | Some ((_ :: _) as g) => Some (parseInt g)   (* match[3] is truthy *)
      | _ => None
      end
  | None => None
  end.

(** [/<[^>]*>/g] and [/\s+/g] *)
Definition tagRe : regex :=
  Seq (Lit (str "<")) (Seq (Many notGt 0 None) (Lit (str ">"))).
Definition spacesRe : regex := Many isSpace 1 None.

(** [DDDD/DDDD] *)
Definition validity : regex :=
  Seq (digits 4 4) (Seq (Lit (str "/")) (digits 4 4)).

Definition fmBody : regex := Seq (Lit (str "FM")) (digits 6 6).
Definition becmgBody : regex := Seq (Lit (str "BECMG ")) validity.
Definition tempoBody : regex := Seq (Lit (str "TEMPO ")) validity.
Definition probBody : regex :=
  Seq (Lit (str "PROB")) (Seq (digits 2 2) (Seq (Lit (str " ")) validity)).

(** [/(FM[0-9]{6}|BECMG [0-9]{4}\/[0-9]{4})/] *)
Definition firstGroupRe : regex := Group 1 (Alt fmBody becmgBody).
(** [/(FM[0-9]{6})/g], [/(BECMG [0-9]{4}\/[0-9]{4})/g],
    [/(TEMPO [0-9]{4}\/[0-9]{4})/g], [/(PROB[0-9]{2} [0-9]{4}\/[0-9]{4})/g] *)
Definition fmRe : regex := Group 1 fmBody.
Definition becmgRe : regex := Group 1 becmgBody.
Definition tempoRe : regex := Group 1 tempoBody.
Definition probRe : regex := Group 1 probBody.

(** Step 1: tags become a space, runs of white space become one space. *)
Definition cleanHtml (rawHtml : list N) : list N :=
  replaceAll spacesRe withSpace (replaceAll tagRe withSpace rawHtml).

(** Step 2: where the TAF starts; [None] stands for [tafStart === -1]. *)
Definition findTafStart (cleanText code : list N) : option nat :=
  match indexOf cleanText (str "TAF: " ++ code) 0 with
  | Some i => Some i
  | None =>
      match indexOf cleanText (str "TAF " ++ code) 0 with
      | Some i => Some i
      | None =>
          match exec firstGroupRe cleanText with
          | Some firstGroup => Some (index firstGroup)
          | None => None
          end
      end
  end.

Definition stopMarkers : list (list N) :=
  [str "METAR"; str "OBSERVATION"; str "Copyright"; str "Key to Decoding"].

(** Step 3: the [forEach] over the stop markers. *)
Definition findEndIndex (tafBlock : list N) : nat :=
  fold_left
    (fun endIndex m =>
       match indexOf tafBlock m 10 with
       | Some idx => if Nat.ltb idx endIndex then idx else endIndex
       | None => endIndex
       end)
    stopMarkers (length tafBlock).

(** Step 4: a line break before every change group. *)
Definition formatTaf (tafBlock : list N) : list N :=
  replaceAll probRe lineBreakThenGroup1
    (replaceAll tempoRe lineBreakThenGroup1
       (replaceAll becmgRe lineBreakThenGroup1
          (replaceAll fmRe lineBreakThenGroup1 tafBlock))).

Definition tafLines (formattedTaf : list N) : list (list N) :=
  List.filter (fun l => Nat.ltb 5 (length l))
    (List.map trim (split LF formattedTaf)).

(** Step 5: the callback of [lines.map]. *)
Definition toEntry (line : list N) (index : nat) : TafEntry :=
  let '(type, day, hour) :=
    if startsWith line (str "FM") then
      (FM, Some (parseInt (substring line 2 4)),
           Some (parseInt (substring line 4 6)))
    else if startsWith line (str "TEMPO") then
      (TEMPO, Some (parseInt (substring line 6 8)),
              Some (parseInt (substring line 8 10)))
    else if startsWith line (str "BECMG") then
      (BECMG, Some (parseInt (substring line 6 8)),
              Some (parseInt (substring line 8 10)))
    else if startsWith line (str "TAF") || Nat.eqb index 0 then
      (HEADER, None, None)
    else (BASE, None, None) in
  mkTaf line (extractGust line) type day hour.

Fixpoint mapFrom {A B} (f : A -> nat -> B) (l : list A) (i : nat) : list B :=
  match l with
  | [] => []
  | x :: l' => f x i :: mapFrom f l' (S i)
  end.

(** [lines.map((line, index) => ...)] *)
Definition mapIndexed {A B} (f : A -> nat -> B) (l : list A) : list B :=
  mapFrom f l 0.

Definition parseTaf (rawHtml code : list N) : list TafEntry :=
  let cleanText := cleanHtml rawHtml in
  match findTafStart cleanText code with
  | None => []
  | Some tafStart =>
      let tafBlock := substringFrom cleanText tafStart in
      let endIndex := findEndIndex tafBlock in
      let tafBlock := substring tafBlock 0 endIndex in
      mapIndexed toEntry (tafLines (formatTaf tafBlock))
  end.

(** ** Vocabulary of the statements about the parser *)

Definition bodies : list regex := [fmBody; becmgBody; tempoBody; probBody].

(** A piece of the forecast that begins with one of the four change-group
    markers. *)
Definition Marked (piece : list N) : Prop :=
  exists b, In b bodies /\ matchesAt b piece.

(** A piece that is a prefix of a text beginning with "TA" (code units 84
    and 65). *)
Definition Inert (piece : list N) : Prop :=
  match piece with
  | [] => True
  | [c] => c = 84%N
  | c1 :: c2 :: _ => c1 = 84%N /\ c2 = 65%N
  end.

Definition Piece (piece : list N) : Prop := Inert piece \/ Marked piece.

Definition noLF (s : list N) : Prop := Forall (fun c => c <> LF) s.

(** The wind group with a gust: direction, speed, [G], gust, [KT]. *)
Definition windDirection (d : list N) : Prop :=
  (allDigits d /\ length d = 3%nat) \/ d = str "VRB".

Definition twoOrThreeDigits (ds : list N) : Prop :=
  allDigits ds /\ (2 <= length ds <= 3)%nat.

Definition gustGroup (m g : list N) : Prop :=
  exists d sp, m = d ++ sp ++ str "G" ++ g ++ str "KT"
               /\ windDirection d /\ twoOrThreeDigits sp
               /\ twoOrThreeDigits g.

(** A gust group with gust digits [g] starts at offset [i] of [s]. *)
Definition gustAt (s : list N) (i : nat) (g : list N) : Prop :=
  exists m rest, (i <= length s)%nat /\ skipn i s = m ++ rest /\ gustGroup m g.

(** The shape of the day and hour of an entry: two digits each, read at
    fixed offsets of the line. *)
Definition twoDigitsAt (line : list N) (offset : nat) (v : option jsint)
  : Prop :=
  exists a b, substring line offset (offset + 2) = [a; b]
              /\ isDigit a = true /\ isDigit b = true
              /\ v = Some (Int (digitsValue [a; b]))
              /\ (0 <= digitsValue [a; b] <= 99)%Z.

Local Open Scope nat_scope.

(** [n] digits. *)
Definition digitRun (n : nat) (ds : list N) : Prop :=
  allDigits ds /\ length ds = n.

(** [DDDD/DDDD] *)
Definition validityShape (v : list N) : Prop :=
  exists a b, v = a ++ str "/" ++ b /\ digitRun 4 a /\ digitRun 4 b.

(** [FM] and six digits; [BECMG DDDD/DDDD]; [TEMPO DDDD/DDDD];
    [PROB], two digits, a space and [DDDD/DDDD]. *)
Definition fmShape (m : list N) : Prop :=
  exists ds, m = str "FM" ++ ds /\ digitRun 6 ds.
Definition becmgShape (m : list N) : Prop :=
  exists v, m = str "BECMG " ++ v /\ validityShape v.
Definition tempoShape (m : list N) : Prop :=
  exists v, m = str "TEMPO " ++ v /\ validityShape v.
Definition probShape (m : list N) : Prop :=
  exists p v, m = str "PROB" ++ p ++ str " " ++ v
              /\ digitRun 2 p /\ validityShape v.

(** The first two characters of a marker: FM, BE, TE or PR. *)
Definition leadPair (s : list N) : Prop :=
  match s with
  | c1 :: c2 :: _ =>
      (c1 = 70 /\ c2 = 77)%N \/ (c1 = 66 /\ c2 = 69)%N
      \/ (c1 = 84 /\ c2 = 69)%N \/ (c1 = 80 /\ c2 = 82)%N
  | _ => False
  end.

(** Day and hour of an entry by its kind: two digits each, read after the
    marker of an FM, TEMPO or BECMG line, and absent on a HEADER or BASE
    line. *)
Definition dayHourShape (e : TafEntry) : Prop :=
  (type e = FM /\ twoDigitsAt (raw e) 2 (day e)
   /\ twoDigitsAt (raw e) 4 (hour e))
  \/ ((type e = TEMPO \/ type e = BECMG)
      /\ twoDigitsAt (raw e) 6 (day e) /\ twoDigitsAt (raw e) 8 (hour e))
  \/ ((type e = HEADER \/ type e = BASE) /\ day e = None /\ hour e = None).

(** The example of the specification: the text up to and including METAR,
    the text as given there, the entries it yields; and a page without any
    forecast. *)
Definition specPrefix : list N :=
  str "<b>TAF: KMIE</b> 121130Z 1212/1312 18012KT FM121800 20015G22KT BECMG 1300/1302 22010KT METAR".

Definition specExample : list N := specPrefix ++ str " ...".

Definition specEntries : list TafEntry :=
  [ mkTaf (str "TAF: KMIE 121130Z 1212/1312 18012KT") None HEADER None None;
    mkTaf (str "FM121800 20015G22KT") (Some (Int 22)) FM
      (Some (Int 12)) (Some (Int 18));
    mkTaf (str "BECMG 1300/1302 22010KT") None BECMG
      (Some (Int 13)) (Some (Int 0)) ].

Definition noForecastPage : list N :=
  str "<html><body><p>KMIE 121654Z 18015G25KT 10SM</p> No forecast issued</body></html>".

(** A piece that begins with a marker of one of the expressions [done]. *)
Definition MarkedBy (done : list regex) (piece : list N) : Prop :=
  exists b, In b done /\ matchesAt b piece.

(** [s] begins with a string of the given shape. *)
Definition beginsWith (shape : list N -> Prop) (s : list N) : Prop :=
  exists m rest, s = m ++ rest /\ shape m.

(** White space in [s] is the space character, and never two in a row. *)
Definition singleSpaced (s : list N) : Prop :=
  (forall c, In c s -> isSpace c = true -> c = SP)
  /\ ~ contains s [SP; SP].

(** A [<] with a [>] somewhere after it. *)
Definition hasTag (s : list N) : Prop :=
  exists a b, s = a ++ 60%N :: b /\ In 62%N b.

End Weather.

(* ================================================================== *)
(** * CalculatorSection.tsx                                            *)
(* ================================================================== *)

Module Calc.

(** [v || 0] for [v] read from a record: [undefined] and [0] are falsy. *)
Definition orZero (v : option Q) : Q :=
  match v with
  | Some x => if Qeq_bool x 0 then 0 else x
  | None => 0
  end.

(** The [for] loop of [interpolate]: the first pair of neighbours
    [data[i]], [data[i+1]] with [data[i].lbs <= safeWeight <= data[i+1].lbs];
    [None] when the loop ends without a [break]. *)
Fixpoint findBracket (safeWeight : Q) (data : list ChartDataPoint)
  : option (ChartDataPoint * ChartDataPoint) :=
  match data with
  | a :: (b :: _) as rest =>
      if Qle_bool (lbs a) safeWeight && Qle_bool safeWeight (lbs b)
      then Some (a, b)
      else findBracket safeWeight rest
  | _ => None
  end.

(** [Math.max(lower.lbs, Math.min(upper.lbs, currentWeight))] with
    [lower = data[0]] and [upper = data[data.length - 1]]. *)
Definition safeWeightOf (first : ChartDataPoint) (data : list ChartDataPoint)
  (currentWeight : Q) : Q :=
  Qmax (lbs first) (Qmin (lbs (List.last data first)) currentWeight).

(** [lower] and [upper] as they stand after the loop. *)
Definition bracketOf (first : ChartDataPoint) (data : list ChartDataPoint)
  (currentWeight : Q) : ChartDataPoint * ChartDataPoint :=
  match findBracket (safeWeightOf first data currentWeight) data with
  | Some p => p
  | None => (first, List.last data first)
  end.

Definition interpolate (currentWeight : Q) (configKey : string)
  (data : list ChartDataPoint) : option Q :=
  match data with
  | [] => None                              (* data[0].lbs : TypeError *)
  | first :: _ =>
      let safeWeight := safeWeightOf first data currentWeight in
      let '(lower, upper) := bracketOf first data currentWeight in
      if Qeq_bool (lbs lower) (lbs upper)
      then Some (orZero (speeds lower !! configKey))
      else
        let lowerVal := orZero (speeds lower !! configKey) in
        let upperVal := orZero (speeds upper !! configKey) in
        let ratio := (safeWeight - lbs lower) / (lbs upper - lbs lower) in
        Some (lowerVal + ratio * (upperVal - lowerVal))
  end.

(** [Math.round]: the integer nearest to [x], ties towards +infinity. *)
Definition round (x : Q) : Z := Qfloor (x + (1 # 2)).

(** [result[cfg.key] = f(cfg.key)] for each configuration, in order. *)
Definition forEachKey (f : string -> option Q) (cfgs : list SpeedConfig)
  : option (gmap string Q) :=
  foldl (fun acc cfg =>
           match acc, f (key cfg) with
           | Some result, Some v => Some (<[key cfg := v]> result)
           | _, _ => None
           end) (Some ∅) cfgs.

Record Performance := mkPerformance {
  stallSpeed    : gmap string Q;
  approachSpeed : gmap string Q;
  dmms          : Z;
  buffer        : Z
}.

(** [profile.configs.find(c => c.key.includes('clean'))?.key
     || profile.configs[0].key] *)
Definition cleanKeyOf (cfgs : list SpeedConfig) : option string :=
  let first := match cfgs with c :: _ => Some (key c) | [] => None end in
  match List.find (fun c => Text.includes (Text.str (key c)) (Text.str "clean"))
          cfgs with
  | Some c => if String.eqb (key c) "" then first else Some (key c)
  | None => first
  end.

(** The hook without its memoisation.  The keys of the two records are
    ordinary property names. *)
Definition useAircraftPerformance (weight gustFactor : Q)
  (profile : AircraftProfile) : option Performance :=
  match forEachKey (fun k => interpolate weight k (performanceData profile))
          (configs profile) with
  | None => None
  | Some stallSpeed =>
      let gustAdder := gustFactor * (1 # 2) in
      let approachSpeed :=
        foldl (fun result cfg =>
                 let sVal := orZero (stallSpeed !! key cfg) in
                 <[key cfg := sVal * (13 # 10) + gustAdder]> result)
          ∅ (configs profile) in
      match cleanKeyOf (configs profile) with
      | None => None                        (* configs[0].key : TypeError *)
      | Some cleanKey =>
          let cleanStall := orZero (stallSpeed !! cleanKey) in
          let dmms := round (cleanStall * dmmsFactor profile) in
          let buffer := round (inject_Z dmms - cleanStall) in
          Some (mkPerformance stallSpeed approachSpeed dmms buffer)
      end
  end.

(** ** Vocabulary of the statements about [interpolate] *)

(** The samples are sorted by weight: no sample weighs more than a later
    one.  [ProfileManager] sorts the rows of a new profile this way, and
    keeps rows of equal weight. *)
Definition ascending (data : list ChartDataPoint) : Prop :=
  StronglySorted (fun a b => lbs a <= lbs b) data.










End Calc.

(* ================================================================== *)
(** * WeatherSection.tsx: the active forecast group                    *)
(* ================================================================== *)

Module Active.

Local Open Scope Z_scope.

(** ** The [Date] object

    A [Date] is its time value, the milliseconds since the epoch in UTC,
    or [None] for an invalid date (time value NaN).  The calendar is the
    proleptic Gregorian one; months count from 0. *)

Definition msPerDay : Z := 86400000.
Definition msPerHour : Z := 3600000.
Definition msPerMinute : Z := 60000.

Definition Day (t : Z) : Z := t / msPerDay.
Definition TimeWithinDay (t : Z) : Z := t mod msPerDay.

(** The day number of the first day of month [m] (0..11) of year [y]. *)
Definition dayOfMonthStart (y m : Z) : Z :=
  let y' := if m <=? 1 then y - 1 else y in
  let era := y' / 400 in
  let yoe := y' - era * 400 in
  let mp := if m <=? 1 then m + 10 else m - 2 in
  let doy := (153 * mp + 2) / 5 in
  let doe := yoe * 365 + yoe / 4 - yoe / 100 + doy in
  era * 146097 + doe - 719468.

(** Year, month (0..11) and day of the month (1..31) of a day number. *)
Definition civil (dayNumber : Z) : Z * Z * Z :=
  let z := dayNumber + 719468 in
  let era := z / 146097 in
  let doe := z - era * 146097 in
  let yoe := (doe - doe / 1460 + doe / 36524 - doe / 146096) / 365 in
  let doy := doe - (365 * yoe + yoe / 4 - yoe / 100) in
  let mp := (5 * doy + 2) / 153 in
  let d := doy - (153 * mp + 2) / 5 + 1 in
  let m := if mp <? 10 then mp + 2 else mp - 10 in
  let y := yoe + era * 400 in
  (if m <=? 1 then y + 1 else y, m, d).

Definition YearFromTime (t : Z) : Z := fst (fst (civil (Day t))).
Definition MonthFromTime (t : Z) : Z := snd (fst (civil (Day t))).
Definition DateFromTime (t : Z) : Z := snd (civil (Day t)).

Definition MakeDay (year month date : Z) : Z :=
  let ym := year + month / 12 in
  let mn := month mod 12 in
  dayOfMonthStart ym mn + date - 1.

Definition MakeTime (hour min sec ms : Z) : Z :=
  hour * msPerHour + min * msPerMinute + sec * 1000 + ms.

Definition MakeDate (day time : Z) : Z := day * msPerDay + time.

Definition TimeClip (t : Z) : option Z :=
  if Z.abs t <=? 8640000000000000 then Some t else None.

(** [Date.UTC(year, month, date, hours, minutes)] for integral [year],
    [month] and [minutes]; a NaN argument gives NaN. *)
Definition DateUTC (year month : Z) (date hours : jsint) (minutes : Z)
  : option Z :=
  match date, hours with
  | Int dt, Int h =>
      let yr := if (0 <=? year) && (year <=? 99) then 1900 + year else year in
      TimeClip (MakeDate (MakeDay yr month dt) (MakeTime h minutes 0 0))
  | _, _ => None
  end.

(** [d.setUTCMonth(d.getUTCMonth() + delta)] *)
Definition shiftUTCMonth (d : option Z) (delta : Z) : option Z :=
  match d with
  | Some t =>
      TimeClip (MakeDate
                  (MakeDay (YearFromTime t) (MonthFromTime t + delta)
                     (DateFromTime t))
                  (TimeWithinDay t))
  | None => None
  end.

(** [a < b] and [a > b] of numbers, false when NaN takes part. *)
Definition ltNum (a : jsint) (b : Z) : bool :=
  match a with Int x => x <? b | NaN => false end.
Definition gtNum (a : jsint) (b : Z) : bool :=
  match a with Int x => b <? x | NaN => false end.
(** [a - b > 15] and [b - a > 15] *)
Definition minusGt15 (a : Z) (b : jsint) : bool :=
  match b with Int y => 15 <? a - y | NaN => false end.
Definition minusGt15' (a : jsint) (b : Z) : bool :=
  match a with Int x => 15 <? x - b | NaN => false end.

(** The helper [getEntryDate]; [now] is the time value of [new Date()]. *)
Definition getEntryDate (now : Z) (entry : TafEntry) : option Z :=
  match day entry, hour entry with
  | Some entryDay, Some entryHour =>
      let currentYear := YearFromTime now in
      let currentMonth := MonthFromTime now in
      let d := DateUTC currentYear currentMonth entryDay entryHour 0 in
      let currentDay := DateFromTime now in
      if ltNum entryDay currentDay && minusGt15 currentDay entryDay
      then shiftUTCMonth d 1
      else if gtNum entryDay currentDay && minusGt15' entryDay currentDay
      then shiftUTCMonth d (-1)
      else d
  | _, _ => Some 0                          (* new Date(0): far past *)
  end.

(** [entryDate <= now] *)
Definition notAfter (entryDate : option Z) (now : Z) : bool :=
  match entryDate with Some t => t <=? now | None => false end.

(** One turn of the [forEach] of [getActiveTafIndex]. *)
Definition visit (now : Z) (activeIndex : Z) (line : TafEntry) (idx : nat)
  : Z :=
  match type line with
  | HEADER =>
      if negb (Nat.eqb idx 0) then activeIndex
      else if notAfter (getEntryDate now line) now then Z.of_nat idx
      else activeIndex
  | FM | BASE =>
      if notAfter (getEntryDate now line) now then Z.of_nat idx
      else activeIndex
  | TEMPO | BECMG => activeIndex
  end.

Fixpoint visitFrom (now : Z) (activeIndex : Z) (tafData : list TafEntry)
  (idx : nat) : Z :=
  match tafData with
  | [] => activeIndex
  | line :: rest => visitFrom now (visit now activeIndex line idx) rest (S idx)
  end.

Definition getActiveTafIndex (tafData : list TafEntry) (now : Z) : Z :=
  match tafData with
  | [] => -1
  | _ => visitFrom now (-1) tafData 0
  end.

(** ** Vocabulary of the statements about [getActiveTafIndex] *)

(** The entries that the loop looks at: FM and BASE anywhere, HEADER at
    index 0. *)
Definition candidate (idx : nat) (line : TafEntry) : bool :=
  match type line with
  | FM | BASE => true
  | HEADER => Nat.eqb idx 0
  | TEMPO | BECMG => false
  end.

(** A candidate whose start time is not after [now]. *)
Definition started (now : Z) (idx : nat) (line : TafEntry) : bool :=
  candidate idx line && notAfter (getEntryDate now line) now.


(** A forecast with a PROB30 group after an FM group, and 19:00 UTC on
    12 January 2024. *)
Definition probAfterFm : list N :=
  Text.str "TAF KMIE 121130Z 1212/1312 18012KT FM121800 20015G22KT PROB30 1220/1224 4SM TSRA".

Definition jan12_1900 : Z := 1705086000000.

End Active.

(* ================================================================== *)
(** * CalculatorSection.tsx: what the cards show                       *)
(* ================================================================== *)

Module CalculatorView.
Import Calc.



End CalculatorView.

(* ================================================================== *)
(** * WeatherSection.tsx: the METAR line and the clock                 *)
(* ================================================================== *)

Module Display.
Import Text Weather.

(** ** Numbers as text *)

Fixpoint digitsOf (fuel : nat) (n : N) (acc : string) : string :=
  match fuel with
  | O => acc
  | S fuel' =>
      let acc' := String (ascii_of_N (48 + n mod 10)) acc in
      if (n / 10 =? 0)%N then acc' else digitsOf fuel' (n / 10)%N acc'
  end.

(** [String(n)] and [n.toString()] for an integer [n]: the decimal digits,
    after a minus sign for a negative number. *)
Definition numberToString (n : Z) : string :=
  match n with
  | Z0 => "0"
  | Zpos p => digitsOf (S (N.size_nat (Npos p))) (Npos p) ""
  | Zneg p => String "-" (digitsOf (S (N.size_nat (Npos p))) (Npos p) "")
  end.

(** [s.padStart(targetLength, pad)] for a [pad] of one character. *)
Definition padStart (targetLength : nat) (pad : ascii) (s : string) : string :=
  string_of_list_ascii (repeat pad (targetLength - String.length s)) ++ s.

(** ** The clock *)

Definition HourFromTime (t : Z) : Z := ((t / Active.msPerHour) mod 24)%Z.
Definition MinFromTime (t : Z) : Z := ((t / Active.msPerMinute) mod 60)%Z.

Record ZTime := mkZTime {
  zStr   : string;
  zDay   : Z;
  zHours : Z
}.

(** [getZTime]; [currentTime] is the time value of the state of that
    name. *)
Definition getZTime (currentTime : Z) : ZTime :=
  let hours := HourFromTime currentTime in
  let minutes := MinFromTime currentTime in
  let day := Active.DateFromTime currentTime in
  mkZTime
    (padStart 2 "0" (numberToString hours)
     ++ padStart 2 "0" (numberToString minutes)
     ++ "Z (Day " ++ numberToString day ++ ")")
    day hours.

(** ** The METAR line *)

(** [r.test(s)] for [r] without the [g] flag. *)
Definition test (r : regex) (s : list N) : bool :=
  match exec r s with Some _ => true | None => false end.

(** [/([0-9]{3}|VRB)([0-9]{2,3})(G[0-9]{2,3})?KT/]; the optional group is
    tried first, then skipped. *)
Definition windRe : regex :=
  Seq (Group 1 (Alt (digits 3 3) (Lit (str "VRB"))))
 (Seq (Group 2 (digits 2 3))
 (Seq (Alt (Group 3 (Seq (Lit (str "G")) (digits 2 3))) (Lit []))
      (Lit (str "KT")))).

(** The three classes of a word of the METAR line: yellow, white, grey. *)
Inductive PartStyle := Wind | Code | Plain.

(** [renderMetarParts]: the words of the line with their class;
    [icaoUpper] is the value of [icao.toUpperCase()]. *)
Definition renderMetarParts (text icaoUpper : list N)
  : list (list N * PartStyle) :=
  List.map
    (fun part =>
       let isWind := test windRe part in
       let isCode := bool_decide (part = icaoUpper) in
       (part, if isWind then Wind else if isCode then Code else Plain))
    (split SP text).

End Display.

(* ================================================================== *)
(** * ProfileManager.tsx: the wizard for a new profile                 *)
(* ================================================================== *)

Module Wizard.
Import Display.

Inductive WizardStep := StepInit | StepTable.

(** A column is a configuration, a row is a weight with one speed per
    column; the cells hold the text typed in.  Arrays are lists: every
    index below the length holds a value. *)
Record WizardConfigCol := mkCol {
  colId       : string;
  isRef       : bool;
  colLabel    : string;
  colSubLabel : string
}.

Record WizardWeightRow := mkRow {
  rowId     : string;
  weight    : string;
  rowSpeeds : list string
}.

Record WizardState := mkWiz {
  step      : WizardStep;
  wizName   : string;
  rowCounts : Z;
  colCounts : Z;
  cols      : list WizardConfigCol;
  rows      : list WizardWeightRow
}.

Definition resetForm : WizardState := mkWiz StepInit "" 3 2 [] [].

(** The indices of [Array.from({ length: n })]: a negative length counts
    as 0, a length of 2^32 or more raises a RangeError ([None]). *)
Definition arrayFromLength (n : Z) : option (list Z) :=
  if (n <=? 0)%Z then Some []
  else if (n <? 4294967296)%Z
       then Some (List.map Z.of_nat (seq 0 (Z.to_nat n)))
       else None.

(** [Array(n).fill(v)]: a RangeError unless [0 <= n < 2^32]. *)
Definition arrayFill {A} (n : Z) (v : A) : option (list A) :=
  if (0 <=? n)%Z && (n <? 4294967296)%Z
  then Some (repeat v (Z.to_nat n))
  else None.

(** All the results of a callback that can raise, or the first exception. *)
Fixpoint mapM {A B} (f : A -> option B) (l : list A) : option (list B) :=
  match l with
  | [] => Some []
  | x :: l' =>
      match f x with
      | Some y => match mapM f l' with
                  | Some ys => Some (y :: ys)
                  | None => None
                  end
      | None => None
      end
  end.

(** The label of the first column as the source file spells it: [Flaps 0]
    and the code units 0xC2, 0xB0. *)
Definition cleanLabel : string :=
  "Flaps 0" ++ String (ascii_of_N 194) (String (ascii_of_N 176) "").

Definition handleInitNext (wiz : WizardState) : option WizardState :=
  let totalCols := (colCounts wiz + 1)%Z in
  match arrayFromLength totalCols with
  | None => None
  | Some colIndices =>
      let newCols :=
        List.map (fun i =>
                    let isClean := (i =? 0)%Z in
                    mkCol ("col-" ++ numberToString i) isClean
                      (if isClean then cleanLabel else "")
                      (if isClean then "Gear Up" else "Gear Down"))
          colIndices in
      match arrayFromLength (rowCounts wiz) with
      | None => None
      | Some rowIndices =>
          match
            mapM (fun i =>
                    let defaultWeight :=
                      if (rowCounts wiz =? 3)%Z then
                        if (i =? 0)%Z then "2200"
                        else if (i =? 1)%Z then "2500"
                        else if (i =? 2)%Z then "2740" else ""
                      else "" in
                    match arrayFill totalCols "" with
                    | Some cells =>
                        Some (mkRow ("row-" ++ numberToString i)
                                defaultWeight cells)
                    | None => None
                    end)
              rowIndices
          with
          | None => None
          | Some newRows =>
              Some (mkWiz StepTable (wizName wiz) (rowCounts wiz)
                      (colCounts wiz) newCols newRows)
          end
      end
  end.

Definition withCols (wiz : WizardState) (newCols : list WizardConfigCol)
  : WizardState :=
  mkWiz (step wiz) (wizName wiz) (rowCounts wiz) (colCounts wiz) newCols
    (rows wiz).

Definition withRows (wiz : WizardState) (newRows : list WizardWeightRow)
  : WizardState :=
  mkWiz (step wiz) (wizName wiz) (rowCounts wiz) (colCounts wiz) (cols wiz)
    newRows.

Definition setRefCol (prev : WizardState) (id : string) : WizardState :=
  withCols prev
    (List.map (fun c => mkCol (colId c) (String.eqb (colId c) id)
                          (colLabel c) (colSubLabel c))
       (cols prev)).

Definition updateRowWeight (prev : WizardState) (id val : string)
  : WizardState :=
  withRows prev
    (List.map (fun r => if String.eqb (rowId r) id
                        then mkRow (rowId r) val (rowSpeeds r) else r)
       (rows prev)).

(** [now] is the value of [Date.now()]. *)
Definition addConfigCol (prev : WizardState) (now : Z) : WizardState :=
  mkWiz (step prev) (wizName prev) (rowCounts prev) (colCounts prev)
    (cols prev ++ [mkCol ("col-" ++ numberToString now) false "" "Gear Down"])
    (List.map (fun r => mkRow (rowId r) (weight r) (rowSpeeds r ++ [""]))
       (rows prev)).

(** [l.filter((_, i) => i !== idx)] *)
Fixpoint removeAt {A} (idx : nat) (l : list A) : list A :=
  match l, idx with
  | [], _ => []
  | _ :: l', O => l'
  | x :: l', S k => x :: removeAt k l'
  end.

(** [removeConfigCol]; [None] for the TypeError of [newCols[0].isRef] on an
    empty array. *)
Definition removeConfigCol (wiz : WizardState) (idx : nat)
  : option WizardState :=
  if Nat.leb (length (cols wiz)) 1 then Some wiz
  else
    let newCols := removeAt idx (cols wiz) in
    let newRows :=
      List.map (fun r => mkRow (rowId r) (weight r)
                           (removeAt idx (rowSpeeds r))) (rows wiz) in
    if existsb isRef newCols
    then Some (mkWiz (step wiz) (wizName wiz) (rowCounts wiz) (colCounts wiz)
                 newCols newRows)
    else match newCols with
         | c :: rest =>
             Some (mkWiz (step wiz) (wizName wiz) (rowCounts wiz)
                     (colCounts wiz)
                     (mkCol (colId c) true (colLabel c) (colSubLabel c) :: rest)
                     newRows)
         | [] => None
         end.

Definition addWeightRow (prev : WizardState) (now : Z) : WizardState :=
  withRows prev
    (rows prev
     ++ [mkRow ("row-" ++ numberToString now) ""
           (repeat ""%string (length (cols prev)))]).

Definition removeWeightRow (wiz : WizardState) (id : string) : WizardState :=
  if Nat.leb (length (rows wiz)) 1 then wiz
  else withRows wiz
         (List.filter (fun r => negb (String.eqb (rowId r) id)) (rows wiz)).

(** ** Sorting

    [Array.prototype.sort] with a comparator that orders consistently
    returns the sorted permutation that keeps the order of elements that
    compare equal; insertion computes it. *)
Fixpoint insertSorted {A} (cmp : A -> A -> Q) (x : A) (l : list A) : list A :=
  match l with
  | [] => [x]
  | y :: l' =>
      if Qle_bool (cmp x y) 0 then x :: l else y :: insertSorted cmp x l'
  end.

Definition sort {A} (cmp : A -> A -> Q) (l : list A) : list A :=
  fold_right (insertSorted cmp) [] l.

(** ** Finishing

    [parseFloat] reads the longest decimal literal at the start of a text;
    the result is a number or NaN ([None]).  It and the two case
    conversions are those of the runtime. *)
Section Finish.

Variable parseFloat : string -> option Q.
Variable toLowerCase : string -> string.
Variable toUpperCase : string -> string.

(** [parseFloat(row.weight) || 0] *)
Definition weightOf (row : WizardWeightRow) : Q :=
  Calc.orZero (parseFloat (weight row)).

(** [speedsMap] after the [forEach] over the columns, from index [idx]
    on; a cell beyond the end of the row is [undefined]. *)
Fixpoint forEachCol (columns : list WizardConfigCol) (idx : nat)
  (row : WizardWeightRow) (speedsMap : gmap string Q) : gmap string Q :=
  match columns with
  | [] => speedsMap
  | col :: rest =>
      forEachCol rest (S idx) row
        (<[colId col :=
             Calc.orZero (parseFloat (nth idx (rowSpeeds row) "undefined"))]>
           speedsMap)
  end.

Definition speedsMapOf (columns : list WizardConfigCol)
  (row : WizardWeightRow) : gmap string Q :=
  forEachCol columns 0 row ∅.

Definition pointOfRow (columns : list WizardConfigCol)
  (row : WizardWeightRow) : ChartDataPoint :=
  mkPoint (weightOf row) (speedsMapOf columns row).

Definition hasText (s part : string) : bool :=
  Text.includes (Text.str s) (Text.str part).

Definition configOfCol (col : WizardConfigCol) : SpeedConfig :=
  mkSpeedConfig (colId col) (colLabel col) (colSubLabel col)
    (if hasText (toLowerCase (colLabel col)) "15"
        || hasText (toLowerCase (colLabel col)) "appr"
        || hasText (toLowerCase (colSubLabel col)) "takeoff"
     then Some "blue"%string else None).

(** The profile that [handleFinish] hands to [onAddProfile]; [None] for
    the TypeError of [sortedRows[0].weight] without rows. *)
Definition handleFinish (wiz : WizardState) (now : Z)
  : option AircraftProfile :=
  let sortedRows :=
    sort (fun a b => weightOf a - weightOf b) (rows wiz) in
  match sortedRows with
  | [] => None
  | firstRow :: _ =>
      let minW := weightOf firstRow in
      let maxW := weightOf (List.last sortedRows firstRow) in
      let performanceData := List.map (pointOfRow (cols wiz)) sortedRows in
      let configs := List.map configOfCol (cols wiz) in
      let presets :=
        [ mkPreset "Light" minW User;
          mkPreset "Mid" (inject_Z (Calc.round ((minW + maxW) / 2))) Users;
          mkPreset "Max Gross" maxW Weight ] in
      Some (mkProfile ("custom-" ++ numberToString now) (wizName wiz)
              (toUpperCase (String.substring 0 4 (wizName wiz)))
              performanceData configs presets (1404 # 1000))
  end.

End Finish.

(** ** Vocabulary of the statements about the wizard *)

(** Every row has one cell per column. *)
Definition rectangular (wiz : WizardState) : Prop :=
  Forall (fun r => length (rowSpeeds r) = length (cols wiz)) (rows wiz).

(** An identifier as the wizard makes them for columns: [col-] and a
    number. *)
Definition generatedColId (id : string) : Prop :=
  exists n : Z, id = ("col-" ++ numberToString n)%string.

(** The characters of a number: the digits and the minus sign. *)
Definition numeric (c : ascii) : Prop :=
  Text.isDigit (N_of_ascii c) = true \/ c = "-"%char.

(** A text read as a whole number by [parseInt]: what [parseFloat] gives
    for a text of digits. *)
Definition parseWholeNumber (s : string) : option Q :=
  match Text.parseInt (Text.str s) with
  | Int z => Some (inject_Z z)
  | NaN => None
  end.

(** A table of three weights, entered out of order, and three columns. *)
Definition sampleWizard : WizardState :=
  mkWiz StepTable "Skyhawk" 3 2
    [ mkCol "col-0" true "Flaps 0" "Gear Up";
      mkCol "col-1" false "Flaps 10" "Gear Down";
      mkCol "col-2" false "Flaps 30" "Gear Down" ]
    [ mkRow "row-0" "2550" ["48"; "43"; "40"];
      mkRow "row-1" "1900" ["42"; "38"; "35"];
      mkRow "row-2" "2200" ["45"; "40"; "37"] ]%string.

(** The table is rectangular and its columns have identifiers made by the
    wizard. *)
Definition wellFormed (wiz : WizardState) : Prop :=
  rectangular wiz /\ Forall generatedColId (List.map colId (cols wiz)).

End Wizard.

(* ================================================================== *)
(** * App.tsx: the stored profiles                                     *)
(* ================================================================== *)

Module App.

(** The two pieces of state that the profile handlers change. *)
Record AppState := mkApp {
  profiles        : list AircraftProfile;
  activeProfileId : string
}.

(** [profiles.find(p => p.id === activeProfileId) || profiles[0]];
    [None] is [undefined]. *)
Definition activeProfile (st : AppState) : option AircraftProfile :=
  match List.find (fun p => String.eqb (profileId p) (activeProfileId st))
          (profiles st) with
  | Some p => Some p
  | None => head (profiles st)
  end.

Definition isWeightIcon (i : PresetIcon) : bool :=
  match i with Weight => true | _ => false end.

(** [profile.presets.find(p => p.icon === 'Weight')?.val || 2500]: the
    weight that is set when the active profile changes. *)
Definition maxGrossOf (profile : AircraftProfile) : Q :=
  match List.find (fun p => isWeightIcon (icon p)) (presets profile) with
  | Some p => if Qeq_bool (val p) 0 then 2500 else val p
  | None => 2500
  end.

Definition handleAddProfile (st : AppState) (newProfile : AircraftProfile)
  : AppState :=
  mkApp (profiles st ++ [newProfile]) (profileId newProfile).



(** ** Vocabulary *)

(** The state of a first visit: the built-in profile, active. *)
Definition initialState : AppState :=
  mkApp [Constants.MOONEY_M20J] (profileId Constants.MOONEY_M20J).

(** The active identifier is that of a stored profile. *)
Definition activeStored (st : AppState) : Prop :=
  exists p, In p (profiles st) /\ profileId p = activeProfileId st.

End App.

(* ================================================================== *)
(** * Properties of the string and matching primitives                *)
(* ================================================================== *)

Module TextFacts.
Import Text.
Local Open Scope nat_scope.

Lemma startsWith_app (p rest : list N) : startsWith (p ++ rest) p = true.
Proof.
  induction p as [|c p IH]; [destruct rest; reflexivity|].
  simpl. rewrite N.eqb_refl. exact IH.
Qed.

Lemma startsWith_split (s p : list N) :
  startsWith s p = true -> s = p ++ skipn (length p) s.
Proof.
  revert s. induction p as [|c p IH]; intros s H; [reflexivity|].
  destruct s as [|d s]; [discriminate|].
  simpl in H. apply andb_prop in H. destruct H as [Hc Hp].
  apply N.eqb_eq in Hc. subst d. simpl. f_equal. apply IH, Hp.
Qed.

Lemma startsWith_iff (s p : list N) :
  startsWith s p = true <-> exists rest, s = p ++ rest.
Proof.
  split.
  - intros H. eexists. apply startsWith_split, H.
  - intros [rest ->]. apply startsWith_app.
Qed.

Lemma skipn_app_length {A} (m rest : list A) : skipn (length m) (m ++ rest) = rest.
Proof. induction m; [reflexivity | assumption]. Qed.

Lemma firstn_app_length {A} (m rest : list A) :
  firstn (length (m ++ rest) - length rest) (m ++ rest) = m.
Proof.
  rewrite length_app, Nat.add_sub.
  induction m as [|a m IH]; [destruct rest; reflexivity|].
  simpl. f_equal. exact IH.
Qed.

(** ** The repetition of a character class *)

Lemma many_sound (cls : N -> bool) (s : list N) :
  forall lo hi rest,
    In rest (many cls lo hi s) ->
    exists m, s = m ++ rest /\ lang (Many cls lo hi) m.
Proof.
  induction s as [|c s IH]; intros lo hi rest Hin; simpl in Hin.
  - destruct (Nat.eqb lo 0) eqn:E; [|destruct Hin].
    apply Nat.eqb_eq in E. destruct Hin as [<-|[]].
    exists []. simpl. repeat split; [constructor | lia | intros; lia].
  - apply in_app_or in Hin. destruct Hin as [Hin|Hin].
    + destruct (cls c) eqn:Ec; [|destruct Hin].
      destruct (canTake hi) eqn:Eh; [|destruct Hin].
      simpl in Hin. destruct (IH _ _ _ Hin) as (m & -> & Hall & Hlo & Hhi).
      exists (c :: m). simpl. repeat split.
      * constructor; assumption.
      * lia.
      * intros h ->. destruct h as [|h]; [discriminate|].
        specialize (Hhi h eq_refl). lia.
    + destruct (Nat.eqb lo 0) eqn:E; [|destruct Hin].
      apply Nat.eqb_eq in E. destruct Hin as [<-|[]].
      exists []. simpl. repeat split; [constructor | lia | intros; lia].
Qed.

Lemma many_complete (cls : N -> bool) (m : list N) :
  forall lo hi rest,
    lang (Many cls lo hi) m -> In rest (many cls lo hi (m ++ rest)).
Proof.
  induction m as [|c m IH]; intros lo hi rest (Hall & Hlo & Hhi).
  - simpl in Hlo. assert (lo = 0%nat) as -> by lia.
    simpl. destruct rest; simpl; [left; reflexivity|].
    apply in_or_app. right. left. reflexivity.
  - inversion Hall as [|? ? Hc Hm]; subst.
    change ((c :: m) ++ rest) with (c :: (m ++ rest)).
    simpl. apply in_or_app. left. rewrite Hc.
    assert (Hh : canTake hi = true).
    { destruct hi as [[|h]|]; try reflexivity.
      specialize (Hhi 0%nat eq_refl). simpl in Hhi. lia. }
    rewrite Hh. simpl. apply IH. simpl in *. repeat split.
    + exact Hm.
    + lia.
    + intros h Eh. destruct hi as [h0|]; [|discriminate].
      simpl in Eh. injection Eh as <-. specialize (Hhi h0 eq_refl). lia.
Qed.

(** ** The matcher finds exactly the prefixes in the language *)

Lemma ms_sound (r : regex) :
  forall s caps rest caps',
    In (rest, caps') (ms r s caps) -> exists m, s = m ++ rest /\ lang r m.
Proof.
  induction r as [p|cls lo hi|r1 IH1 r2 IH2|r1 IH1 r2 IH2|i r1 IH1];
    intros s caps rest caps' Hin; simpl in Hin.
  - destruct (startsWith s p) eqn:E; [|destruct Hin].
    destruct Hin as [Heq|[]]. injection Heq as <- <-.
    exists p. split; [apply startsWith_split, E | reflexivity].
  - apply in_map_iff in Hin. destruct Hin as (rest' & Heq & Hin).
    injection Heq as -> <-. apply many_sound, Hin.
  - apply in_flat_map in Hin. destruct Hin as ([mid cmid] & H1 & H2).
    destruct (IH1 _ _ _ _ H1) as (m1 & -> & L1).
    destruct (IH2 _ _ _ _ H2) as (m2 & E2 & L2). simpl in E2. subst mid.
    exists (m1 ++ m2). split; [apply app_assoc|].
    exists m1, m2. auto.
  - apply in_app_or in Hin. destruct Hin as [Hin|Hin].
    + destruct (IH1 _ _ _ _ Hin) as (m & E & L). exists m. simpl. auto.
    + destruct (IH2 _ _ _ _ Hin) as (m & E & L). exists m. simpl. auto.
  - apply in_map_iff in Hin. destruct Hin as ([rest' c'] & Heq & Hin).
    simpl in Heq. injection Heq as -> <-.
    destruct (IH1 _ _ _ _ Hin) as (m & E & L). exists m. auto.
Qed.

Lemma ms_complete (r : regex) :
  forall m rest caps,
    lang r m -> exists caps', In (rest, caps') (ms r (m ++ rest) caps).
Proof.
  induction r as [p|cls lo hi|r1 IH1 r2 IH2|r1 IH1 r2 IH2|i r1 IH1];
    intros m rest caps L; simpl in L |- *.
  - subst m. rewrite startsWith_app, skipn_app_length.
    exists caps. left. reflexivity.
  - exists caps. apply in_map_iff. exists rest. split; [reflexivity|].
    apply many_complete, L.
  - destruct L as (m1 & m2 & -> & L1 & L2).
    destruct (IH1 m1 (m2 ++ rest) caps L1) as (c1 & H1).
    destruct (IH2 m2 rest c1 L2) as (c2 & H2).
    exists c2. apply in_flat_map. exists (m2 ++ rest, c1).
    rewrite <- app_assoc. split; [exact H1 | exact H2].
  - destruct L as [L|L].
    + destruct (IH1 m rest caps L) as (c & H). exists c.
      apply in_or_app. left. exact H.
    + destruct (IH2 m rest caps L) as (c & H). exists c.
      apply in_or_app. right. exact H.
  - destruct (IH1 m rest caps L) as (c & H). eexists.
    apply in_map_iff. exists (rest, c). split; [reflexivity | exact H].
Qed.

Lemma ms_nil_iff (r : regex) (s : list N) (caps : captures) :
  ms r s caps = [] <-> ~ matchesAt r s.
Proof.
  split.
  - intros E (m & rest & -> & L).
    destruct (ms_complete r m rest caps L) as (c & Hin).
    rewrite E in Hin. destruct Hin.
  - intros Hno. destruct (ms r s caps) as [|[rest c] l] eqn:E; [reflexivity|].
    exfalso. apply Hno.
    destruct (ms_sound r s caps rest c) as (m & Hs & L);
      [rewrite E; left; reflexivity|].
    exists m, rest. auto.
Qed.

(** The captures of a group, and of an expression without groups. *)
Lemma ms_groupless (r : regex) :
  groupless r ->
  forall s caps rest caps', In (rest, caps') (ms r s caps) -> caps' = caps.
Proof.
  induction r as [p|cls lo hi|r1 IH1 r2 IH2|r1 IH1 r2 IH2|i r1 IH1];
    intros G s caps rest caps' Hin; simpl in G, Hin.
  - destruct (startsWith s p); [|destruct Hin].
    destruct Hin as [Heq|[]]. congruence.
  - apply in_map_iff in Hin. destruct Hin as (x & Heq & _). congruence.
  - destruct G as [G1 G2].
    apply in_flat_map in Hin. destruct Hin as ([mid cmid] & H1 & H2).
    rewrite (IH2 G2 _ _ _ _ H2). simpl. apply (IH1 G1 _ _ _ _ H1).
  - destruct G as [G1 G2]. apply in_app_or in Hin. destruct Hin as [Hin|Hin].
    + apply (IH1 G1 _ _ _ _ Hin).
    + apply (IH2 G2 _ _ _ _ Hin).
  - destruct G.
Qed.

Lemma ms_group (i : nat) (r : regex) (s : list N) (caps : captures)
  (rest : list N) (caps' : captures) :
  In (rest, caps') (ms (Group i r) s caps) ->
  exists m c1, s = m ++ rest /\ lang r m /\ In (rest, c1) (ms r s caps)
               /\ caps' = (i, m) :: c1.
Proof.
  simpl. intros Hin. apply in_map_iff in Hin.
  destruct Hin as ([rest' c1] & Heq & Hin). simpl in Heq.
  injection Heq as -> <-.
  destruct (ms_sound _ _ _ _ _ Hin) as (m & -> & L).
  exists m, c1. rewrite firstn_app_length. auto.
Qed.

Lemma ms_seq (r1 r2 : regex) (s : list N) (caps : captures)
  (rest : list N) (caps' : captures) :
  In (rest, caps') (ms (Seq r1 r2) s caps) <->
  exists mid cmid, In (mid, cmid) (ms r1 s caps)
                   /\ In (rest, caps') (ms r2 mid cmid).
Proof.
  simpl. rewrite in_flat_map. split.
  - intros ([mid cmid] & H1 & H2). exists mid, cmid. auto.
  - intros (mid & cmid & H1 & H2). exists (mid, cmid). auto.
Qed.

(** ** The leftmost match *)

Lemma matchAt_none (r : regex) (s : list N) (i : nat) :
  matchAt r s i = None <-> ~ matchesAt r s.
Proof.
  unfold matchAt. rewrite <- (ms_nil_iff r s []).
  destruct (ms r s []); split; congruence.
Qed.

Lemma execFrom_none (r : regex) (s : list N) :
  forall i, execFrom r s i = None <->
            forall k, k <= length s -> ~ matchesAt r (skipn k s).
Proof.
  induction s as [|c s IH]; intros i; simpl.
  - destruct (matchAt r [] i) eqn:E.
    + split; [discriminate|]. intros H. exfalso.
      apply (H 0 (le_n _)). simpl.
      destruct (matchAt_none r [] i) as [_ Hn].
      destruct (ms r [] []) as [|[rest c] l] eqn:Em.
      * unfold matchAt in E. rewrite Em in E. discriminate.
      * destruct (ms_sound r [] [] rest c) as (m0 & Hs & L);
          [rewrite Em; left; reflexivity|].
        exists m0, rest. auto.
    + apply matchAt_none in E. split; [|reflexivity].
      intros _ k Hk. assert (k = 0) as -> by lia. exact E.
  - destruct (matchAt r (c :: s) i) eqn:E.
    + split; [discriminate|]. intros H. exfalso.
      apply (H 0); [lia|]. simpl.
      destruct (ms r (c :: s) []) as [|[rest c0] l] eqn:Em.
      * unfold matchAt in E. rewrite Em in E. discriminate.
      * destruct (ms_sound r (c :: s) [] rest c0) as (m0 & Hs & L);
          [rewrite Em; left; reflexivity|].
        exists m0, rest. auto.
    + apply matchAt_none in E. rewrite IH. split.
      * intros H k Hk. destruct k as [|k]; [exact E|]. simpl. apply H. lia.
      * intros H k Hk. apply (H (S k)). lia.
Qed.

Lemma execFrom_some (r : regex) (s : list N) :
  forall i res,
    execFrom r s i = Some res ->
    exists k, k <= length s /\ index res = i + k
              /\ matchAt r (skipn k s) (i + k) = Some res
              /\ forall j, j < k -> ~ matchesAt r (skipn j s).
Proof.
  induction s as [|c s IH]; intros i res H; simpl in H.
  - destruct (matchAt r [] i) eqn:E; [|discriminate].
    injection H as ->. exists 0. rewrite Nat.add_0_r. simpl.
    split; [lia|]. split; [|split; [exact E | intros; lia]].
    unfold matchAt in E. destruct (ms r [] []); [discriminate|].
    injection E as <-. reflexivity.
  - destruct (matchAt r (c :: s) i) eqn:E.
    + injection H as ->. exists 0. rewrite Nat.add_0_r. simpl.
      split; [lia|]. split; [|split; [exact E | intros; lia]].
      unfold matchAt in E. destruct (ms r (c :: s) []); [discriminate|].
      injection E as <-. reflexivity.
    + destruct (IH _ _ H) as (k & Hk & Hi & Hm & Hbefore).
      exists (S k). simpl.
      replace (i + S k) with (S i + k) by lia.
      split; [lia|]. split; [exact Hi|]. split; [exact Hm|].
      intros j Hj. destruct j as [|j].
      * simpl. apply (matchAt_none r (c :: s) i), E.
      * simpl. apply Hbefore. lia.
Qed.

(** ** [indexOf] *)

Lemma indexOfAux_eq (p s : list N) (i : nat) :
  indexOfAux p s i
  = if startsWith s p then Some i
    else match s with
         | [] => None
         | _ :: s' => indexOfAux p s' (S i)
         end.
Proof. destruct s; reflexivity. Qed.

Lemma indexOfAux_none (p s : list N) :
  forall i, indexOfAux p s i = None <->
            forall k, k <= length s -> startsWith (skipn k s) p = false.
Proof.
  induction s as [|c s IH]; intros i; rewrite indexOfAux_eq.
  - destruct (startsWith [] p) eqn:E.
    + split; [discriminate|]. intros H. specialize (H 0 (le_n _)).
      simpl skipn in H. congruence.
    + split; [|reflexivity]. intros _ k Hk.
      assert (k = 0) as -> by (simpl in Hk; lia). exact E.
  - destruct (startsWith (c :: s) p) eqn:E.
    + split; [discriminate|]. intros H. specialize (H 0 (Nat.le_0_l _)).
      simpl skipn in H. congruence.
    + rewrite IH. split.
      * intros H k Hk. destruct k as [|k]; [exact E|].
        simpl skipn. apply H. simpl in Hk. lia.
      * intros H k Hk. apply (H (S k)). simpl. lia.
Qed.

Lemma indexOfAux_some (p s : list N) :
  forall i j, indexOfAux p s i = Some j ->
    exists k, j = i + k /\ k <= length s /\ startsWith (skipn k s) p = true.
Proof.
  induction s as [|c s IH]; intros i j H; rewrite indexOfAux_eq in H.
  - destruct (startsWith [] p) eqn:E; [|discriminate].
    injection H as <-. exists 0. simpl skipn. simpl length.
    split; [lia|]. split; [lia | exact E].
  - destruct (startsWith (c :: s) p) eqn:E.
    + injection H as <-. exists 0. simpl skipn.
      split; [lia|]. split; [lia | exact E].
    + destruct (IH _ _ H) as (k & -> & Hk & Hs).
      exists (S k). simpl skipn. simpl length.
      split; [lia|]. split; [lia | exact Hs].
Qed.

Lemma contains_skipn (s p : list N) :
  contains s p <-> exists k, k <= length s /\ startsWith (skipn k s) p = true.
Proof.
  split.
  - intros (pre & post & ->). exists (length pre). split.
    + rewrite length_app. lia.
    + rewrite skipn_app_length. apply startsWith_app.
  - intros (k & Hk & H). apply startsWith_split in H.
    exists (firstn k s), (skipn (length p) (skipn k s)).
    rewrite <- H. symmetry. apply firstn_skipn.
Qed.

Lemma indexOf_none (s p : list N) :
  indexOf s p 0 = None <-> ~ contains s p.
Proof.
  unfold indexOf. rewrite Nat.min_0_l. change (skipn 0 s) with s.
  rewrite indexOfAux_none, contains_skipn. split.
  - intros H (k & Hk & E). rewrite (H k Hk) in E. discriminate.
  - intros H k Hk. destruct (startsWith (skipn k s) p) eqn:E; [|reflexivity].
    exfalso. apply H. exists k. auto.
Qed.

Lemma occursIn_skipn (r : regex) (s : list N) :
  occursIn r s <-> exists k, k <= length s /\ matchesAt r (skipn k s).
Proof.
  split.
  - intros (pre & m & post & -> & L). exists (length pre). split.
    + rewrite length_app. lia.
    + rewrite skipn_app_length. exists m, post. auto.
  - intros (k & Hk & m & rest & E & L).
    exists (firstn k s), m, rest. rewrite <- E. split; [|exact L].
    symmetry. apply firstn_skipn.
Qed.

Lemma exec_none (r : regex) (s : list N) :
  exec r s = None <-> ~ occursIn r s.
Proof.
  unfold exec. rewrite execFrom_none, occursIn_skipn. split.
  - intros H (k & Hk & M). exact (H k Hk M).
  - intros H k Hk M. apply H. exists k. auto.
Qed.

(** ** Global replacement *)

Lemma replaceGo_skip (r : regex) (f : MatchResult -> list N) (m rest : list N) :
  replaceGo r f (m ++ rest) (length m) = replaceGo r f rest 0.
Proof. induction m as [|c m IH]; [reflexivity | exact IH]. Qed.

Lemma replaceGo_match (r : regex) (f : MatchResult -> list N)
  (m rest : list N) (caps : captures) (others : list (list N * captures)) :
  ms r (m ++ rest) [] = (rest, caps) :: others -> m <> [] ->
  replaceGo r f (m ++ rest) 0 = f (mkMatch 0 m caps) ++ replaceGo r f rest 0.
Proof.
  intros E Hne. destruct m as [|c m]; [congruence|].
  change ((c :: m) ++ rest) with (c :: (m ++ rest)) in *.
  simpl replaceGo. unfold matchAt. rewrite E. simpl fst. simpl snd.
  change (c :: (m ++ rest)) with ((c :: m) ++ rest).
  rewrite firstn_app_length. simpl. rewrite replaceGo_skip. reflexivity.
Qed.

Lemma replaceGo_nomatch (r : regex) (f : MatchResult -> list N)
  (c : N) (s : list N) :
  ms r (c :: s) [] = [] ->
  replaceGo r f (c :: s) 0 = c :: replaceGo r f s 0.
Proof. intros E. simpl. unfold matchAt. rewrite E. reflexivity. Qed.

(** An induction principle for the result of a global replacement by an
    expression that matches no empty string. *)
Lemma replaceAll_ind (r : regex) (f : MatchResult -> list N)
  (P : list N -> list N -> Prop) :
  (forall m, lang r m -> m <> []) ->
  P [] [] ->
  (forall c s out, ~ matchesAt r (c :: s) -> P s out -> P (c :: s) (c :: out)) ->
  (forall m rest caps out,
      lang r m -> In (rest, caps) (ms r (m ++ rest) []) ->
      P rest out -> P (m ++ rest) (f (mkMatch 0 m caps) ++ out)) ->
  forall s, P s (replaceAll r f s).
Proof.
  intros Hne Hnil Hcopy Hmatch s. unfold replaceAll.
  remember (length s) as n eqn:En. revert s En.
  induction n as [n IH] using lt_wf_ind. intros s En.
  destruct (ms r s []) as [|[rest caps] others] eqn:E.
  - destruct s as [|c s].
    + simpl. unfold matchAt. rewrite E. exact Hnil.
    + rewrite replaceGo_nomatch by exact E.
      apply Hcopy; [apply ms_nil_iff with (caps := []); exact E|].
      apply (IH (length s)); [subst n; simpl; lia | reflexivity].
  - destruct (ms_sound r s [] rest caps) as (m & -> & L);
      [rewrite E; left; reflexivity|].
    pose proof (Hne m L) as Hm.
    rewrite (replaceGo_match r f m rest caps others E Hm).
    apply Hmatch; [exact L | rewrite E; left; reflexivity|].
    apply (IH (length rest)); [|reflexivity].
    subst n. rewrite length_app. destruct m; [congruence | simpl; lia].
Qed.

End TextFacts.

(* ================================================================== *)
(** * Properties of extractGust and parseTaf                            *)
(* ================================================================== *)

Module WeatherFacts.
Import Text Weather TextFacts.
Local Open Scope nat_scope.

(** ** The shapes of the expressions *)

Lemma lang_digits (lo hi : nat) (m : list N) :
  lang (digits lo hi) m <-> allDigits m /\ lo <= length m <= hi.
Proof.
  unfold digits. simpl. split.
  - intros (H & Hlo & Hhi). specialize (Hhi hi eq_refl). auto.
  - intros (H & Hlo & Hhi). split; [exact H|]. split; [exact Hlo|].
    intros h [= <-]. exact Hhi.
Qed.

Lemma lang_digitRun (n : nat) (m : list N) :
  lang (digits n n) m <-> digitRun n m.
Proof.
  rewrite lang_digits. unfold digitRun. split; intros [H1 H2];
    (split; [exact H1 | lia]).
Qed.

Lemma lang_validity (m : list N) : lang validity m <-> validityShape m.
Proof.
  unfold validity, validityShape. simpl lang. split.
  - intros (a & x & -> & La & s & b & -> & -> & Lb).
    exists a, b. split; [reflexivity|].
    split; apply lang_digitRun; assumption.
  - intros (a & b & -> & Ha & Hb).
    exists a, (str "/" ++ b). split; [reflexivity|].
    split; [apply (lang_digitRun 4), Ha|].
    exists (str "/"), b. split; [reflexivity|]. split; [reflexivity|].
    apply (lang_digitRun 4), Hb.
Qed.

Lemma lang_fm (m : list N) : lang fmBody m <-> fmShape m.
Proof.
  unfold fmBody, fmShape. simpl lang. split.
  - intros (x & ds & -> & -> & L). exists ds. split; [reflexivity|].
    apply lang_digitRun, L.
  - intros (ds & -> & H). exists (str "FM"), ds.
    split; [reflexivity|]. split; [reflexivity|]. apply (lang_digitRun 6), H.
Qed.

Lemma lang_becmg (m : list N) : lang becmgBody m <-> becmgShape m.
Proof.
  unfold becmgBody, becmgShape.
  change (lang (Seq (Lit (str "BECMG ")) validity) m)
    with (exists m1 m2, m = m1 ++ m2 /\ m1 = str "BECMG " /\ lang validity m2).
  split.
  - intros (x & v & -> & -> & L). exists v. split; [reflexivity|].
    apply lang_validity, L.
  - intros (v & -> & H). exists (str "BECMG "), v.
    split; [reflexivity|]. split; [reflexivity|]. apply lang_validity, H.
Qed.

Lemma lang_tempo (m : list N) : lang tempoBody m <-> tempoShape m.
Proof.
  unfold tempoBody, tempoShape.
  change (lang (Seq (Lit (str "TEMPO ")) validity) m)
    with (exists m1 m2, m = m1 ++ m2 /\ m1 = str "TEMPO " /\ lang validity m2).
  split.
  - intros (x & v & -> & -> & L). exists v. split; [reflexivity|].
    apply lang_validity, L.
  - intros (v & -> & H). exists (str "TEMPO "), v.
    split; [reflexivity|]. split; [reflexivity|]. apply lang_validity, H.
Qed.

Lemma lang_prob (m : list N) : lang probBody m <-> probShape m.
Proof.
  unfold probBody, probShape.
  change (lang (Seq (Lit (str "PROB"))
                 (Seq (digits 2 2) (Seq (Lit (str " ")) validity))) m)
    with (exists m1 m2, m = m1 ++ m2 /\ m1 = str "PROB"
            /\ exists p x, m2 = p ++ x /\ lang (digits 2 2) p
                 /\ exists s v, x = s ++ v /\ s = str " " /\ lang validity v).
  split.
  - intros (x & y & -> & -> & p & z & -> & Lp & s & v & -> & -> & Lv).
    exists p, v. split; [reflexivity|].
    split; [apply lang_digitRun, Lp | apply lang_validity, Lv].
  - intros (p & v & -> & Hp & Hv).
    exists (str "PROB"), (p ++ str " " ++ v).
    split; [reflexivity|]. split; [reflexivity|].
    exists p, (str " " ++ v). split; [reflexivity|].
    split; [apply (lang_digitRun 2), Hp|].
    exists (str " "), v. split; [reflexivity|]. split; [reflexivity|].
    apply lang_validity, Hv.
Qed.

(** C6.  When the text left after tag stripping and white-space collapsing
    contains neither ["TAF: " + code] nor ["TAF " + code], and nowhere [FM]
    with six digits or [BECMG DDDD/DDDD], [parseTaf] returns the empty
    sequence. *)
Theorem parseTaf_without_marker (rawHtml code : list N) :
  ~ contains (cleanHtml rawHtml) (str "TAF: " ++ code) ->
  ~ contains (cleanHtml rawHtml) (str "TAF " ++ code) ->
  ~ (exists pre m post, cleanHtml rawHtml = pre ++ m ++ post
                        /\ (fmShape m \/ becmgShape m)) ->
  parseTaf rawHtml code = [].
Proof.
  intros H1 H2 H3. unfold parseTaf, findTafStart.
  apply indexOf_none in H1. apply indexOf_none in H2. rewrite H1, H2.
  assert (E : exec firstGroupRe (cleanHtml rawHtml) = None).
  { apply exec_none. intros (pre & m & post & E & L). apply H3.
    exists pre, m, post. split; [exact E|].
    simpl in L. destruct L as [L|L].
    - left. apply lang_fm, L.
    - right. apply lang_becmg, L. }
  rewrite E. reflexivity.
Qed.

(** ** extractGust *)

Lemma isDigit_range (c : N) : isDigit c = true <-> (48 <= c <= 57)%N.
Proof.
  unfold isDigit. rewrite andb_true_iff, !N.leb_le. reflexivity.
Qed.

Lemma isDigit_not_space (c : N) : isDigit c = true -> isSpace c = false.
Proof.
  intros H. apply isDigit_range in H. unfold isSpace.
  apply orb_false_iff. split.
  - simpl. repeat (apply orb_false_iff; split); try reflexivity;
      apply N.eqb_neq; lia.
  - apply andb_false_iff. left. apply N.leb_gt. lia.
Qed.

Lemma takeDigits_all (ds : list N) : allDigits ds -> takeDigits ds = ds.
Proof.
  induction 1 as [|c ds Hc _ IH]; [reflexivity|].
  simpl. rewrite Hc, IH. reflexivity.
Qed.

(** A non-empty run of digits parses to its decimal value. *)
Lemma parseInt_digits (ds : list N) :
  allDigits ds -> ds <> [] -> parseInt ds = Int (digitsValue ds).
Proof.
  intros Hall Hne. destruct ds as [|c ds]; [congruence|].
  inversion Hall as [|? ? Hc Hds]; subst.
  unfold parseInt. simpl trimStart. rewrite (isDigit_not_space c Hc).
  pose proof (proj1 (isDigit_range c) Hc) as Hr.
  assert (E1 : N.eqb c 45 = false) by (apply N.eqb_neq; lia).
  assert (E2 : N.eqb c 43 = false) by (apply N.eqb_neq; lia).
  rewrite E1, E2. rewrite (takeDigits_all (c :: ds) Hall).
  f_equal. apply Z.mul_1_l.
Qed.

Lemma digitsValue_snoc (ds : list N) (d : N) :
  digitsValue (ds ++ [d]) = (10 * digitsValue ds + (Z.of_N d - 48))%Z.
Proof. unfold digitsValue. rewrite fold_left_app. reflexivity. Qed.

Lemma digitsValue_bound (ds : list N) :
  allDigits ds -> (0 <= digitsValue ds < 10 ^ Z.of_nat (length ds))%Z.
Proof.
  induction ds as [|d ds IH] using rev_ind; intros Hall.
  - simpl. unfold digitsValue. simpl. lia.
  - apply Forall_app in Hall. destruct Hall as [Hds Hd].
    inversion Hd as [|? ? Hc _]; subst. apply isDigit_range in Hc.
    specialize (IH Hds). rewrite digitsValue_snoc, length_app. simpl length.
    rewrite Nat2Z.inj_add. change (Z.of_nat 1) with 1%Z.
    rewrite Z.pow_add_r by lia. change (10 ^ 1)%Z with 10%Z. lia.
Qed.

Lemma lang_gust (m : list N) : lang gustRe m <-> exists g, gustGroup m g.
Proof.
  unfold gustRe, gustGroup.
  change (lang (Seq (Group 1 (Alt (digits 3 3) (Lit (str "VRB"))))
                 (Seq (Group 2 (digits 2 3))
                    (Seq (Lit (str "G"))
                       (Seq (Group 3 (digits 2 3)) (Lit (str "KT")))))) m)
    with (exists d x1, m = d ++ x1
            /\ (lang (digits 3 3) d \/ d = str "VRB")
            /\ exists sp x2, x1 = sp ++ x2 /\ lang (digits 2 3) sp
                 /\ exists gl x3, x2 = gl ++ x3 /\ gl = str "G"
                      /\ exists g kt, x3 = g ++ kt /\ lang (digits 2 3) g
                           /\ kt = str "KT").
  split.
  - intros (d & x1 & -> & Hd & sp & x2 & -> & Hsp & gl & x3 & -> & ->
            & g & kt & -> & Hg & ->).
    exists g, d, sp. split; [reflexivity|]. split.
    + destruct Hd as [Hd|Hd]; [left | right; exact Hd].
      apply lang_digitRun in Hd. exact Hd.
    + split; apply lang_digits; assumption.
  - intros (g & d & sp & -> & Hd & Hsp & Hg).
    exists d, (sp ++ str "G" ++ g ++ str "KT"). split; [reflexivity|]. split.
    + destruct Hd as [Hd|Hd]; [left | right; exact Hd].
      apply (lang_digitRun 3). exact Hd.
    + exists sp, (str "G" ++ g ++ str "KT"). split; [reflexivity|].
      split; [apply lang_digits, Hsp|].
      exists (str "G"), (g ++ str "KT"). split; [reflexivity|].
      split; [reflexivity|].
      exists g, (str "KT"). split; [reflexivity|].
      split; [apply lang_digits, Hg | reflexivity].
Qed.

(** What the matcher captures in a gust group. *)
Lemma ms_gust (s rest : list N) (caps : captures) :
  In (rest, caps) (ms gustRe s []) ->
  exists d sp g,
    s = (d ++ sp ++ str "G" ++ g ++ str "KT") ++ rest
    /\ windDirection d /\ twoOrThreeDigits sp /\ twoOrThreeDigits g
    /\ caps = [(3, g); (2, sp); (1, d)].
Proof.
  unfold gustRe. intros H.
  apply ms_seq in H. destruct H as (x1 & c1 & H1 & H).
  apply ms_group in H1. destruct H1 as (d & c1' & -> & Ld & Hc1 & ->).
  apply ms_groupless in Hc1; [|simpl; auto]. subst c1'.
  apply ms_seq in H. destruct H as (x2 & c2 & H2 & H).
  apply ms_group in H2. destruct H2 as (sp & c2' & -> & Lsp & Hc2 & ->).
  apply ms_groupless in Hc2; [|simpl; auto]. subst c2'.
  apply ms_seq in H. destruct H as (x3 & c3 & H3 & H).
  pose proof (ms_groupless (Lit (str "G")) I _ _ _ _ H3) as ->.
  apply ms_sound in H3. destruct H3 as (gl & -> & Lgl). simpl in Lgl. subst gl.
  apply ms_seq in H. destruct H as (x4 & c4 & H4 & H).
  apply ms_group in H4. destruct H4 as (g & c4' & -> & Lg & Hc4 & ->).
  apply ms_groupless in Hc4; [|simpl; auto]. subst c4'.
  pose proof (ms_groupless (Lit (str "KT")) I _ _ _ _ H) as ->.
  apply ms_sound in H. destruct H as (kt & -> & Lkt). simpl in Lkt. subst kt.
  exists d, sp, g. split; [rewrite <- !app_assoc; reflexivity|].
  split.
  { simpl in Ld. destruct Ld as [Ld|Ld]; [left | right; exact Ld].
    apply (lang_digitRun 3). exact Ld. }
  split; [apply lang_digits, Lsp|]. split; [apply lang_digits, Lg|].
  reflexivity.
Qed.

Lemma gustAt_matchesAt (s : list N) (i : nat) :
  i <= length s ->
  matchesAt gustRe (skipn i s) <-> exists g, gustAt s i g.
Proof.
  intros Hi. unfold matchesAt, gustAt. split.
  - intros (m & rest & E & L). apply lang_gust in L. destruct L as [g G].
    exists g, m, rest. auto.
  - intros (g & m & rest & _ & E & G). exists m, rest. split; [exact E|].
    apply lang_gust. exists g. exact G.
Qed.

(** A run of digits before a character that is no digit is determined by
    the text. *)
Lemma digits_prefix_unique (a a' : list N) (x x' : N) (t t' : list N) :
  allDigits a -> allDigits a' ->
  isDigit x = false -> isDigit x' = false ->
  a ++ x :: t = a' ++ x' :: t' -> a = a' /\ t = t'.
Proof.
  intros Ha. revert a'. induction Ha as [|c a Hc _ IH]; intros a' Ha' Hx Hx' E.
  - destruct Ha' as [|c' a' Hc' _]; simpl in E.
    + injection E as _ ->. auto.
    + injection E as -> _. congruence.
  - destruct Ha' as [|c' a' Hc' Ha']; simpl in E.
    + injection E as -> _. congruence.
    + injection E as -> E. destruct (IH a' Ha' Hx Hx' E) as [-> ->]. auto.
Qed.

Lemma windDirection_length (d : list N) : windDirection d -> length d = 3.
Proof. intros [[_ H]| ->]; [exact H | reflexivity]. Qed.

Lemma app_same_length {A} (a a' b b' : list A) :
  length a = length a' -> a ++ b = a' ++ b' -> a = a' /\ b = b'.
Proof.
  revert a'. induction a as [|x a IH]; intros [|x' a'] Hl E;
    try discriminate; simpl in *.
  - auto.
  - injection E as -> E. destruct (IH a' ltac:(lia) E) as [-> ->]. auto.
Qed.

(** At one offset there is at most one gust group. *)
Lemma gustAt_unique (s : list N) (i : nat) (g g' : list N) :
  gustAt s i g -> gustAt s i g' -> g = g'.
Proof.
  intros (m & rest & _ & E & d & sp & -> & Hd & [Hsp _] & [Hg _])
         (m' & rest' & _ & E' & d' & sp' & -> & Hd' & [Hsp' _] & [Hg' _]).
  rewrite E in E'. rewrite <- !app_assoc in E'.
  apply app_same_length in E';
    [|rewrite !windDirection_length by assumption; reflexivity].
  destruct E' as [_ E'].
  apply digits_prefix_unique in E'; try assumption; try reflexivity.
  destruct E' as [_ E'].
  apply digits_prefix_unique in E'; try assumption; try reflexivity.
  apply E'.
Qed.

Lemma extractGust_some (s : list N) (v : jsint) :
  extractGust s = Some v ->
  exists i g, gustAt s i g
              /\ (forall j g', j < i -> ~ gustAt s j g')
              /\ v = Int (digitsValue g).
Proof.
  unfold extractGust. destruct (exec gustRe s) as [res|] eqn:E; [|discriminate].
  unfold exec in E. apply execFrom_some in E.
  destruct E as (k & Hk & _ & Hm & Hbefore). simpl in Hm.
  unfold matchAt in Hm.
  destruct (ms gustRe (skipn k s) []) as [|[rest caps] others] eqn:Em;
    [discriminate|].
  injection Hm as <-. simpl groups.
  destruct (ms_gust (skipn k s) rest caps) as (d & sp & g & Es & Hd & Hsp & Hg & ->);
    [rewrite Em; left; reflexivity|].
  change (capture 3 [(3, g); (2, sp); (1, d)]) with (Some g).
  destruct g as [|c g]; [destruct Hg as [_ [Hl _]]; simpl in Hl; lia|].
  intros [= <-]. exists k, (c :: g). split; [|split].
  - exists (d ++ sp ++ str "G" ++ (c :: g) ++ str "KT"), rest.
    split; [exact Hk|]. split; [exact Es|]. exists d, sp. auto.
  - intros j g' Hj G. apply (Hbefore j Hj).
    apply gustAt_matchesAt; [lia|]. exists g'. exact G.
  - apply parseInt_digits; [apply Hg | discriminate].
Qed.

Lemma extractGust_none (s : list N) :
  extractGust s = None <-> forall i g, ~ gustAt s i g.
Proof.
  split.
  - intros E i g G.
    assert (Hi : i <= length s) by (destruct G as (? & ? & ? & _); assumption).
    unfold extractGust in E.
    destruct (exec gustRe s) as [res|] eqn:Ex.
    + destruct (extractGust s) as [v|] eqn:Ev.
      * unfold extractGust in Ev. rewrite Ex in Ev. congruence.
      * (* a match whose third group is empty does not exist *)
        unfold exec in Ex. apply execFrom_some in Ex.
        destruct Ex as (k & _ & _ & Hm & _). unfold matchAt in Hm.
        destruct (ms gustRe (skipn k s) []) as [|[rest caps] others] eqn:Em;
          [discriminate|].
        injection Hm as <-. simpl groups in E.
        destruct (ms_gust (skipn k s) rest caps)
          as (d & sp & g0 & _ & _ & _ & Hg & ->);
          [rewrite Em; left; reflexivity|].
        change (capture 3 [(3, g0); (2, sp); (1, d)]) with (Some g0) in E.
        destruct g0; [destruct Hg as [_ [Hl _]]; simpl in Hl; lia | discriminate].
    + apply exec_none in Ex. apply Ex. apply occursIn_skipn.
      exists i. split; [exact Hi|]. apply gustAt_matchesAt; [exact Hi|].
      exists g. exact G.
  - intros H. destruct (extractGust s) as [v|] eqn:E; [|reflexivity].
    apply extractGust_some in E. destruct E as (i & g & G & _). 
    exfalso. exact (H i g G).
Qed.

Lemma extractGust_leftmost (s : list N) (i : nat) (g : list N) :
  gustAt s i g -> (forall j g', j < i -> ~ gustAt s j g') ->
  extractGust s = Some (Int (digitsValue g)).
Proof.
  intros G Hleft. destruct (extractGust s) as [v|] eqn:E.
  - apply extractGust_some in E. destruct E as (i' & g' & G' & Hleft' & ->).
    destruct (Nat.lt_trichotomy i i') as [Hlt|[->|Hgt]].
    + exfalso. exact (Hleft' i g Hlt G).
    + rewrite (gustAt_unique s i' g g' G G'). reflexivity.
    + exfalso. exact (Hleft i' g' Hgt G').
  - exfalso. exact (proj1 (extractGust_none s) E i g G).
Qed.

(** C4.  [extractGust] returns no value exactly when no gust group occurs
    in the text; otherwise it returns the decimal value of the gust digits
    (the third group) of the leftmost gust group, leading zeros allowed and
    a gust of zero being the number 0. *)
Theorem extractGust_spec (text : list N) :
  ((forall i g, ~ gustAt text i g) -> extractGust text = None)
  /\ (forall i g,
         gustAt text i g -> (forall j g', j < i -> ~ gustAt text j g') ->
         extractGust text = Some (Int (digitsValue g)))
  /\ (forall v, extractGust text = Some v ->
         exists i g, gustAt text i g /\ v = Int (digitsValue g)
                     /\ (0 <= digitsValue g <= 999)%Z)
  /\ digitsValue (str "067") = 67%Z
  /\ extractGust (str "KMIE 121654Z 18015G00KT 10SM") = Some (Int 0)
  /\ extractGust (str "KMIE 121654Z 18015G25KT 10SM") = Some (Int 25)
  /\ extractGust (str "KMIE 121654Z 18015KT 10SM") = None
  /\ extractGust (str "...VRB08G15KT...") = Some (Int 15).
Proof.
  split; [apply extractGust_none|].
  split; [apply extractGust_leftmost|].
  split.
  - intros v E. apply extractGust_some in E.
    destruct E as (i & g & G & _ & ->). exists i, g.
    split; [exact G|]. split; [reflexivity|].
    destruct G as (m & rest & _ & _ & d & sp & _ & _ & _ & Hg & Hl).
    pose proof (digitsValue_bound g Hg) as Hb.
    assert (10 ^ Z.of_nat (length g) <= 10 ^ 3)%Z
      by (apply Z.pow_le_mono_r; lia).
    lia.
  - repeat split; vm_compute; reflexivity.
Qed.

(** ** Step 1: no line break is left in the cleaned text *)

Lemma lang_spaces_nonempty (m : list N) : lang spacesRe m -> m <> [].
Proof. intros (_ & H & _) ->. simpl in H. lia. Qed.

Lemma cleanHtml_noLF (rawHtml : list N) : noLF (cleanHtml rawHtml).
Proof.
  unfold cleanHtml, noLF.
  apply (replaceAll_ind spacesRe withSpace
           (fun _ out => Forall (fun c => c <> LF) out)).
  - exact lang_spaces_nonempty.
  - constructor.
  - intros c s out Hno Hout. constructor; [|exact Hout].
    intros ->. apply Hno. exists [LF], s. split; [reflexivity|].
    simpl. split; [repeat constructor|]. split; [simpl; lia | discriminate].
  - intros m rest caps out _ _ Hout. simpl. constructor; [discriminate | exact Hout].
Qed.

Lemma noLF_firstn (n : nat) (s : list N) : noLF s -> noLF (firstn n s).
Proof. apply Forall_take. Qed.

Lemma noLF_skipn (n : nat) (s : list N) : noLF s -> noLF (skipn n s).
Proof. apply Forall_drop. Qed.

(** ** Splitting at line breaks *)

Lemma split_nonempty (s : list N) : exists h tl, split LF s = h :: tl.
Proof.
  induction s as [|c s (h & tl & E)]; simpl.
  - eauto.
  - destruct (N.eqb c LF); [eauto|]. rewrite E. eauto.
Qed.

Lemma split_LF (s : list N) : split LF (LF :: s) = [] :: split LF s.
Proof. reflexivity. Qed.

Lemma split_other (c : N) (s h : list N) (tl : list (list N)) :
  c <> LF -> split LF s = h :: tl -> split LF (c :: s) = (c :: h) :: tl.
Proof.
  intros Hc E. simpl. rewrite E.
  destruct (N.eqb_spec c LF); [contradiction | reflexivity].
Qed.

Lemma split_app_noLF (m s h : list N) (tl : list (list N)) :
  noLF m -> split LF s = h :: tl -> split LF (m ++ s) = (m ++ h) :: tl.
Proof.
  intros Hm E. induction Hm as [|c m Hc _ IH]; [exact E|].
  simpl app. apply split_other; assumption.
Qed.

Lemma split_noLF (s : list N) : noLF s -> split LF s = [s].
Proof.
  intros H. rewrite <- (app_nil_r s) at 1.
  rewrite (split_app_noLF s [] [] [] H eq_refl), app_nil_r. reflexivity.
Qed.

(** The first piece is a prefix of the text. *)
Lemma split_first_prefix (s h : list N) (tl : list (list N)) :
  split LF s = h :: tl -> exists w, s = h ++ w.
Proof.
  revert h tl. induction s as [|c s IH]; intros h tl E; simpl in E.
  - injection E as <- _. exists []. reflexivity.
  - destruct (N.eqb c LF).
    + injection E as <- _. eexists. reflexivity.
    + destruct (split LF s) as [|h0 tl0] eqn:E0; injection E as <- _.
      * exists s. reflexivity.
      * destruct (IH _ _ eq_refl) as [w ->]. exists w. reflexivity.
Qed.

(** ** Pieces *)

Lemma allDigits_cons (c : N) (ds : list N) :
  allDigits (c :: ds) <-> isDigit c = true /\ allDigits ds.
Proof.
  unfold allDigits. split.
  - intros H. inversion H; subst. auto.
  - intros [H1 H2]. constructor; assumption.
Qed.

Ltac explode_len Hlen :=
  lazymatch type of Hlen with
  | length ?ds = O => destruct ds; [clear Hlen | discriminate Hlen]
  | length ?ds = S _ =>
      destruct ds as [|? ds];
      [discriminate Hlen
      | simpl in Hlen; injection Hlen as Hlen; explode_len Hlen]
  end.

Ltac explode_run H :=
  let Hall := fresh "Hall" in
  let Hlen := fresh "Hlen" in
  destruct H as [Hall Hlen];
  explode_len Hlen;
  repeat match goal with
         | Hd : allDigits (_ :: _) |- _ =>
             apply allDigits_cons in Hd; destruct Hd as [? Hd]
         end.

(** Literal strings, evaluated. *)
Ltac norm_str :=
  repeat match goal with
         | |- context [str ?s] =>
             let v := eval vm_compute in (str s) in change (str s) with v
         | H : context [str ?s] |- _ =>
             let v := eval vm_compute in (str s) in change (str s) with v in H
         end.

(** From [In b bodies] and [lang b m]: the four markers, each with [m]
    spelled out character by character. *)
Ltac marker_cases Hin L :=
  destruct Hin as [<-|[<-|[<-|[<-|[]]]]];
  [ apply lang_fm in L; destruct L as (?ds & -> & ?H)
  | apply lang_becmg in L;
    destruct L as (?v & -> & ?a & ?b & -> & ?Ha & ?Hb)
  | apply lang_tempo in L;
    destruct L as (?v & -> & ?a & ?b & -> & ?Ha & ?Hb)
  | apply lang_prob in L;
    destruct L as (?p & ?v & -> & ?Hp & ?a & ?b & -> & ?Ha & ?Hb) ];
  repeat match goal with
         | Hr : digitRun _ _ |- _ => explode_run Hr
         end;
  norm_str; simpl app in *.

Ltac closed_digit :=
  match goal with
  | H : isDigit ?c = true |- _ =>
      tryif is_var c then fail else (vm_compute in H; discriminate H)
  end.

Ltac lead_contra H :=
  simpl in H;
  repeat match type of H with
         | _ \/ _ => destruct H as [H|H]
         end;
  try (destruct H as [? ?]; subst; first [discriminate | closed_digit]);
  try contradiction.

Lemma lead_of_marker (b : regex) (s : list N) :
  In b bodies -> matchesAt b s -> leadPair s.
Proof.
  intros Hin (m & rest & -> & L). marker_cases Hin L; simpl; auto 10.
Qed.

Lemma marker_nonempty (b : regex) (m : list N) :
  In b bodies -> lang b m -> m <> [].
Proof. intros Hin L. marker_cases Hin L; discriminate. Qed.

Lemma marker_noLF (b : regex) (m : list N) :
  In b bodies -> lang b m -> noLF m.
Proof.
  intros Hin L. unfold noLF.
  marker_cases Hin L;
    repeat (constructor; [first [discriminate | intros ->; closed_digit]|]);
    constructor.
Qed.

(** Inside a marker no marker begins. *)
Lemma no_overlap (bj : regex) (mj x : list N) (i : nat) :
  In bj bodies -> lang bj mj -> 0 < i < length mj ->
  ~ leadPair (skipn i (mj ++ x)).
Proof.
  intros Hin L Hi Hlead. marker_cases Hin L; simpl in Hi;
    (destruct i as [|i]; [lia|]);
    repeat (destruct i as [|i];
            [ simpl in Hlead;
              try (destruct x as [|? x]; [contradiction|]);
              lead_contra Hlead
            | try lia ]).
Qed.

Lemma Inert_prefix (h z : list N) : Inert (h ++ z) -> Inert h.
Proof.
  destruct h as [|a [|b h]]; simpl; auto.
  destruct z; simpl; tauto.
Qed.

Lemma app_prefix_ge {A} (mj r h z : list A) :
  h ++ z = mj ++ r -> length mj <= length h -> exists u, h = mj ++ u.
Proof.
  revert h. induction mj as [|a mj IH]; intros h E Hl; [eauto|].
  destruct h as [|a' h]; [simpl in Hl; lia|].
  simpl in E. injection E as -> E.
  destruct (IH h E ltac:(simpl in Hl; lia)) as [u ->]. exists u. reflexivity.
Qed.

(** A piece cut where a marker begins is still a piece. *)
Lemma piece_cut (b : regex) (h h' z w : list N) :
  In b bodies -> Piece h -> h = h' ++ z ->
  z = [] \/ matchesAt b (skipn (length h') (h ++ w)) ->
  Piece h'.
Proof.
  intros Hb Hp E [->|Hm].
  - rewrite app_nil_r in E. subst h'. exact Hp.
  - destruct Hp as [Hi|(bj & Hbj & mj & r & Em & L)].
    + left. subst h. eapply Inert_prefix, Hi.
    + destruct h' as [|c h']; [left; exact I|].
      destruct (Nat.le_gt_cases (length mj) (length (c :: h'))) as [Hge|Hlt].
      * right. exists bj. split; [exact Hbj|].
        destruct (app_prefix_ge mj r (c :: h') z) as [u Eu];
          [congruence | exact Hge|].
        exists mj, u. auto.
      * exfalso. apply (lead_of_marker b _ Hb) in Hm.
        rewrite Em, <- app_assoc in Hm.
        apply (no_overlap bj mj (r ++ w) (length (c :: h')) Hbj L);
          [simpl in *; lia | exact Hm].
Qed.

(** ** Step 4: one replacement keeps every piece a piece *)

Lemma lineBreak_of_group (b : regex) (m rest : list N) (caps : captures) :
  In (rest, caps) (ms (Group 1 b) (m ++ rest) []) ->
  lineBreakThenGroup1 (mkMatch 0 m caps) = LF :: m.
Proof.
  intros H. apply ms_group in H. destruct H as (m' & c1 & E & _ & _ & ->).
  apply app_inv_tail in E. subst m'. reflexivity.
Qed.

Lemma insertBreaks_pieces (b : regex) (t : list N) :
  In b bodies ->
  forall h tl, split LF t = h :: tl ->
    exists h' tl' z,
      split LF (replaceAll (Group 1 b) lineBreakThenGroup1 t) = h' :: tl'
      /\ h = h' ++ z
      /\ (z = [] \/ matchesAt b (skipn (length h') t))
      /\ (Forall Piece tl -> Forall Piece tl').
Proof.
  intros Hb.
  apply (replaceAll_ind (Group 1 b) lineBreakThenGroup1
           (fun t out =>
              forall h tl, split LF t = h :: tl ->
                exists h' tl' z,
                  split LF out = h' :: tl' /\ h = h' ++ z
                  /\ (z = [] \/ matchesAt b (skipn (length h') t))
                  /\ (Forall Piece tl -> Forall Piece tl'))).
  - intros m L. apply (marker_nonempty b m Hb L).
  - intros h tl [= <- <-]. exists [], [], []. simpl. auto.
  - intros c s out _ IH h tl E.
    destruct (split_nonempty s) as (h0 & tl0 & E0).
    destruct (IH h0 tl0 E0) as (h0' & tl0' & z & Eo & Eh & Hz & Hall).
    destruct (N.eqb_spec c LF) as [->|Hc].
    + rewrite split_LF, E0 in E. injection E as <- <-.
      exists [], (h0' :: tl0'), []. rewrite split_LF, Eo.
      split; [reflexivity|]. split; [reflexivity|]. split; [left; reflexivity|].
      intros Hp. apply Forall_cons in Hp. destruct Hp as [Hp0 Hptl].
      apply Forall_cons. split; [|apply Hall, Hptl].
      destruct (split_first_prefix s h0 tl0 E0) as [w Ew].
      apply (piece_cut b h0 h0' z w Hb Hp0 Eh).
      rewrite <- Ew. exact Hz.
    + rewrite (split_other c s h0 tl0 Hc E0) in E. injection E as <- <-.
      exists (c :: h0'), tl0', z.
      rewrite (split_other c out h0' tl0' Hc Eo).
      split; [reflexivity|]. split; [simpl; congruence|].
      split; [exact Hz | exact Hall].
  - intros m rest caps out L Hin IH h tl E.
    rewrite (lineBreak_of_group b m rest caps Hin).
    pose proof (marker_noLF b m Hb L) as Hm.
    destruct (split_nonempty rest) as (h0 & tl0 & E0).
    destruct (IH h0 tl0 E0) as (h0' & tl0' & z & Eo & Eh & Hz & Hall).
    rewrite (split_app_noLF m rest h0 tl0 Hm E0) in E. injection E as <- <-.
    exists [], ((m ++ h0') :: tl0'), (m ++ h0).
    change ((LF :: m) ++ out) with (LF :: (m ++ out)).
    rewrite split_LF, (split_app_noLF m out h0' tl0' Hm Eo).
    split; [reflexivity|]. split; [reflexivity|].
    split; [right; exists m, rest; auto|].
    intros Hp. apply Forall_cons. split; [|apply Hall, Hp].
    right. exists b. split; [exact Hb|]. exists m, h0'. auto.
Qed.

Lemma insertBreaks_keeps_pieces (b : regex) (t : list N) :
  In b bodies ->
  Forall Piece (split LF t) ->
  Forall Piece (split LF (replaceAll (Group 1 b) lineBreakThenGroup1 t)).
Proof.
  intros Hb Hp. destruct (split_nonempty t) as (h & tl & E).
  destruct (insertBreaks_pieces b t Hb h tl E)
    as (h' & tl' & z & Eo & Eh & Hz & Hall).
  rewrite E in Hp. apply Forall_cons in Hp. destruct Hp as [Hp0 Hptl].
  rewrite Eo. apply Forall_cons. split; [|apply Hall, Hptl].
  destruct (split_first_prefix t h tl E) as [w Ew].
  apply (piece_cut b h h' z w Hb Hp0 Eh). rewrite <- Ew. exact Hz.
Qed.

Lemma formatTaf_pieces (tafBlock : list N) :
  noLF tafBlock -> Piece tafBlock ->
  Forall Piece (split LF (formatTaf tafBlock)).
Proof.
  intros Hn Hp. unfold formatTaf, probRe, tempoRe, becmgRe, fmRe.
  apply insertBreaks_keeps_pieces; [simpl; auto|].
  apply insertBreaks_keeps_pieces; [simpl; auto|].
  apply insertBreaks_keeps_pieces; [simpl; auto|].
  apply insertBreaks_keeps_pieces; [simpl; auto|].
  rewrite (split_noLF _ Hn). constructor; [exact Hp | constructor].
Qed.

(** ** Steps 2 and 3: the block is a piece *)

Lemma substring_from_0 (t : list N) (e : nat) : substring t 0 e = firstn e t.
Proof.
  unfold substring. rewrite Nat.min_0_l, Nat.max_0_l, Nat.sub_0_r.
  reflexivity.
Qed.

Lemma indexOf_found (s p : list N) (i : nat) :
  indexOf s p 0 = Some i -> exists rest, skipn i s = p ++ rest.
Proof.
  unfold indexOf. rewrite Nat.min_0_l. change (skipn 0 s) with s.
  intros H. apply indexOfAux_some in H. destruct H as (k & -> & _ & H).
  apply startsWith_iff in H. exact H.
Qed.

Lemma indexOf_from_10 (t mk : list N) (e : nat) :
  mk <> [] -> indexOf t mk 10 = Some e ->
  10 <= e /\ startsWith (skipn e t) mk = true.
Proof.
  intros Hmk H. unfold indexOf in H. apply indexOfAux_some in H.
  destruct H as (k & -> & Hk & H).
  destruct (Nat.le_gt_cases 10 (length t)) as [Hge|Hlt].
  - rewrite Nat.min_l in * by exact Hge.
    split; [lia|]. rewrite drop_drop in H. exact H.
  - rewrite Nat.min_r in * by lia.
    rewrite skipn_all in H. rewrite skipn_nil in H.
    destruct mk; [congruence | discriminate].
Qed.

Lemma findEndIndex_cases (t : list N) :
  findEndIndex t = length t
  \/ exists mk, In mk stopMarkers /\ indexOf t mk 10 = Some (findEndIndex t).
Proof.
  unfold findEndIndex. generalize stopMarkers as l.
  assert (H : forall l acc,
             let e := fold_left
                        (fun endIndex m =>
                           match indexOf t m 10 with
                           | Some idx => if Nat.ltb idx endIndex then idx else endIndex
                           | None => endIndex
                           end) l acc in
             e = acc \/ exists mk, In mk l /\ indexOf t mk 10 = Some e).
  { induction l as [|mk l IH]; intros acc; simpl; [left; reflexivity|].
    destruct (indexOf t mk 10) as [idx|] eqn:E.
    - destruct (Nat.ltb idx acc).
      + destruct (IH idx) as [->|(mk' & Hin & H)].
        * right. exists mk. auto.
        * right. exists mk'. auto.
      + destruct (IH acc) as [->|(mk' & Hin & H)].
        * left. reflexivity.
        * right. exists mk'. auto.
    - destruct (IH acc) as [->|(mk' & Hin & H)].
      + left. reflexivity.
      + right. exists mk'. auto. }
  intros l. apply H.
Qed.

Lemma Inert_firstn_TA (e : nat) (r : list N) :
  Inert (firstn e (84 :: 65 :: r)%N).
Proof. destruct e as [|[|e]]; simpl; auto. Qed.

Lemma firstn_marker (m rest : list N) (e : nat) :
  length m <= e -> firstn e (m ++ rest) = m ++ firstn (e - length m) rest.
Proof.
  intros H. rewrite firstn_app. f_equal. apply firstn_all2, H.
Qed.

Lemma startsWith_cons (c d : N) (p s : list N) :
  startsWith (d :: s) (c :: p) = N.eqb c d && startsWith s p.
Proof. reflexivity. Qed.

(** No stop marker begins inside a [BECMG] marker at offsets 10 to 14. *)
Lemma stop_not_in_becmg (m rest : list N) (e : nat) :
  becmgShape m ->
  (exists mk, In mk stopMarkers /\ indexOf (m ++ rest) mk 10 = Some e) ->
  length m <= e.
Proof.
  intros L (mk & Hmk & H).
  apply indexOf_from_10 in H;
    [|destruct Hmk as [<-|[<-|[<-|[<-|[]]]]]; discriminate].
  destruct H as [Hge Hs].
  destruct (Nat.le_gt_cases (length m) e) as [Hle|Hgt]; [exact Hle|exfalso].
  destruct L as (v & -> & a & b & -> & Ha & Hb).
  explode_run Ha. explode_run Hb. norm_str. simpl app in *. simpl in Hgt.
  do 10 (destruct e as [|e]; [lia|]).
  destruct Hmk as [<-|[<-|[<-|[<-|[]]]]]; norm_str;
    repeat (destruct e as [|e];
            [ cbn [skipn] in Hs; rewrite startsWith_cons in Hs;
              apply andb_prop in Hs; destruct Hs as [Hs _];
              apply N.eqb_eq in Hs; subst;
              first [discriminate | closed_digit]
            | try lia ]).
Qed.

Lemma tafBlock_piece (cleanText code : list N) (tafStart : nat) :
  findTafStart cleanText code = Some tafStart ->
  Piece (substring (substringFrom cleanText tafStart) 0
           (findEndIndex (substringFrom cleanText tafStart))).
Proof.
  unfold findTafStart, substringFrom. rewrite substring_from_0.
  destruct (indexOf cleanText (str "TAF: " ++ code) 0) as [i|] eqn:E1.
  { intros [= <-]. apply indexOf_found in E1. destruct E1 as [rest ->].
    left. apply Inert_firstn_TA. }
  destruct (indexOf cleanText (str "TAF " ++ code) 0) as [i|] eqn:E2.
  { intros [= <-]. apply indexOf_found in E2. destruct E2 as [rest ->].
    left. apply Inert_firstn_TA. }
  destruct (exec firstGroupRe cleanText) as [res|] eqn:E3; [|discriminate].
  intros [= <-]. unfold exec in E3. apply execFrom_some in E3.
  destruct E3 as (k & _ & -> & Hm & _). simpl.
  assert (M : matchesAt firstGroupRe (skipn k cleanText)).
  { destruct (matchAt_none firstGroupRe (skipn k cleanText) k) as [_ Hn].
    destruct (ms firstGroupRe (skipn k cleanText) []) as [|[r0 c0] l] eqn:Em.
    - unfold matchAt in Hm. rewrite Em in Hm. discriminate.
    - destruct (ms_sound _ _ _ r0 c0 ltac:(rewrite Em; left; reflexivity))
        as (m0 & E0 & L0). exists m0, r0. auto. }
  destruct M as (m & rest & -> & L). right.
  set (e := findEndIndex (m ++ rest)).
  assert (Hlen : length m <= e).
  { simpl in L. destruct L as [L|L].
    - apply lang_fm in L.
      destruct (findEndIndex_cases (m ++ rest)) as [He|(mk & Hmk & H)].
      + fold e in He. rewrite He, length_app. lia.
      + fold e in H. apply indexOf_from_10 in H;
          [|destruct Hmk as [<-|[<-|[<-|[<-|[]]]]]; discriminate].
        destruct L as (ds & -> & [_ Hl]). rewrite length_app, Hl.
        simpl. lia.
    - apply lang_becmg in L.
      destruct (findEndIndex_cases (m ++ rest)) as [He|H].
      + fold e in He. rewrite He, length_app. lia.
      + fold e in H. apply (stop_not_in_becmg m rest e L H). }
  rewrite (firstn_marker m rest e Hlen).
  simpl in L. destruct L as [L|L].
  - exists fmBody. split; [simpl; auto|]. eexists _, _. eauto.
  - exists becmgBody. split; [simpl; auto|]. eexists _, _. eauto.
Qed.

(** ** Trimming *)

Lemma trimStart_keep (c : N) (s : list N) :
  isSpace c = false -> trimStart (c :: s) = c :: s.
Proof. intros H. simpl. rewrite H. reflexivity. Qed.

Lemma trimStart_head (s : list N) (c : N) (r : list N) :
  trimStart s = c :: r -> isSpace c = false.
Proof.
  induction s as [|d s IH]; simpl; [discriminate|].
  destruct (isSpace d) eqn:E; [exact IH|]. intros [= <- _]. exact E.
Qed.

Lemma trimStart_idem (s : list N) : trimStart (trimStart s) = trimStart s.
Proof.
  destruct (trimStart s) as [|c r] eqn:E; [reflexivity|].
  apply trimStart_keep, (trimStart_head s c r E).
Qed.

Lemma trimStart_suffix (s : list N) : exists y, s = y ++ trimStart s.
Proof.
  induction s as [|c s (y & IH)]; [exists []; reflexivity|].
  simpl. destruct (isSpace c).
  - exists (c :: y). simpl. congruence.
  - exists []. reflexivity.
Qed.

Lemma trimStart_app_keep (a : list N) (c : N) (b : list N) :
  isSpace c = false -> trimStart (a ++ c :: b) = trimStart a ++ c :: b.
Proof.
  intros H. induction a as [|d a IH]; simpl.
  - rewrite H. reflexivity.
  - destruct (isSpace d); [exact IH | reflexivity].
Qed.

Lemma trimEnd_prefix (s : list N) : exists z, s = trimEnd s ++ z.
Proof.
  unfold trimEnd. destruct (trimStart_suffix (rev s)) as [y E].
  exists (rev y). rewrite <- rev_app_distr, <- E, rev_involutive.
  reflexivity.
Qed.

Lemma trimEnd_idem (s : list N) : trimEnd (trimEnd s) = trimEnd s.
Proof. unfold trimEnd. rewrite rev_involutive, trimStart_idem. reflexivity. Qed.

Lemma trimEnd_app_keep (m r : list N) :
  m <> [] -> isSpace (List.last m 0%N) = false ->
  trimEnd (m ++ r) = m ++ trimEnd r.
Proof.
  intros Hne Hl. destruct (exists_last Hne) as (m0 & c & ->).
  rewrite last_last in Hl. unfold trimEnd.
  rewrite <- app_assoc. simpl app. rewrite rev_app_distr. simpl rev.
  rewrite <- app_assoc. simpl app.
  rewrite (trimStart_app_keep (rev r) c (rev m0) Hl).
  rewrite rev_app_distr. simpl rev. rewrite rev_involutive, <- app_assoc.
  reflexivity.
Qed.

Lemma trim_idem (s : list N) : trim (trim s) = trim s.
Proof.
  unfold trim.
  assert (E : trimStart (trimEnd (trimStart s)) = trimEnd (trimStart s)).
  { destruct (trimEnd_prefix (trimStart s)) as [z Ez].
    destruct (trimEnd (trimStart s)) as [|c t] eqn:Et; [reflexivity|].
    apply trimStart_keep. simpl in Ez. eapply trimStart_head, Ez. }
  rewrite E. apply trimEnd_idem.
Qed.

Lemma marker_ends (b : regex) (m : list N) :
  In b bodies -> lang b m ->
  (exists c m', m = c :: m' /\ isSpace c = false)
  /\ isSpace (List.last m 0%N) = false.
Proof.
  intros Hin L. marker_cases Hin L;
    (split; [eexists _, _; split; reflexivity|]);
    simpl List.last; apply isDigit_not_space; assumption.
Qed.

Lemma trim_marked (b : regex) (m r : list N) :
  In b bodies -> lang b m -> trim (m ++ r) = m ++ trimEnd r.
Proof.
  intros Hin L. destruct (marker_ends b m Hin L) as [(c & m' & -> & Hc) Hl].
  unfold trim. simpl app. rewrite (trimStart_keep c _ Hc).
  apply (trimEnd_app_keep (c :: m') r); [discriminate | exact Hl].
Qed.

Lemma trim_inert (p : list N) : Inert p -> Inert (trim p).
Proof.
  intros H. unfold trim.
  assert (E : trimStart p = p).
  { destruct p as [|c p]; [reflexivity|]. apply trimStart_keep.
    destruct p; simpl in H; [subst c | destruct H as [-> _]]; reflexivity. }
  rewrite E. destruct (trimEnd_prefix p) as [z Ez].
  rewrite Ez in H. eapply Inert_prefix, H.
Qed.

(** ** Step 5: the entry of a line *)

Lemma two_digits (a b : N) :
  isDigit a = true -> isDigit b = true ->
  parseInt [a; b] = Int (digitsValue [a; b])
  /\ (0 <= digitsValue [a; b] <= 99)%Z.
Proof.
  intros Ha Hb.
  assert (H : allDigits [a; b]) by (repeat constructor; assumption).
  split; [apply parseInt_digits; [exact H | discriminate]|].
  pose proof (digitsValue_bound [a; b] H) as Hv. simpl length in Hv.
  change (10 ^ Z.of_nat 2)%Z with 100%Z in Hv. lia.
Qed.

Lemma raw_toEntry (line : list N) (idx : nat) : raw (toEntry line idx) = line.
Proof.
  unfold toEntry. destruct (startsWith _ _); [reflexivity|].
  destruct (startsWith _ _); [reflexivity|].
  destruct (startsWith _ _); [reflexivity|].
  destruct (_ || _); reflexivity.
Qed.

Lemma gust_toEntry (line : list N) (idx : nat) :
  gust (toEntry line idx) = extractGust line.
Proof.
  unfold toEntry. destruct (startsWith _ _); [reflexivity|].
  destruct (startsWith _ _); [reflexivity|].
  destruct (startsWith _ _); [reflexivity|].
  destruct (_ || _); reflexivity.
Qed.

Lemma twoDigitsAt_intro (line : list N) (offset : nat) (a b : N) :
  substring line offset (offset + 2) = [a; b] ->
  isDigit a = true -> isDigit b = true ->
  twoDigitsAt line offset (Some (parseInt (substring line offset (offset + 2)))).
Proof.
  intros E Ha Hb. exists a, b. rewrite E.
  destruct (two_digits a b Ha Hb) as [Ep Hv]. rewrite Ep. auto.
Qed.

Ltac two_digits_at :=
  eapply twoDigitsAt_intro; [reflexivity | assumption | assumption].

Lemma entry_of_marked (p : list N) (idx : nat) :
  Marked p -> dayHourShape (toEntry (trim p) idx).
Proof.
  intros (b & Hin & m & r & -> & L).
  rewrite (trim_marked b m r Hin L). generalize (trimEnd r) as r'. intros r'.
  unfold dayHourShape. rewrite !raw_toEntry. marker_cases Hin L.
  - left. split; [reflexivity|]. split; two_digits_at.
  - right. left. split; [right; reflexivity|]. split; two_digits_at.
  - right. left. split; [left; reflexivity|]. split; two_digits_at.
  - right. right.
    unfold toEntry.
    change (startsWith _ (str "FM")) with false.
    change (startsWith _ (str "TEMPO")) with false.
    change (startsWith _ (str "BECMG")) with false.
    change (startsWith _ (str "TAF")) with false.
    destruct (Nat.eqb idx 0); simpl; auto.
Qed.

Lemma entry_of_inert (line : list N) (idx : nat) :
  Inert line -> 5 < length line -> dayHourShape (toEntry line idx).
Proof.
  intros H Hl. destruct line as [|c1 [|c2 line]]; simpl in Hl; try lia.
  destruct H as [-> ->]. unfold dayHourShape. right. right.
  unfold toEntry.
  change (startsWith _ (str "FM")) with false.
  change (startsWith _ (str "TEMPO")) with false.
  change (startsWith _ (str "BECMG")) with false.
  destruct (startsWith _ (str "TAF") || Nat.eqb idx 0); simpl; auto.
Qed.

Lemma entry_of_piece (p : list N) (idx : nat) :
  Piece p -> 5 < length (trim p) -> dayHourShape (toEntry (trim p) idx).
Proof.
  intros [H|H] Hl.
  - apply entry_of_inert; [apply trim_inert, H | exact Hl].
  - apply entry_of_marked, H.
Qed.

Lemma in_mapFrom {A B} (f : A -> nat -> B) (l : list A) :
  forall i y, In y (mapFrom f l i) -> exists x j, In x l /\ y = f x j.
Proof.
  induction l as [|x l IH]; intros i y H; simpl in H; [destruct H|].
  destruct H as [<-|H].
  - exists x, i. split; [left; reflexivity | reflexivity].
  - destruct (IH _ _ H) as (x' & j & Hin & ->). exists x', j.
    split; [right; exact Hin | reflexivity].
Qed.

(** Every entry of [parseTaf] comes from a trimmed piece of more than five
    characters. *)
Lemma parseTaf_entry_origin (rawHtml code : list N) (e : TafEntry) :
  In e (parseTaf rawHtml code) ->
  exists p idx, Piece p /\ 5 < length (trim p) /\ e = toEntry (trim p) idx.
Proof.
  unfold parseTaf.
  destruct (findTafStart (cleanHtml rawHtml) code) as [tafStart|] eqn:Es;
    [|intros []].
  intros H. apply in_mapFrom in H. destruct H as (line & idx & Hin & ->).
  unfold tafLines in Hin. apply filter_In in Hin. destruct Hin as [Hin Hlen].
  apply in_map_iff in Hin. destruct Hin as (p & <- & Hp).
  exists p, idx. split; [|split; [apply Nat.ltb_lt, Hlen | reflexivity]].
  assert (Hall : Forall Piece
                   (split LF (formatTaf
                      (substring (substringFrom (cleanHtml rawHtml) tafStart) 0
                         (findEndIndex
                            (substringFrom (cleanHtml rawHtml) tafStart)))))).
  { apply formatTaf_pieces.
    - rewrite substring_from_0. apply noLF_firstn. unfold substringFrom.
      apply noLF_skipn, cleanHtml_noLF.
    - apply (tafBlock_piece _ code), Es. }
  rewrite List.Forall_forall in Hall. apply Hall, Hp.
Qed.

Lemma parseTaf_entry_shape (rawHtml code : list N) (e : TafEntry) :
  In e (parseTaf rawHtml code) ->
  trim (raw e) = raw e /\ 5 < length (raw e)
  /\ gust e = extractGust (raw e) /\ dayHourShape e.
Proof.
  intros H. apply parseTaf_entry_origin in H.
  destruct H as (p & idx & Hp & Hl & ->).
  rewrite raw_toEntry, gust_toEntry. split; [apply trim_idem|]. split; [exact Hl|].
  split; [reflexivity|]. apply entry_of_piece; assumption.
Qed.

(** ** The claims about the parser *)

(** The gust of an entry is absent or an integer. *)
Lemma extractGust_number (text : list N) :
  extractGust text = None \/ exists z, extractGust text = Some (Int z).
Proof.
  destruct (extractGust text) as [v|] eqn:E; [right | left; reflexivity].
  apply extractGust_some in E. destruct E as (_ & g & _ & _ & ->). eauto.
Qed.

Lemma twoDigitsAt_number (line : list N) (offset : nat) (v : option jsint) :
  twoDigitsAt line offset v -> exists z, v = Some (Int z) /\ (0 <= z <= 99)%Z.
Proof. intros (a & b & _ & _ & _ & -> & Hv). eauto. Qed.

(** C10.  Every entry of [parseTaf] has a trimmed text of more than five
    characters; an FM entry has day and hour read from two digits each at
    offsets 2 and 4 of its text, a TEMPO or BECMG entry at offsets 6 and 8,
    so both are integers from 0 to 99; a HEADER or BASE entry has neither
    day nor hour. *)
Theorem parseTaf_entry_invariant (rawHtml code : list N) (e : TafEntry) :
  In e (parseTaf rawHtml code) ->
  trim (raw e) = raw e
  /\ 5 < length (raw e)
  /\ ((type e = FM
       /\ twoDigitsAt (raw e) 2 (day e) /\ twoDigitsAt (raw e) 4 (hour e))
      \/ ((type e = TEMPO \/ type e = BECMG)
          /\ twoDigitsAt (raw e) 6 (day e) /\ twoDigitsAt (raw e) 8 (hour e))
      \/ ((type e = HEADER \/ type e = BASE)
          /\ day e = None /\ hour e = None)).
Proof.
  intros H. apply parseTaf_entry_shape in H.
  destruct H as (Ht & Hl & _ & Hs). auto.
Qed.

(** C8.  [parseTaf] is total, and in every entry it produces each of day,
    hour and gust is either absent or an integer: no field holds the NaN of
    a failed [parseInt]. *)
Theorem parseTaf_fields_defined (rawHtml code : list N) (e : TafEntry) :
  In e (parseTaf rawHtml code) ->
  (day e = None \/ exists d, day e = Some (Int d))
  /\ (hour e = None \/ exists h, hour e = Some (Int h))
  /\ (gust e = None \/ exists g, gust e = Some (Int g)).
Proof.
  intros H. apply parseTaf_entry_shape in H.
  destruct H as (_ & _ & Hg & Hs). split; [|split].
  - destruct Hs as [(_ & Hd & _)|[(_ & Hd & _)|(_ & Hd & _)]];
      [right | right | left; exact Hd];
      apply twoDigitsAt_number in Hd; destruct Hd as (z & -> & _); eauto.
  - destruct Hs as [(_ & _ & Hh)|[(_ & _ & Hh)|(_ & _ & Hh)]];
      [right | right | left; exact Hh];
      apply twoDigitsAt_number in Hh; destruct Hh as (z & -> & _); eauto.
  - rewrite Hg. apply extractGust_number.
Qed.

(** The callback alone would store NaN for a line that begins with FM and
    has no digits; no such line reaches it. *)
Example toEntry_without_digits :
  day (toEntry (str "FMxx yyyy") 1) = Some NaN.
Proof. vm_compute. reflexivity. Qed.

Lemma replaceGo_match_hd (r : regex) (f : MatchResult -> list N)
  (m rest : list N) (caps : captures) :
  hd_error (ms r (m ++ rest) []) = Some (rest, caps) -> m <> [] ->
  replaceGo r f (m ++ rest) 0 = f (mkMatch 0 m caps) ++ replaceGo r f rest 0.
Proof.
  intros H Hm. destruct (ms r (m ++ rest) []) as [|x others] eqn:E;
    [discriminate|].
  injection H as ->. apply (replaceGo_match r f m rest caps others E Hm).
Qed.

(** One step of a replacement over a text that ends in an unknown [tail]:
    the decision at the current character is taken on the known part. *)
Ltac step_replace tail :=
  lazymatch goal with
  | |- context [replaceGo ?r ?f (?c :: ?s) 0] =>
      first
        [ rewrite (replaceGo_nomatch r f c s) by (vm_compute; reflexivity)
        | let p := eval pattern tail in (c :: s) in
          lazymatch p with
          | ?F _ =>
              let closed := eval vm_compute in (ms r (F []) []) in
              lazymatch closed with
              | (?rest0, ?caps) :: _ =>
                  let m := eval vm_compute in
                    (firstn (length (F []) - length rest0) (F [])) in
                  let R := eval vm_compute in (skipn (length m) (c :: s)) in
                  change (c :: s) with (m ++ R);
                  rewrite (replaceGo_match_hd r f m R caps)
                    by (vm_compute; first [reflexivity | discriminate]);
                  cbn [app withSpace]
              end
          end ]
  end.

Lemma stripTags_example (tail : list N) :
  replaceAll tagRe withSpace (specPrefix ++ tail)
  = str " TAF: KMIE  121130Z 1212/1312 18012KT FM121800 20015G22KT BECMG 1300/1302 22010KT METAR"
    ++ replaceAll tagRe withSpace tail.
Proof.
  unfold replaceAll.
  let v := eval vm_compute in specPrefix in change specPrefix with v.
  cbn [app]. repeat step_replace tail. reflexivity.
Qed.

Lemma collapseSpaces_example (tail : list N) :
  replaceAll spacesRe withSpace
    (str " TAF: KMIE  121130Z 1212/1312 18012KT FM121800 20015G22KT BECMG 1300/1302 22010KT METAR"
     ++ tail)
  = str " TAF: KMIE 121130Z 1212/1312 18012KT FM121800 20015G22KT BECMG 1300/1302 22010KT METAR"
    ++ replaceAll spacesRe withSpace tail.
Proof.
  unfold replaceAll.
  match goal with
  | |- context [str ?x ++ tail] =>
      let v := eval vm_compute in (str x) in change (str x) with v
  end.
  cbn [app]. repeat step_replace tail. reflexivity.
Qed.

(** The cleaned text of the example, whatever follows METAR. *)
Lemma cleanHtml_example (tail : list N) :
  cleanHtml (specPrefix ++ tail)
  = str " TAF: KMIE 121130Z 1212/1312 18012KT FM121800 20015G22KT BECMG 1300/1302 22010KT METAR"
    ++ cleanHtml tail.
Proof.
  unfold cleanHtml. rewrite stripTags_example. apply collapseSpaces_example.
Qed.

Lemma indexOfAux_skip (p : list N) (c : N) (s : list N) (i : nat) :
  startsWith (c :: s) p = false ->
  indexOfAux p (c :: s) i = indexOfAux p s (S i).
Proof. intros H. rewrite indexOfAux_eq, H. reflexivity. Qed.

Lemma indexOfAux_ge (p s : list N) (i j : nat) :
  indexOfAux p s i = Some j -> i <= j.
Proof.
  intros H. apply indexOfAux_some in H. destruct H as (k & -> & _). lia.
Qed.

(** A stop marker that does not occur before offset [k] leaves an earlier
    end index alone. *)
Lemma later_marker_ignored (found : option nat) (k endIndex : nat) :
  (forall j, found = Some j -> k <= j) -> endIndex <= k ->
  match found with
  | Some idx => if Nat.ltb idx endIndex then idx else endIndex
  | None => endIndex
  end = endIndex.
Proof.
  intros H Hk. destruct found as [idx|]; [|reflexivity].
  specialize (H idx eq_refl).
  destruct (Nat.ltb_spec idx endIndex); [lia | reflexivity].
Qed.

Ltac scan_marker :=
  unfold indexOf; cbn [length app Nat.min skipn];
  repeat (rewrite indexOfAux_skip by (vm_compute; reflexivity));
  apply indexOfAux_ge.

(** The entries of the example do not depend on what follows METAR. *)
Lemma parseTaf_example_any_tail (tail : list N) :
  parseTaf (specPrefix ++ tail) (str "KMIE") = specEntries.
Proof.
  unfold parseTaf. rewrite cleanHtml_example.
  generalize (cleanHtml tail) as t. intros t.
  replace (findTafStart _ _) with (Some 1) by (vm_compute; reflexivity).
  cbv beta iota zeta.
  let b := eval vm_compute in
    (substringFrom
       (str " TAF: KMIE 121130Z 1212/1312 18012KT FM121800 20015G22KT BECMG 1300/1302 22010KT METAR" ++ t) 1) in
  change (substringFrom _ 1) with b.
  match goal with
  | |- context [findEndIndex ?b] =>
      assert (E : findEndIndex b = 80)
  end.
  { unfold findEndIndex, stopMarkers. cbn [fold_left].
    match goal with
    | |- context [indexOf ?b (str "METAR") 10] =>
        replace (indexOf b (str "METAR") 10) with (Some 80)
          by (vm_compute; reflexivity)
    end.
    cbv beta iota.
    replace (Nat.ltb 80 _) with true by (vm_compute; reflexivity).
    rewrite (later_marker_ignored _ 85 80); [|intros j; scan_marker | lia].
    rewrite (later_marker_ignored _ 85 80); [|intros j; scan_marker | lia].
    rewrite (later_marker_ignored _ 85 80); [|intros j; scan_marker | lia].
    reflexivity. }
  rewrite E. vm_compute. reflexivity.
Qed.

(** C5.  The example of the specification yields, in order, a HEADER with
    the initial group, the FM group of day 12, 18:00 with gust 22, and the
    BECMG group of day 13, 00:00 without gust.  The same three entries come
    out whatever text follows METAR, and none of them contains METAR. *)
Theorem parseTaf_example :
  specExample
  = str "<b>TAF: KMIE</b> 121130Z 1212/1312 18012KT FM121800 20015G22KT BECMG 1300/1302 22010KT METAR ..."
  /\ parseTaf specExample (str "KMIE")
     = [ mkTaf (str "TAF: KMIE 121130Z 1212/1312 18012KT") None HEADER
           None None;
         mkTaf (str "FM121800 20015G22KT") (Some (Int 22)) FM
           (Some (Int 12)) (Some (Int 18));
         mkTaf (str "BECMG 1300/1302 22010KT") None BECMG
           (Some (Int 13)) (Some (Int 0)) ]
  /\ (forall tail,
        parseTaf (specPrefix ++ tail) (str "KMIE")
        = parseTaf specExample (str "KMIE"))
  /\ forall e, In e (parseTaf specExample (str "KMIE")) ->
       includes (raw e) (str "METAR") = false.
Proof.
  split; [vm_compute; reflexivity|].
  split; [apply (parseTaf_example_any_tail (str " ..."))|].
  split.
  - intros tail. unfold specExample.
    rewrite !parseTaf_example_any_tail. reflexivity.
  - intros e H. unfold specExample in H.
    rewrite parseTaf_example_any_tail in H.
    destruct H as [<-|[<-|[<-|[]]]]; vm_compute; reflexivity.
Qed.

(** ** The statements at concrete inputs *)

Lemma extractGust_spec_witness :
  extractGust (str "METAR KMIE 121654Z 18015G25KT 10SM FEW050") = Some (Int 25).
Proof.
  destruct (extractGust_spec (str "METAR KMIE 121654Z 18015G25KT 10SM FEW050"))
    as (_ & Hleft & _).
  apply (Hleft 19 (str "25")).
  - exists (str "18015G25KT"), (str " 10SM FEW050").
    split; [vm_compute; lia|]. split; [vm_compute; reflexivity|].
    exists (str "180"), (str "15"). split; [reflexivity|].
    split; [left; split; [repeat constructor | reflexivity]|].
    split; (split; [repeat constructor | simpl; lia]).
  - intros j g' Hj G.
    assert (M : matchesAt gustRe
                  (skipn j (str "METAR KMIE 121654Z 18015G25KT 10SM FEW050"))).
    { apply gustAt_matchesAt; [simpl; lia | eauto]. }
    apply (ms_nil_iff gustRe _ []) in M; [exact M|].
    do 19 (destruct j as [|j]; [vm_compute; reflexivity|]). lia.
Defined.

Lemma no_group_found (s : list N) :
  exec firstGroupRe s = None ->
  ~ (exists pre m post, s = pre ++ m ++ post /\ (fmShape m \/ becmgShape m)).
Proof.
  intros E (pre & m & post & Es & H). apply exec_none in E. apply E.
  exists pre, m, post. split; [exact Es|]. simpl.
  destruct H as [H|H]; [left; apply lang_fm, H | right; apply lang_becmg, H].
Qed.

(** A page with a METAR and no forecast gives no entry. *)
Lemma parseTaf_without_marker_witness :
  parseTaf noForecastPage (str "KMIE") = [].
Proof.
  apply parseTaf_without_marker.
  - apply indexOf_none. vm_compute. reflexivity.
  - apply indexOf_none. vm_compute. reflexivity.
  - apply no_group_found. vm_compute. reflexivity.
Defined.

Lemma parseTaf_entry_invariant_witness :
  twoDigitsAt (str "FM121800 20015G22KT") 2 (Some (Int 12))
  /\ twoDigitsAt (str "FM121800 20015G22KT") 4 (Some (Int 18)).
Proof.
  destruct (parseTaf_entry_invariant specExample (str "KMIE")
              (mkTaf (str "FM121800 20015G22KT") (Some (Int 22)) FM
                 (Some (Int 12)) (Some (Int 18))))
    as (_ & _ & [H|[H|H]]).
  - vm_compute. right. left. reflexivity.
  - destruct H as (_ & Hd & Hh). split; assumption.
  - destruct H as ([H|H] & _); discriminate H.
  - destruct H as ([H|H] & _); discriminate H.
Defined.

Lemma parseTaf_fields_defined_witness :
  exists g, gust (mkTaf (str "FM121800 20015G22KT") (Some (Int 22)) FM
                    (Some (Int 12)) (Some (Int 18))) = Some (Int g).
Proof.
  destruct (parseTaf_fields_defined specExample (str "KMIE")
              (mkTaf (str "FM121800 20015G22KT") (Some (Int 22)) FM
                 (Some (Int 12)) (Some (Int 18))))
    as (_ & _ & [H|H]).
  - vm_compute. right. left. reflexivity.
  - discriminate H.
  - exact H.
Defined.

End WeatherFacts.

(* ================================================================== *)
(** * Properties of the interpolation                                  *)
(* ================================================================== *)

Module CalcFacts.
Import Calc.


Lemma last_cons_cons {A} (a b : A) (l : list A) (d : A) :
  List.last (a :: b :: l) d = List.last (b :: l) a.
Proof.
  revert a b d. induction l as [|c l IH]; intros a b d; [reflexivity|].
  change (List.last (b :: c :: l) d = List.last (b :: c :: l) a).
  rewrite !(IH b c). reflexivity.
Qed.

Lemma last_app_cons {A} (pre : list A) (x d : A) (post : list A) :
  List.last (pre ++ x :: post) d = List.last (x :: post) x.
Proof.
  revert d. induction pre as [|a pre IH]; intros d.
  - simpl app. destruct post as [|b post]; [reflexivity|].
    rewrite !last_cons_cons. reflexivity.
  - simpl app. specialize (IH a).
    destruct (pre ++ x :: post) as [|b l] eqn:E.
    + destruct pre; discriminate.
    + rewrite last_cons_cons. exact IH.
Qed.

Lemma sorted_split {A} (R : A -> A -> Prop) (pre : list A) (x : A)
  (post : list A) :
  StronglySorted R (pre ++ x :: post) ->
  Forall (fun a => R a x) pre /\ StronglySorted R (x :: post)
  /\ Forall (fun a => Forall (R a) post) pre.
Proof.
  induction pre as [|a pre IH]; simpl; intros H.
  - repeat split; [constructor | exact H | constructor].
  - inversion H as [|? ? Hs Hall]; subst.
    destruct (IH Hs) as (H1 & H2 & H3).
    rewrite Forall_app in Hall. destruct Hall as [_ Hall].
    inversion Hall; subst.
    repeat split; [constructor; assumption | assumption | constructor; assumption].
Qed.

(** Every sample weighs at least as much as the first and at most as much
    as the last. *)
Lemma ascending_first_last (first : ChartDataPoint) (rest : list ChartDataPoint) :
  ascending (first :: rest) ->
  lbs first <= lbs (List.last (first :: rest) first).
Proof.
  intros H. inversion H as [|? ? _ Hall]; subst.
  destruct rest as [|b rest]; [simpl; lra|].
  rewrite last_cons_cons.
  assert (Hin : In (List.last (b :: rest) first) (b :: rest)).
  { clear. revert b. induction rest as [|c rest IH]; intros b; [left; reflexivity|].
    rewrite last_cons_cons. right.
    destruct rest as [|e rest]; [left; reflexivity|].
    rewrite last_cons_cons. specialize (IH c). rewrite last_cons_cons in IH.
    exact IH. }
  rewrite List.Forall_forall in Hall. apply Hall, Hin.
Qed.









(** The clamped weight lies between the first and the last weight. *)
Lemma safeWeight_range (first : ChartDataPoint) (rest : list ChartDataPoint)
  (w : Q) :
  ascending (first :: rest) ->
  lbs first <= safeWeightOf first (first :: rest) w
  /\ safeWeightOf first (first :: rest) w
     <= lbs (List.last (first :: rest) first).
Proof.
  intros Hasc. pose proof (ascending_first_last _ _ Hasc) as Hfl.
  unfold safeWeightOf. split.
  - apply Q.le_max_l.
  - apply Q.max_lub; [exact Hfl | apply Q.le_min_l].
Qed.













(** ** The performance hook *)

Lemma interpolate_total (w : Q) (configKey : string)
  (data : list ChartDataPoint) :
  data <> [] -> is_Some (interpolate w configKey data).
Proof.
  intros Hne. destruct data as [|first rest]; [congruence|].
  unfold interpolate. destruct (bracketOf first (first :: rest) w) as [lower upper].
  destruct (Qeq_bool (lbs lower) (lbs upper)); eexists; reflexivity.
Qed.

Lemma forEachKey_snoc (f : string -> option Q) (cfgs : list SpeedConfig)
  (cfg : SpeedConfig) :
  forEachKey f (cfgs ++ [cfg])
  = match forEachKey f cfgs, f (key cfg) with
    | Some result, Some v => Some (<[key cfg := v]> result)
    | _, _ => None
    end.
Proof. unfold forEachKey. rewrite foldl_app. reflexivity. Qed.


Lemma forEachKey_total (f : string -> option Q) (cfgs : list SpeedConfig) :
  (forall cfg, In cfg cfgs -> is_Some (f (key cfg))) ->
  is_Some (forEachKey f cfgs).
Proof.
  induction cfgs as [|c cfgs IH] using rev_ind; intros Hall.
  - eexists. reflexivity.
  - rewrite forEachKey_snoc.
    destruct IH as [r0 ->]; [intros cfg Hin; apply Hall, in_or_app; left; exact Hin|].
    destruct (Hall c) as [v ->]; [apply in_or_app; right; left; reflexivity|].
    eexists. reflexivity.
Qed.


Lemma cleanKeyOf_some (cfgs : list SpeedConfig) :
  cfgs <> [] ->
  exists cfg, In cfg cfgs /\ cleanKeyOf cfgs = Some (key cfg).
Proof.
  intros Hne. destruct cfgs as [|c0 cfgs]; [congruence|].
  unfold cleanKeyOf.
  destruct (List.find _ (c0 :: cfgs)) as [c|] eqn:Ef.
  - apply List.find_some in Ef. destruct Ef as [Hin _].
    destruct (String.eqb (key c) ""); [exists c0 | exists c];
      (split; [|reflexivity]); [left; reflexivity | exact Hin].
  - exists c0. split; [left; reflexivity | reflexivity].
Qed.




(** ** The statements at the built-in profile and at tables with a
       repeated weight *)

Import Constants.












End CalcFacts.

(* ================================================================== *)
(** * Properties of the active-group selection                         *)
(* ================================================================== *)

Module ActiveFacts.
Import Active.
Local Open Scope Z_scope.

Lemma visit_started (now activeIndex : Z) (line : TafEntry) (idx : nat) :
  visit now activeIndex line idx
  = if started now idx line then Z.of_nat idx else activeIndex.
Proof.
  unfold visit, started, candidate.
  destruct (type line); simpl; try reflexivity.
  destruct (Nat.eqb idx 0); reflexivity.
Qed.

(** When no entry of the rest has started, the index is left as it is. *)
Lemma visitFrom_none (now : Z) (tafData : list TafEntry) :
  forall (activeIndex : Z) (idx : nat),
    (forall k line, nth_error tafData k = Some line ->
                    started now (idx + k) line = false) ->
    visitFrom now activeIndex tafData idx = activeIndex.
Proof.
  induction tafData as [|line rest IH]; intros activeIndex idx Hnone;
    [reflexivity|].
  simpl. rewrite visit_started.
  rewrite <- (Nat.add_0_r idx) at 1.
  rewrite (Hnone 0%nat line eq_refl).
  apply IH. intros k line' Hk.
  replace (S idx + k)%nat with (idx + S k)%nat by lia.
  apply Hnone. exact Hk.
Qed.

(** The loop ends with the index of the last entry that has started. *)
Lemma visitFrom_last (now : Z) (tafData : list TafEntry) :
  forall (activeIndex : Z) (idx k : nat) (line : TafEntry),
    nth_error tafData k = Some line ->
    started now (idx + k) line = true ->
    (forall k' line', (k < k')%nat -> nth_error tafData k' = Some line' ->
                      started now (idx + k') line' = false) ->
    visitFrom now activeIndex tafData idx = Z.of_nat (idx + k).
Proof.
  induction tafData as [|first rest IH]; intros activeIndex idx k line Hk Hs Hlast.
  - destruct k; discriminate.
  - simpl. destruct k as [|k].
    + injection Hk as ->. rewrite visit_started.
      rewrite Nat.add_0_r in Hs |- *. rewrite Hs.
      apply visitFrom_none. intros k' line' Hk'.
      replace (S idx + k')%nat with (idx + S k')%nat by lia.
      apply Hlast; [lia | exact Hk'].
    + replace (idx + S k)%nat with (S idx + k)%nat in * by lia.
      apply (IH _ _ _ line); [exact Hk | exact Hs |].
      intros k' line' Hlt Hk'.
      replace (S idx + k')%nat with (idx + S k')%nat by lia.
      apply Hlast; [lia | exact Hk'].
Qed.

(** Below any bound, either no entry has started or there is a last one
    that has. *)
Lemma last_started_below (tafData : list TafEntry) (now : Z) (n : nat) :
  (forall k line, (k < n)%nat -> nth_error tafData k = Some line ->
                  started now k line = false)
  \/ exists k line,
       (k < n)%nat /\ nth_error tafData k = Some line
       /\ started now k line = true
       /\ forall j line', (k < j < n)%nat ->
            nth_error tafData j = Some line' ->
            started now j line' = false.
Proof.
  induction n as [|n IHn].
  - left. intros k line Hk. lia.
  - assert (Hkeep :
      (forall line, nth_error tafData n = Some line ->
                    started now n line = false) ->
      (forall k line, (k < S n)%nat -> nth_error tafData k = Some line ->
                      started now k line = false)
      \/ exists k line,
           (k < S n)%nat /\ nth_error tafData k = Some line
           /\ started now k line = true
           /\ forall j line', (k < j < S n)%nat ->
                nth_error tafData j = Some line' ->
                started now j line' = false).
    { intros Hn. destruct IHn as [Hall|(k & l & Hk & Hnk & Hsk & Hrest)].
      - left. intros k l Hk Hnk.
        destruct (Nat.eq_dec k n) as [->|Hne];
          [apply Hn, Hnk | apply Hall; [lia | exact Hnk]].
      - right. exists k, l.
        split; [lia|]. split; [exact Hnk|]. split; [exact Hsk|].
        intros j line' Hj Hnj.
        destruct (Nat.eq_dec j n) as [->|Hne];
          [apply Hn, Hnj | apply Hrest; [lia | exact Hnj]]. }
    destruct (nth_error tafData n) as [line|] eqn:En.
    + destruct (started now n line) eqn:Es.
      * right. exists n, line.
        split; [lia|]. split; [exact En|]. split; [exact Es|].
        intros j line' Hj. lia.
      * apply Hkeep. intros l [= <-]. exact Es.
    + apply Hkeep. intros l Hl. discriminate Hl.
Qed.

(** The result is -1 when no candidate has started, and otherwise the index
    of the candidate that comes last in the sequence among those whose
    start time is not after [now]. *)
Lemma active_index_cases (tafData : list TafEntry) (now : Z) :
  (getActiveTafIndex tafData now = -1
   /\ forall i line, nth_error tafData i = Some line ->
                     started now i line = false)
  \/ exists i line,
       getActiveTafIndex tafData now = Z.of_nat i
       /\ nth_error tafData i = Some line
       /\ started now i line = true
       /\ forall j line', (i < j)%nat -> nth_error tafData j = Some line' ->
                          started now j line' = false.
Proof.
  destruct (last_started_below tafData now (length tafData))
    as [Hall|(k & line & Hk & Hnk & Hsk & Hrest)].
  - left.
    assert (H : forall i line, nth_error tafData i = Some line ->
                               started now i line = false).
    { intros j l Hj. apply (Hall j l); [|exact Hj].
      apply nth_error_Some. congruence. }
    split; [|exact H].
    destruct tafData as [|line rest]; [reflexivity|].
    unfold getActiveTafIndex. apply visitFrom_none. exact H.
  - right. exists k, line.
    assert (Hafter : forall j line', (k < j)%nat ->
                       nth_error tafData j = Some line' ->
                       started now j line' = false).
    { intros j l Hj Hnj. apply (Hrest j l); [|exact Hnj].
      split; [exact Hj|]. apply nth_error_Some. congruence. }
    split; [|split; [exact Hnk|split; [exact Hsk|exact Hafter]]].
    destruct tafData as [|first rest]; [destruct k; discriminate|].
    unfold getActiveTafIndex.
    apply (visitFrom_last now (first :: rest) (-1) 0%nat k line); assumption.
Qed.



(** The forecast with a PROB30 group after the FM group parses to a
    HEADER, the FM group of day 12, 18:00, and a BASE entry for PROB30. *)
Lemma probAfterFm_entries :
  List.map (fun e => (type e, day e, hour e))
    (Weather.parseTaf probAfterFm (Text.str "KMIE"))
  = [(HEADER, None, None); (FM, Some (Int 12), Some (Int 18));
     (BASE, None, None)].
Proof. vm_compute. reflexivity. Qed.




End ActiveFacts.

(* ================================================================== *)
(** * More about interpolate and the performance hook                *)
(* ================================================================== *)

Module CalcBounds.
Import Calc CalcFacts Constants.


Lemma last_In {A} (l : list A) (d : A) : l <> [] -> In (List.last l d) l.
Proof.
  revert d. induction l as [|a l IH]; [congruence|]. intros d _.
  destruct l as [|b l]; [left; reflexivity|].
  rewrite last_cons_cons. right. apply IH. discriminate.
Qed.







Lemma findBracket_proper (c c' : Q) (data : list ChartDataPoint) :
  c == c' -> findBracket c data = findBracket c' data.
Proof.
  intros E. induction data as [|a data IH]; [reflexivity|].
  destruct data as [|b data]; [reflexivity|].
  change (findBracket c (a :: b :: data))
    with (if Qle_bool (lbs a) c && Qle_bool c (lbs b) then Some (a, b)
          else findBracket c (b :: data)).
  change (findBracket c' (a :: b :: data))
    with (if Qle_bool (lbs a) c' && Qle_bool c' (lbs b) then Some (a, b)
          else findBracket c' (b :: data)).
  rewrite IH.
  assert (E1 : Qle_bool (lbs a) c = Qle_bool (lbs a) c').
  { destruct (Qle_bool (lbs a) c) eqn:H1; destruct (Qle_bool (lbs a) c') eqn:H2;
      try reflexivity.
    - apply Qle_bool_iff in H1. rewrite E in H1. apply Qle_bool_iff in H1.
      congruence.
    - apply Qle_bool_iff in H2. rewrite <- E in H2. apply Qle_bool_iff in H2.
      congruence. }
  assert (E2 : Qle_bool c (lbs b) = Qle_bool c' (lbs b)).
  { destruct (Qle_bool c (lbs b)) eqn:H1; destruct (Qle_bool c' (lbs b)) eqn:H2;
      try reflexivity.
    - apply Qle_bool_iff in H1. rewrite E in H1. apply Qle_bool_iff in H1.
      congruence.
    - apply Qle_bool_iff in H2. rewrite <- E in H2. apply Qle_bool_iff in H2.
      congruence. }
  rewrite E1, E2. reflexivity.
Qed.

(** Clamping twice is clamping once. *)
Lemma safeWeight_idem (first : ChartDataPoint) (data : list ChartDataPoint)
  (w : Q) :
  safeWeightOf first data (safeWeightOf first data w)
  == safeWeightOf first data w.
Proof.
  unfold safeWeightOf.
  set (lo := lbs first). set (hi := lbs (List.last data first)).
  destruct (Qlt_le_dec hi lo) as [H|H].
  - assert (Hx : forall x, Qmax lo (Qmin hi x) == lo).
    { intros x. apply Q.max_l. pose proof (Q.le_min_l hi x). lra. }
    rewrite !Hx. reflexivity.
  - set (s := Qmax lo (Qmin hi w)).
    assert (Hs : lo <= s /\ s <= hi).
    { split; [apply Q.le_max_l|].
      apply Q.max_lub; [exact H | apply Q.le_min_l]. }
    rewrite (Q.min_r hi s) by apply Hs.
    apply Q.max_r, Hs.
Qed.

(** X3.  A weight counts as the boundary weight it is clamped to: the result at
    [w] is the result at the clamped weight, for every table. *)
Theorem interpolate_at_clamped_weight (w : Q) (configKey : string)
  (first : ChartDataPoint) (rest : list ChartDataPoint) :
  exists r r',
    interpolate w configKey (first :: rest) = Some r
    /\ interpolate
         (Qmax (lbs first) (Qmin (lbs (List.last (first :: rest) first)) w))
         configKey (first :: rest) = Some r'
    /\ r == r'.
Proof.
  change (Qmax (lbs first) (Qmin (lbs (List.last (first :: rest) first)) w))
    with (safeWeightOf first (first :: rest) w).
  pose proof (safeWeight_idem first (first :: rest) w) as Hidem.
  set (sw := safeWeightOf first (first :: rest) w) in *.
  unfold interpolate, bracketOf.
  rewrite (findBracket_proper _ _ (first :: rest) Hidem).
  fold sw.
  destruct (match findBracket sw (first :: rest) with
            | Some p => p
            | None => (first, List.last (first :: rest) first)
            end) as [lower upper].
  destruct (Qeq_bool (lbs lower) (lbs upper)) eqn:Eq.
  - eexists. eexists. split; [reflexivity|]. split; [reflexivity|]. reflexivity.
  - eexists. eexists. split; [reflexivity|]. split; [reflexivity|].
    rewrite Hidem. reflexivity.
Qed.


(** ** The performance hook *)

Lemma forEachKey_none (f : string -> option Q) (cfgs : list SpeedConfig)
  (cfg : SpeedConfig) :
  In cfg cfgs -> f (key cfg) = None -> forEachKey f cfgs = None.
Proof.
  induction cfgs as [|c cfgs IH] using rev_ind; intros Hin Hf; [destruct Hin|].
  rewrite forEachKey_snoc.
  apply in_app_or in Hin. destruct Hin as [Hin|[->|[]]].
  - rewrite (IH Hin Hf). reflexivity.
  - rewrite Hf. destruct (forEachKey f cfgs); reflexivity.
Qed.

(** The keys of the record that the first [forEach] builds. *)
Lemma forEachKey_keys (f : string -> option Q) (cfgs : list SpeedConfig)
  (result : gmap string Q) (k : string) :
  forEachKey f cfgs = Some result ->
  (is_Some (result !! k) <-> exists cfg, In cfg cfgs /\ key cfg = k).
Proof.
  revert result. induction cfgs as [|c cfgs IH] using rev_ind; intros result Hr.
  - injection Hr as <-. rewrite lookup_empty. split.
    + intros [x Hx]. discriminate.
    + intros (cfg & [] & _).
  - rewrite forEachKey_snoc in Hr.
    destruct (forEachKey f cfgs) as [r0|] eqn:E0; [|discriminate].
    destruct (f (key c)) as [v|] eqn:Ev; [|discriminate].
    injection Hr as <-.
    destruct (decide (key c = k)) as [Heq|Hne].
    + rewrite <- Heq, lookup_insert_eq. split; [|eauto].
      intros _. exists c. split; [apply in_or_app; right; left|]; reflexivity.
    + rewrite lookup_insert_ne by exact Hne. rewrite (IH r0 eq_refl). split.
      * intros (cfg & Hin & Hk). exists cfg.
        split; [apply in_or_app; left; exact Hin | exact Hk].
      * intros (cfg & Hin & Hk). apply in_app_or in Hin.
        destruct Hin as [Hin|[->|[]]]; [eauto | congruence].
Qed.

Lemma foldl_insert_keys (g : string -> Q) (cfgs : list SpeedConfig)
  (k : string) :
  is_Some (foldl (fun (result : gmap string Q) c => <[key c := g (key c)]> result)
             ∅ cfgs !! k)
  <-> exists cfg, In cfg cfgs /\ key cfg = k.
Proof.
  induction cfgs as [|c cfgs IH] using rev_ind.
  - simpl. rewrite lookup_empty. split.
    + intros [x Hx]. discriminate.
    + intros (cfg & [] & _).
  - rewrite foldl_app. simpl.
    destruct (decide (key c = k)) as [Heq|Hne].
    + rewrite <- Heq, lookup_insert_eq. split; [|eauto].
      intros _. exists c. split; [apply in_or_app; right; left|]; reflexivity.
    + rewrite lookup_insert_ne by exact Hne. rewrite IH. split.
      * intros (cfg & Hin & Hk). exists cfg.
        split; [apply in_or_app; left; exact Hin | exact Hk].
      * intros (cfg & Hin & Hk). apply in_app_or in Hin.
        destruct Hin as [Hin|[->|[]]]; [eauto | congruence].
Qed.

(** What a result of the hook consists of. *)
Lemma performance_inv (weight gustFactor : Q) (profile : AircraftProfile)
  (perf : Performance) :
  useAircraftPerformance weight gustFactor profile = Some perf ->
  forEachKey (fun k => interpolate weight k (performanceData profile))
    (configs profile) = Some (stallSpeed perf)
  /\ approachSpeed perf
     = foldl (fun (result : gmap string Q) cfg =>
                <[key cfg := orZero (stallSpeed perf !! key cfg) * (13 # 10)
                             + gustFactor * (1 # 2)]> result)
         ∅ (configs profile)
  /\ exists cleanKey,
       cleanKeyOf (configs profile) = Some cleanKey
       /\ dmms perf
          = round (orZero (stallSpeed perf !! cleanKey) * dmmsFactor profile)
       /\ buffer perf
          = round (inject_Z (dmms perf) - orZero (stallSpeed perf !! cleanKey)).
Proof.
  unfold useAircraftPerformance. intros H.
  destruct (forEachKey _ (configs profile)) as [stall|]; [|discriminate].
  destruct (cleanKeyOf (configs profile)) as [cleanKey|]; [|discriminate].
  injection H as <-. simpl. split; [reflexivity|]. split; [reflexivity|].
  exists cleanKey. auto.
Qed.

(** X4.  The hook raises exactly for a profile without configurations or
    without samples. *)
Theorem useAircraftPerformance_raises (weight gustFactor : Q)
  (profile : AircraftProfile) :
  useAircraftPerformance weight gustFactor profile = None
  <-> configs profile = [] \/ performanceData profile = [].
Proof.
  split.
  - intros H.
    destruct (configs profile) as [|c cfgs] eqn:Ec; [left; reflexivity|].
    destruct (performanceData profile) as [|p data] eqn:Ed; [right; reflexivity|].
    exfalso. unfold useAircraftPerformance in H. rewrite Ec, Ed in H.
    destruct (forEachKey_total
                (fun k => interpolate weight k (p :: data)) (c :: cfgs))
      as [stall Hstall];
      [intros cfg _; apply interpolate_total; discriminate|].
    rewrite Hstall in H.
    destruct (cleanKeyOf_some (c :: cfgs)) as (clean & _ & Hclean);
      [discriminate|].
    rewrite Hclean in H. discriminate.
  - unfold useAircraftPerformance. intros [Hc|Hd].
    + rewrite Hc. reflexivity.
    + destruct (configs profile) as [|c cfgs] eqn:Ec; [reflexivity|].
      rewrite (forEachKey_none _ (c :: cfgs) c); [reflexivity | left; reflexivity|].
      rewrite Hd. reflexivity.
Qed.

(** X5.  The two records of a result hold a value for the keys of the
    configurations and for no other key. *)
Theorem performance_keys (weight gustFactor : Q) (profile : AircraftProfile)
  (perf : Performance) (k : string) :
  useAircraftPerformance weight gustFactor profile = Some perf ->
  (is_Some (stallSpeed perf !! k)
   <-> exists cfg, In cfg (configs profile) /\ key cfg = k)
  /\ (is_Some (approachSpeed perf !! k)
      <-> exists cfg, In cfg (configs profile) /\ key cfg = k).
Proof.
  intros H. destruct (performance_inv _ _ _ _ H) as (Hs & Ha & _). split.
  - apply (forEachKey_keys _ _ _ _ Hs).
  - rewrite Ha.
    apply (foldl_insert_keys
             (fun key => orZero (stallSpeed perf !! key) * (13 # 10)
                         + gustFactor * (1 # 2))).
Qed.



(** ** The statements at the built-in profile *)



(** The hook at the built-in profile, 2300 lbs and a gust factor of 10 kt:
    the records have the key [clean] and not the key [flaps20]. *)
Lemma performance_keys_witness :
  exists perf,
    useAircraftPerformance 2300 10 MOONEY_M20J = Some perf
    /\ is_Some (stallSpeed perf !! "clean"%string)
    /\ ~ is_Some (approachSpeed perf !! "flaps20"%string).
Proof.
  destruct (useAircraftPerformance 2300 10 MOONEY_M20J) as [perf|] eqn:E;
    [|vm_compute in E; discriminate E].
  exists perf. split; [reflexivity|].
  destruct (performance_keys 2300 10 MOONEY_M20J perf "clean" E) as [Hs _].
  destruct (performance_keys 2300 10 MOONEY_M20J perf "flaps20" E) as [_ Ha].
  split.
  - apply Hs. eexists. split; [left; reflexivity | reflexivity].
  - intros H. apply Ha in H. destruct H as (cfg & Hin & Hk).
    simpl in Hin. destruct Hin as [<-|[<-|[<-|[]]]]; discriminate Hk.
Defined.


End CalcBounds.

(* ================================================================== *)
(** * Properties of the table of speeds                              *)
(* ================================================================== *)

Module CalculatorViewFacts.
Import Calc CalcFacts CalcBounds CalculatorView.




End CalculatorViewFacts.

(* ================================================================== *)
(** * More about the lines of parseTaf                               *)
(* ================================================================== *)

Module ParserFacts.
Import Text Weather TextFacts WeatherFacts.
Local Open Scope nat_scope.

(** ** The lines after the first *)

(** Two markers at the same place are the same marker. *)
Lemma marker_disjoint (b bj : regex) (s : list N) :
  In b bodies -> In bj bodies -> matchesAt b s -> matchesAt bj s -> b = bj.
Proof.
  intros Hb Hbj (m & r & -> & L) (m' & r' & E & L').
  marker_cases Hb L; marker_cases Hbj L'; try reflexivity;
    simpl in E; discriminate E.
Qed.

Lemma matchesAt_app (b : regex) (h w : list N) :
  matchesAt b h -> matchesAt b (h ++ w).
Proof.
  intros (m & r & -> & L). exists m, (r ++ w).
  split; [rewrite app_assoc; reflexivity | exact L].
Qed.

(** A marked piece cut where a marker of another expression begins is
    still marked. *)
Lemma marked_cut (b : regex) (done : list regex) (h h' z w : list N) :
  In b bodies ->
  (forall bj, In bj done -> In bj bodies /\ bj <> b) ->
  MarkedBy done h -> h = h' ++ z ->
  z = [] \/ matchesAt b (skipn (length h') (h ++ w)) ->
  MarkedBy done h'.
Proof.
  intros Hb Hdone (bj & Hbj & Hmj) E [->|Hm].
  - rewrite app_nil_r in E. subst h'. exists bj. auto.
  - destruct (Hdone bj Hbj) as [Hbj' Hne].
    pose proof Hmj as (mj & r & Em & L).
    destruct (Nat.le_gt_cases (length mj) (length h')) as [Hge|Hlt].
    + exists bj. split; [exact Hbj|].
      destruct (app_prefix_ge mj r h' z) as [u Eu]; [congruence | exact Hge|].
      exists mj, u. auto.
    + exfalso. destruct h' as [|c h'].
      * simpl in Hm. apply Hne.
        apply (marker_disjoint bj b (h ++ w)); try assumption.
        apply matchesAt_app, Hmj.
      * apply (lead_of_marker b _ Hb) in Hm.
        rewrite Em, <- app_assoc in Hm.
        apply (no_overlap bj mj (r ++ w) (length (c :: h')) Hbj' L);
          [simpl in *; lia | exact Hm].
Qed.

Lemma MarkedBy_cons (b : regex) (done : list regex) (p : list N) :
  MarkedBy done p -> MarkedBy (b :: done) p.
Proof. intros (bj & Hin & Hm). exists bj. split; [right; exact Hin | exact Hm]. Qed.

(** One replacement: the lines after the first stay marked, and the new
    lines begin with the marker of this replacement. *)
Lemma insertBreaks_marked (b : regex) (done : list regex) (t : list N) :
  In b bodies ->
  (forall bj, In bj done -> In bj bodies /\ bj <> b) ->
  forall h tl, split LF t = h :: tl ->
    exists h' tl' z,
      split LF (replaceAll (Group 1 b) lineBreakThenGroup1 t) = h' :: tl'
      /\ h = h' ++ z
      /\ (z = [] \/ matchesAt b (skipn (length h') t))
      /\ (Forall (MarkedBy done) tl -> Forall (MarkedBy (b :: done)) tl').
Proof.
  intros Hb Hdone.
  apply (replaceAll_ind (Group 1 b) lineBreakThenGroup1
           (fun t out =>
              forall h tl, split LF t = h :: tl ->
                exists h' tl' z,
                  split LF out = h' :: tl' /\ h = h' ++ z
                  /\ (z = [] \/ matchesAt b (skipn (length h') t))
                  /\ (Forall (MarkedBy done) tl
                      -> Forall (MarkedBy (b :: done)) tl'))).
  - intros m L. apply (marker_nonempty b m Hb L).
  - intros h tl [= <- <-]. exists [], [], []. simpl. auto.
  - intros c s out _ IH h tl E.
    destruct (split_nonempty s) as (h0 & tl0 & E0).
    destruct (IH h0 tl0 E0) as (h0' & tl0' & z & Eo & Eh & Hz & Hall).
    destruct (N.eqb_spec c LF) as [->|Hc].
    + rewrite split_LF, E0 in E. injection E as <- <-.
      exists [], (h0' :: tl0'), []. rewrite split_LF, Eo.
      split; [reflexivity|]. split; [reflexivity|]. split; [left; reflexivity|].
      intros Hp. apply Forall_cons in Hp. destruct Hp as [Hp0 Hptl].
      apply Forall_cons. split; [|apply Hall, Hptl].
      destruct (split_first_prefix s h0 tl0 E0) as [w Ew].
      apply MarkedBy_cons.
      apply (marked_cut b done h0 h0' z w Hb Hdone Hp0 Eh).
      rewrite <- Ew. exact Hz.
    + rewrite (split_other c s h0 tl0 Hc E0) in E. injection E as <- <-.
      exists (c :: h0'), tl0', z.
      rewrite (split_other c out h0' tl0' Hc Eo).
      split; [reflexivity|]. split; [simpl; congruence|].
      split; [exact Hz | exact Hall].
  - intros m rest caps out L Hin IH h tl E.
    rewrite (lineBreak_of_group b m rest caps Hin).
    pose proof (marker_noLF b m Hb L) as Hm.
    destruct (split_nonempty rest) as (h0 & tl0 & E0).
    destruct (IH h0 tl0 E0) as (h0' & tl0' & z & Eo & Eh & Hz & Hall).
    rewrite (split_app_noLF m rest h0 tl0 Hm E0) in E. injection E as <- <-.
    exists [], ((m ++ h0') :: tl0'), (m ++ h0).
    change ((LF :: m) ++ out) with (LF :: (m ++ out)).
    rewrite split_LF, (split_app_noLF m out h0' tl0' Hm Eo).
    split; [reflexivity|]. split; [reflexivity|].
    split; [right; exists m, rest; auto|].
    intros Hp. apply Forall_cons. split; [|apply Hall, Hp].
    exists b. split; [left; reflexivity|]. exists m, h0'. auto.
Qed.

Lemma insertBreaks_keeps_marked (b : regex) (done : list regex) (t : list N) :
  In b bodies ->
  (forall bj, In bj done -> In bj bodies /\ bj <> b) ->
  Forall (MarkedBy done) (tl (split LF t)) ->
  Forall (MarkedBy (b :: done))
    (tl (split LF (replaceAll (Group 1 b) lineBreakThenGroup1 t))).
Proof.
  intros Hb Hdone Hp. destruct (split_nonempty t) as (h & tl & E).
  destruct (insertBreaks_marked b done t Hb Hdone h tl E)
    as (h' & tl' & z & Eo & _ & _ & Hall).
  rewrite E in Hp. rewrite Eo. simpl in *. apply Hall, Hp.
Qed.

(** After the four replacements every line but the first begins with a
    marker. *)
Lemma formatTaf_marked (tafBlock : list N) :
  noLF tafBlock ->
  Forall Marked (tl (split LF (formatTaf tafBlock))).
Proof.
  intros Hn.
  assert (H : Forall (MarkedBy [probBody; tempoBody; becmgBody; fmBody])
                (tl (split LF (formatTaf tafBlock)))).
  { unfold formatTaf, probRe, tempoRe, becmgRe, fmRe.
    apply insertBreaks_keeps_marked; [simpl; auto | |].
    { intros bj [<-|[<-|[<-|[]]]]; (split; [simpl; auto | discriminate]). }
    apply insertBreaks_keeps_marked; [simpl; auto | |].
    { intros bj [<-|[<-|[]]]; (split; [simpl; auto | discriminate]). }
    apply insertBreaks_keeps_marked; [simpl; auto | |].
    { intros bj [<-|[]]; (split; [simpl; auto | discriminate]). }
    apply insertBreaks_keeps_marked; [simpl; auto | |].
    { intros bj []. }
    rewrite (split_noLF _ Hn). constructor. }
  eapply List.Forall_impl; [|exact H].
  intros p (b & Hb & Hm). exists b. split; [|exact Hm].
  simpl in Hb. unfold bodies. simpl. tauto.
Qed.


Lemma nth_mapFrom {A B} (f : A -> nat -> B) (l : list A) :
  forall i k y, nth_error (mapFrom f l i) k = Some y ->
    exists x, nth_error l k = Some x /\ y = f x (i + k).
Proof.
  induction l as [|x l IH]; intros i k y H; [destruct k; discriminate|].
  destruct k as [|k]; simpl in H.
  - injection H as <-. exists x. rewrite Nat.add_0_r. auto.
  - destruct (IH _ _ _ H) as (x' & Hx & ->). exists x'.
    split; [exact Hx|]. f_equal. lia.
Qed.

Lemma filter_later {A} (P : A -> bool) (x : A) (l : list A) (k : nat) (y : A) :
  nth_error (List.filter P (x :: l)) (S k) = Some y -> In y (List.filter P l).
Proof.
  simpl List.filter. destruct (P x); intros H.
  - change (nth_error (List.filter P l) k = Some y) in H.
    eapply nth_error_In, H.
  - eapply nth_error_In, H.
Qed.

(** The entry of a marked line that is not the first. *)
Lemma later_entry_of_marked (p : list N) (i : nat) :
  Marked p ->
  let e := toEntry (trim p) (S i) in
  (type e = FM /\ beginsWith fmShape (raw e))
  \/ (type e = BECMG /\ beginsWith becmgShape (raw e))
  \/ (type e = TEMPO /\ beginsWith tempoShape (raw e))
  \/ (type e = BASE /\ beginsWith probShape (raw e)).
Proof.
  intros (b & Hin & m & r & -> & L) e. subst e.
  rewrite (trim_marked b m r Hin L). generalize (trimEnd r) as r'. intros r'.
  rewrite !raw_toEntry.
  assert (Hshape : forall shape, shape m -> beginsWith shape (m ++ r'))
    by (intros shape Hs; exists m, r'; auto).
  destruct Hin as [<-|[<-|[<-|[<-|[]]]]].
  - left. split; [|apply Hshape, lang_fm, L].
    apply lang_fm in L. destruct L as (ds & -> & _). reflexivity.
  - right. left. split; [|apply Hshape, lang_becmg, L].
    apply lang_becmg in L. destruct L as (v & -> & _). reflexivity.
  - right. right. left. split; [|apply Hshape, lang_tempo, L].
    apply lang_tempo in L. destruct L as (v & -> & _). reflexivity.
  - right. right. right. split; [|apply Hshape, lang_prob, L].
    apply lang_prob in L. destruct L as (q & v & -> & _ & _). reflexivity.
Qed.

(** X8.  Every entry after the first is a change group: an FM, BECMG or TEMPO
    entry whose text begins with its marker, or a BASE entry whose text
    begins with a PROB marker.  A HEADER is the first entry, and the first
    entry is never a BASE entry. *)
Theorem parseTaf_later_entries (rawHtml code : list N) (i : nat)
  (e : TafEntry) :
  nth_error (parseTaf rawHtml code) i = Some e ->
  (i = 0 -> type e <> BASE)
  /\ (i <> 0 ->
      (type e = FM /\ beginsWith fmShape (raw e))
      \/ (type e = BECMG /\ beginsWith becmgShape (raw e))
      \/ (type e = TEMPO /\ beginsWith tempoShape (raw e))
      \/ (type e = BASE /\ beginsWith probShape (raw e))).
Proof.
  unfold parseTaf.
  destruct (findTafStart (cleanHtml rawHtml) code) as [tafStart|] eqn:Es;
    [|destruct i; discriminate].
  set (block := substring (substringFrom (cleanHtml rawHtml) tafStart) 0
                  (findEndIndex (substringFrom (cleanHtml rawHtml) tafStart))).
  intros H. unfold mapIndexed in H.
  apply nth_mapFrom in H. destruct H as (line & Hline & ->). simpl in *.
  split.
  - intros ->. unfold toEntry.
    destruct (startsWith line (str "FM")); [discriminate|].
    destruct (startsWith line (str "TEMPO")); [discriminate|].
    destruct (startsWith line (str "BECMG")); [discriminate|].
    rewrite orb_true_r. discriminate.
  - intros Hi. destruct i as [|i]; [congruence|]. clear Hi.
    assert (Hn : noLF block).
    { unfold block. rewrite substring_from_0. apply noLF_firstn.
      unfold substringFrom. apply noLF_skipn, cleanHtml_noLF. }
    pose proof (formatTaf_marked block Hn) as Hm.
    unfold tafLines in Hline.
    destruct (split_nonempty (formatTaf block)) as (h & tl & E).
    rewrite E in Hline, Hm. simpl in Hm.
    simpl List.map in Hline. apply filter_later in Hline.
    apply filter_In in Hline. destruct Hline as [Hin _].
    apply in_map_iff in Hin. destruct Hin as (p & <- & Hp).
    rewrite List.Forall_forall in Hm.
    apply (later_entry_of_marked p i (Hm p Hp)).
Qed.


(** ** The text of an entry is an excerpt of the cleaned text *)

Lemma contains_refl (s : list N) : contains s s.
Proof. exists [], []. rewrite app_nil_r. reflexivity. Qed.

Lemma contains_trans (s t u : list N) :
  contains s t -> contains t u -> contains s u.
Proof.
  intros (a & b & ->) (c & d & ->). exists (a ++ c), (d ++ b).
  rewrite <- !app_assoc. reflexivity.
Qed.

Lemma contains_skipn_firstn (s : list N) (k e : nat) :
  contains s (firstn e (skipn k s)).
Proof.
  exists (firstn k s), (skipn e (skipn k s)).
  rewrite firstn_skipn, firstn_skipn. reflexivity.
Qed.

Lemma contains_trim (s : list N) : contains s (trim s).
Proof.
  unfold trim. destruct (trimStart_suffix s) as [y Ey].
  destruct (trimEnd_prefix (trimStart s)) as [z Ez].
  exists y, z. rewrite <- Ez. exact Ey.
Qed.

(** The text without its line breaks. *)
Lemma concat_split (s : list N) :
  concat (split LF s) = List.filter (fun c => negb (N.eqb c LF)) s.
Proof.
  induction s as [|c s IH]; [reflexivity|].
  simpl. destruct (N.eqb c LF) eqn:E; simpl.
  - exact IH.
  - destruct (split LF s) as [|h tl]; simpl in *; rewrite <- IH; reflexivity.
Qed.

Lemma filter_noLF (s : list N) :
  noLF s -> List.filter (fun c => negb (N.eqb c LF)) s = s.
Proof.
  induction 1 as [|c s Hc _ IH]; [reflexivity|].
  simpl. destruct (N.eqb_spec c LF); [contradiction|].
  simpl. rewrite IH. reflexivity.
Qed.

(** A replacement adds line breaks and nothing else. *)
Lemma insertBreaks_text (b : regex) (t : list N) :
  In b bodies ->
  List.filter (fun c => negb (N.eqb c LF))
    (replaceAll (Group 1 b) lineBreakThenGroup1 t)
  = List.filter (fun c => negb (N.eqb c LF)) t.
Proof.
  intros Hb.
  apply (replaceAll_ind (Group 1 b) lineBreakThenGroup1
           (fun t out =>
              List.filter (fun c => negb (N.eqb c LF)) out
              = List.filter (fun c => negb (N.eqb c LF)) t)).
  - intros m L. apply (marker_nonempty b m Hb L).
  - reflexivity.
  - intros c s out _ IH. simpl. rewrite IH. reflexivity.
  - intros m rest caps out L Hin IH.
    rewrite (lineBreak_of_group b m rest caps Hin).
    change ((LF :: m) ++ out) with (LF :: (m ++ out)).
    simpl. rewrite !List.filter_app, IH. reflexivity.
Qed.

Lemma formatTaf_text (tafBlock : list N) :
  noLF tafBlock -> concat (split LF (formatTaf tafBlock)) = tafBlock.
Proof.
  intros Hn. rewrite concat_split. unfold formatTaf, probRe, tempoRe, becmgRe, fmRe.
  rewrite !insertBreaks_text by (simpl; auto).
  apply filter_noLF, Hn.
Qed.

Lemma contains_concat (l : list (list N)) (p : list N) :
  In p l -> contains (concat l) p.
Proof.
  intros H. apply in_split in H. destruct H as (l1 & l2 & ->).
  exists (concat l1), (concat l2). rewrite concat_app. reflexivity.
Qed.

(** The text of every entry occurs in the cleaned text. *)
Lemma raw_in_cleanText (rawHtml code : list N) (e : TafEntry) :
  In e (parseTaf rawHtml code) -> contains (cleanHtml rawHtml) (raw e).
Proof.
  unfold parseTaf.
  destruct (findTafStart (cleanHtml rawHtml) code) as [tafStart|] eqn:Es;
    [|intros []].
  intros H. apply in_mapFrom in H. destruct H as (line & idx & Hin & ->).
  rewrite raw_toEntry.
  unfold tafLines in Hin. apply filter_In in Hin. destruct Hin as [Hin _].
  apply in_map_iff in Hin. destruct Hin as (p & <- & Hp).
  apply contains_concat in Hp. rewrite formatTaf_text in Hp.
  - rewrite substring_from_0 in Hp. unfold substringFrom in Hp.
    eapply contains_trans; [apply contains_skipn_firstn|].
    eapply contains_trans; [exact Hp | apply contains_trim].
  - rewrite substring_from_0. apply noLF_firstn. unfold substringFrom.
    apply noLF_skipn, cleanHtml_noLF.
Qed.

(** ** What the cleaned text looks like *)

(** The induction principle of a global replacement, with the match that
    the matcher tries first. *)
Lemma replaceAll_ind_first (r : regex) (f : MatchResult -> list N)
  (P : list N -> list N -> Prop) :
  (forall m, lang r m -> m <> []) ->
  P [] [] ->
  (forall c s out, ~ matchesAt r (c :: s) -> P s out -> P (c :: s) (c :: out)) ->
  (forall m rest caps out,
      lang r m -> hd_error (ms r (m ++ rest) []) = Some (rest, caps) ->
      P rest out -> P (m ++ rest) (f (mkMatch 0 m caps) ++ out)) ->
  forall s, P s (replaceAll r f s).
Proof.
  intros Hne Hnil Hcopy Hmatch s. unfold replaceAll.
  remember (length s) as n eqn:En. revert s En.
  induction n as [n IH] using lt_wf_ind. intros s En.
  destruct (ms r s []) as [|[rest caps] others] eqn:E.
  - destruct s as [|c s].
    + simpl. unfold matchAt. rewrite E. exact Hnil.
    + rewrite replaceGo_nomatch by exact E.
      apply Hcopy; [apply ms_nil_iff with (caps := []); exact E|].
      apply (IH (length s)); [subst n; simpl; lia | reflexivity].
  - destruct (ms_sound r s [] rest caps) as (m & -> & L);
      [rewrite E; left; reflexivity|].
    pose proof (Hne m L) as Hm.
    rewrite (replaceGo_match r f m rest caps others E Hm).
    apply Hmatch; [exact L | rewrite E; reflexivity|].
    apply (IH (length rest)); [|reflexivity].
    subst n. rewrite length_app. destruct m; [congruence | simpl; lia].
Qed.

Lemma many_from_0 (cls : N -> bool) (s : list N) : many cls 0 None s <> [].
Proof.
  destruct s as [|d s]; [discriminate|].
  unfold many; fold many. intros H. apply app_eq_nil in H.
  destruct H as [_ H]; discriminate H.
Qed.

(** The longest repetition comes first. *)
Lemma many_first_maximal (cls : N -> bool) (s rest : list N) :
  hd_error (many cls 0 None s) = Some rest ->
  match rest with c :: _ => cls c = false | [] => True end.
Proof.
  induction s as [|d s IH]; simpl.
  - intros [= <-]. exact I.
  - destruct (cls d) eqn:Ed; simpl.
    + destruct (many cls 0 None s) as [|x l] eqn:Em.
      * exfalso. apply (many_from_0 cls s Em).
      * simpl in *. exact IH.
    + intros [= <-]. exact Ed.
Qed.

Lemma spaces_first_maximal (m rest : list N) (caps : captures) :
  hd_error (ms spacesRe (m ++ rest) []) = Some (rest, caps) ->
  match rest with c :: _ => isSpace c = false | [] => True end.
Proof.
  unfold spacesRe. simpl ms.
  destruct (m ++ rest) as [|c s]; [discriminate|].
  simpl many. destruct (isSpace c); simpl; [|discriminate].
  rewrite app_nil_r.
  destruct (many isSpace 0 None s) as [|x l] eqn:Em; [discriminate|].
  simpl. intros [= -> _].
  apply (many_first_maximal isSpace s). rewrite Em. reflexivity.
Qed.

Lemma contains_cons_inv (c : N) (s p : list N) :
  contains (c :: s) p -> startsWith (c :: s) p = true \/ contains s p.
Proof.
  intros (a & b & E). destruct a as [|x a].
  - left. simpl in E. rewrite E. apply startsWith_app.
  - right. simpl in E. injection E as _ ->. exists a, b. reflexivity.
Qed.

(** After the second replacement white space is single spaces. *)
Lemma collapse_singleSpaced (s : list N) :
  singleSpaced (replaceAll spacesRe withSpace s).
Proof.
  assert (H : (fun s out =>
                 singleSpaced out
                 /\ match out with
                    | c :: _ => isSpace c = true ->
                                match s with
                                | d :: _ => isSpace d = true
                                | [] => False
                                end
                    | [] => True
                    end) s (replaceAll spacesRe withSpace s));
    [|exact (proj1 H)].
  apply replaceAll_ind_first.
  - exact lang_spaces_nonempty.
  - split; [|exact I]. split; [intros c []|].
    intros (a & b & E). destruct a; discriminate.
  - intros c t out Hno [[Hsp Hadj] Hhd].
    assert (Hc : isSpace c = false).
    { destruct (isSpace c) eqn:Ec; [|reflexivity]. exfalso. apply Hno.
      exists [c], t. split; [reflexivity|]. simpl.
      split; [repeat constructor; exact Ec|]. split; [simpl; lia | discriminate]. }
    split; [|intros Hc'; congruence].
    split.
    + intros d [<-|Hd] Hs; [congruence | apply Hsp; assumption].
    + intros Hcon. apply contains_cons_inv in Hcon. destruct Hcon as [Hst|Hcon].
      * rewrite startsWith_cons in Hst.
        apply andb_prop in Hst. destruct Hst as [Hst _].
        apply N.eqb_eq in Hst. subst c. discriminate.
      * contradiction.
  - intros m rest caps out L Hhd [[Hsp Hadj] Hout].
    pose proof (spaces_first_maximal m rest caps Hhd) as Hmax.
    change (withSpace {| index := 0; matched := m; groups := caps |} ++ out)
      with (SP :: out).
    split.
    + split.
      * intros d [<-|Hd] Hs; [reflexivity | apply Hsp; assumption].
      * intros Hcon. apply contains_cons_inv in Hcon.
        destruct Hcon as [Hst|Hcon]; [|contradiction].
        rewrite startsWith_cons in Hst.
        apply andb_prop in Hst. destruct Hst as [_ Hst].
        destruct out as [|o out]; [discriminate|].
        rewrite startsWith_cons in Hst.
        apply andb_prop in Hst. destruct Hst as [Hst _].
        apply N.eqb_eq in Hst. subst o.
        specialize (Hout eq_refl).
        destruct rest as [|d rest]; [contradiction | congruence].
    + intros _. destruct m as [|c m]; [exfalso; eapply lang_spaces_nonempty; eauto|].
      destruct L as (Hall & _). inversion Hall; subst. assumption.
Qed.


(** ** No tag is left *)

Lemma first_occurrence (x : N) (l : list N) :
  In x l -> exists l1 l2, l = l1 ++ x :: l2 /\ ~ In x l1.
Proof.
  induction l as [|y l IH]; [intros []|].
  destruct (N.eq_dec y x) as [->|Hne].
  - intros _. exists [], l. split; [reflexivity | intros []].
  - intros [H|H]; [contradiction|].
    destruct (IH H) as (l1 & l2 & -> & Hn). exists (y :: l1), l2.
    split; [reflexivity|]. intros [Hy|Hy]; [contradiction | exact (Hn Hy)].
Qed.

Lemma lang_tag (m : list N) :
  lang tagRe m <->
  exists b, m = 60%N :: b ++ [62%N] /\ ~ In 62%N b.
Proof.
  unfold tagRe. simpl. split.
  - intros (m1 & m2 & -> & -> & m3 & m4 & -> & (Hall & _ & _) & ->).
    exists m3. split; [reflexivity|].
    intros Hin. rewrite List.Forall_forall in Hall.
    specialize (Hall _ Hin). discriminate Hall.
  - intros (b & -> & Hn). exists [60%N], (b ++ [62%N]).
    split; [reflexivity|]. split; [reflexivity|].
    exists b, [62%N]. split; [reflexivity|]. split; [|reflexivity].
    split; [|split; [lia | intros h Hh; discriminate Hh]].
    apply List.Forall_forall. intros c Hc. unfold notGt.
    destruct (N.eqb_spec c 62) as [->|_]; [contradiction | reflexivity].
Qed.

Lemma lang_tag_nonempty (m : list N) : lang tagRe m -> m <> [].
Proof. intros L. apply lang_tag in L. destruct L as (b & -> & _). discriminate. Qed.

Lemma tag_matchesAt (s : list N) :
  matchesAt tagRe s <-> exists s', s = 60%N :: s' /\ In 62%N s'.
Proof.
  split.
  - intros (m & rest & -> & L). apply lang_tag in L.
    destruct L as (b & -> & _). exists (b ++ [62%N] ++ rest).
    split; [simpl; rewrite <- app_assoc; reflexivity|].
    apply in_or_app. right. left. reflexivity.
  - intros (s' & -> & Hin).
    destruct (first_occurrence _ _ Hin) as (b & rest & -> & Hn).
    exists (60%N :: b ++ [62%N]), rest.
    split; [simpl; rewrite <- app_assoc; reflexivity|].
    apply lang_tag. exists b. auto.
Qed.

(** The tag expression matches somewhere exactly when some [<] has a [>]
    after it. *)
Lemma occursIn_tag (s : list N) : occursIn tagRe s <-> hasTag s.
Proof.
  split.
  - intros (pre & m & post & -> & L).
    destruct (proj1 (tag_matchesAt (m ++ post))) as (s' & E & Hin);
      [exists m, post; auto|].
    exists pre, s'. rewrite E. auto.
  - intros (a & b & -> & Hin).
    destruct (proj2 (tag_matchesAt (60%N :: b))) as (m & post & E & L);
      [exists b; auto|].
    exists a, m, post. rewrite E. auto.
Qed.

Lemma hasTag_cons (c : N) (s : list N) :
  hasTag (c :: s) <-> (c = 60%N /\ In 62%N s) \/ hasTag s.
Proof.
  split.
  - intros (a & b & E & Hin). destruct a as [|x a]; simpl in E.
    + injection E as -> ->. left. auto.
    + injection E as _ ->. right. exists a, b. auto.
  - intros [[-> Hin]|(a & b & -> & Hin)].
    + exists [], s. auto.
    + exists (c :: a), b. auto.
Qed.

(** After the first replacement no tag is left. *)
Lemma stripTags_noTag (s : list N) : ~ hasTag (replaceAll tagRe withSpace s).
Proof.
  assert (H : (fun s out => ~ hasTag out /\ (In 62%N out -> In 62%N s))
                s (replaceAll tagRe withSpace s)); [|exact (proj1 H)].
  apply replaceAll_ind.
  - exact lang_tag_nonempty.
  - split; [|intros []]. intros (a & b & E & _). destruct a; discriminate.
  - intros c t out Hno [Hout Hgt]. split.
    + intros Ht. apply hasTag_cons in Ht. destruct Ht as [[-> Hin]|Ht];
        [|contradiction].
      apply Hno, tag_matchesAt. exists t. auto.
    + intros [->|Hin]; [left; reflexivity | right; apply Hgt, Hin].
  - intros m rest caps out _ _ [Hout Hgt].
    change (withSpace {| index := 0; matched := m; groups := caps |} ++ out)
      with (SP :: out).
    split.
    + intros Ht. apply hasTag_cons in Ht.
      destruct Ht as [[Hc _]|Ht]; [discriminate | contradiction].
    + intros [Hc|Hin]; [discriminate|].
      apply in_or_app. right. apply Hgt, Hin.
Qed.

(** The second replacement brings no tag back. *)
Lemma collapse_noTag (s : list N) :
  ~ hasTag s -> ~ hasTag (replaceAll spacesRe withSpace s).
Proof.
  assert (H : (fun s out => (hasTag out -> hasTag s)
                            /\ (In 62%N out -> In 62%N s))
                s (replaceAll spacesRe withSpace s)); [|cbv beta in H; tauto].
  apply replaceAll_ind.
  - exact lang_spaces_nonempty.
  - tauto.
  - intros c t out _ [Hout Hgt]. split.
    + intros Ht. apply hasTag_cons in Ht. apply hasTag_cons.
      destruct Ht as [[-> Hin]|Ht]; [left; auto | right; auto].
    + intros [->|Hin]; [left; reflexivity | right; apply Hgt, Hin].
  - intros m rest caps out _ _ [Hout Hgt].
    change (withSpace {| index := 0; matched := m; groups := caps |} ++ out)
      with (SP :: out).
    assert (Hrest : hasTag rest -> hasTag (m ++ rest)).
    { intros (a & b & -> & Hin). exists (m ++ a), b.
      rewrite <- app_assoc. auto. }
    split.
    + intros Ht. apply hasTag_cons in Ht.
      destruct Ht as [[Hc _]|Ht]; [discriminate | auto].
    + intros [Hc|Hin]; [discriminate|].
      apply in_or_app. right. apply Hgt, Hin.
Qed.

Lemma hasTag_contains (s p : list N) : contains s p -> hasTag p -> hasTag s.
Proof.
  intros (a & b & ->) (c & d & -> & Hin).
  exists (a ++ c), (d ++ b). rewrite <- !app_assoc. simpl.
  split; [reflexivity | apply in_or_app; left; exact Hin].
Qed.

Lemma singleSpaced_contains (s p : list N) :
  contains s p -> singleSpaced s -> singleSpaced p.
Proof.
  intros Hc [Hsp Hadj]. split.
  - intros c Hin. apply Hsp. destruct Hc as (a & b & ->).
    apply in_or_app. right. apply in_or_app. left. exact Hin.
  - intros H. apply Hadj. eapply contains_trans; eassumption.
Qed.

(** X9.  The text of every entry is an excerpt of the page text after tag
    stripping and white-space collapsing; the tag expression matches
    nowhere in it, and its white space is single space characters. *)
Theorem parseTaf_raw_excerpt (rawHtml code : list N) (e : TafEntry) :
  In e (parseTaf rawHtml code) ->
  contains (cleanHtml rawHtml) (raw e)
  /\ ~ occursIn tagRe (raw e)
  /\ (forall c, In c (raw e) -> isSpace c = true -> c = SP)
  /\ ~ contains (raw e) [SP; SP].
Proof.
  intros H. pose proof (raw_in_cleanText rawHtml code e H) as Hc.
  split; [exact Hc|]. split.
  - rewrite occursIn_tag. intros Ht.
    apply (hasTag_contains _ _ Hc) in Ht. revert Ht.
    apply collapse_noTag, stripTags_noTag.
  - apply (singleSpaced_contains _ _ Hc). apply collapse_singleSpaced.
Qed.

(** ** The statements at concrete forecasts *)

(** In the forecast with a PROB30 group after an FM group the third entry
    is a BASE entry that begins with the PROB marker. *)
Lemma parseTaf_later_entries_witness :
  exists e,
    nth_error (parseTaf Active.probAfterFm (str "KMIE")) 2 = Some e
    /\ type e = BASE /\ beginsWith probShape (raw e).
Proof.
  destruct (nth_error (parseTaf Active.probAfterFm (str "KMIE")) 2)
    as [e|] eqn:E; [|vm_compute in E; discriminate E].
  exists e. split; [reflexivity|].
  destruct (parseTaf_later_entries _ _ 2 e E) as [_ H].
  vm_compute in E. injection E as <-.
  destruct (H ltac:(discriminate)) as [[Ht _]|[[Ht _]|[[Ht _]|[Ht Hp]]]];
    try discriminate Ht.
  split; [exact Ht | exact Hp].
Defined.

(** The header of the example of the specification is an excerpt of the
    cleaned text and holds no tag. *)
Lemma parseTaf_raw_excerpt_witness :
  exists e rest,
    parseTaf specExample (str "KMIE") = e :: rest
    /\ contains (cleanHtml specExample) (raw e)
    /\ ~ occursIn tagRe (raw e).
Proof.
  destruct (parseTaf specExample (str "KMIE")) as [|e rest] eqn:E;
    [vm_compute in E; discriminate E|].
  exists e, rest. split; [reflexivity|].
  destruct (parseTaf_raw_excerpt specExample (str "KMIE") e) as (H1 & H2 & _).
  - rewrite E. left. reflexivity.
  - split; assumption.
Defined.

End ParserFacts.

(* ================================================================== *)
(** * Properties of the METAR line and the clock                     *)
(* ================================================================== *)

Module DisplayFacts.
Import Text Weather TextFacts WeatherFacts Display.
Local Open Scope nat_scope.

(** ** Splitting at a separator *)

Lemma split_sep (sep : N) (s : list N) : split sep (sep :: s) = [] :: split sep s.
Proof. simpl. rewrite N.eqb_refl. reflexivity. Qed.

Lemma split_keep (sep c : N) (s h : list N) (tl : list (list N)) :
  c <> sep -> split sep s = h :: tl -> split sep (c :: s) = (c :: h) :: tl.
Proof.
  intros Hc E. simpl. rewrite E.
  destruct (N.eqb_spec c sep); [contradiction | reflexivity].
Qed.

Lemma split_some (sep : N) (s : list N) : exists h tl, split sep s = h :: tl.
Proof.
  induction s as [|c s (h & tl & E)]; simpl.
  - eauto.
  - destruct (N.eqb c sep); [eauto|]. rewrite E. eauto.
Qed.

Lemma split_first (sep : N) (s h : list N) (tl : list (list N)) :
  split sep s = h :: tl -> exists w, s = h ++ w.
Proof.
  revert h tl. induction s as [|c s IH]; intros h tl E; simpl in E.
  - injection E as <- _. exists []. reflexivity.
  - destruct (N.eqb c sep).
    + injection E as <- _. eexists. reflexivity.
    + destruct (split sep s) as [|h0 tl0] eqn:E0; injection E as <- _.
      * exists s. reflexivity.
      * destruct (IH _ _ eq_refl) as [w ->]. exists w. reflexivity.
Qed.

Lemma split_app_keep (sep : N) (m s h : list N) (tl : list (list N)) :
  ~ In sep m -> split sep s = h :: tl -> split sep (m ++ s) = (m ++ h) :: tl.
Proof.
  intros Hm E. induction m as [|c m IH]; [exact E|].
  simpl app. apply split_keep.
  - intros ->. apply Hm. left. reflexivity.
  - apply IH. intros H. apply Hm. right. exact H.
Qed.

(** A stretch of the text without the separator lies within one word. *)
Lemma split_word (sep : N) (m : list N) :
  ~ In sep m ->
  forall pre post,
    exists a b pre' post',
      pre = pre' ++ a /\ post = b ++ post'
      /\ In (a ++ m ++ b) (split sep (pre ++ m ++ post)).
Proof.
  intros Hm pre post.
  assert (H : exists a b pre' post',
             pre = pre' ++ a /\ post = b ++ post'
             /\ ((pre' = []
                  /\ exists tl, split sep (pre ++ m ++ post) = (a ++ m ++ b) :: tl)
                 \/ In (a ++ m ++ b) (tl (split sep (pre ++ m ++ post))))).
  { induction pre as [|c pre IH].
    - destruct (split_some sep post) as (h0 & tl0 & E0).
      destruct (split_first sep post h0 tl0 E0) as [w Ew].
      exists [], h0, [], w. split; [reflexivity|]. split; [exact Ew|].
      left. split; [reflexivity|]. exists tl0. simpl.
      apply split_app_keep; assumption.
    - destruct IH as (a & b & pre' & post' & Ea & Eb & Hcase).
      destruct (N.eq_dec c sep) as [->|Hc].
      + exists a, b, (sep :: pre'), post'.
        split; [simpl; congruence|]. split; [exact Eb|].
        right. simpl app. rewrite split_sep. simpl.
        destruct Hcase as [[_ [tl E]]|Hin].
        * rewrite E. left. reflexivity.
        * destruct (split sep (pre ++ m ++ post)); [destruct Hin|].
          right. exact Hin.
      + destruct (split_some sep (pre ++ m ++ post)) as (h & tl & E).
        simpl app. rewrite (split_keep sep c _ h tl Hc E).
        destruct Hcase as [[-> [tl' E']]|Hin].
        * rewrite E in E'. injection E' as -> ->.
          exists (c :: a), b, [], post'.
          split; [simpl in *; congruence|]. split; [exact Eb|].
          left. split; [reflexivity|]. exists tl'. reflexivity.
        * exists a, b, (c :: pre'), post'.
          split; [simpl; congruence|]. split; [exact Eb|].
          right. rewrite E in Hin. exact Hin. }
  destruct H as (a & b & pre' & post' & Ea & Eb & [[_ [tl E]]|Hin]);
    exists a, b, pre', post'; (split; [exact Ea|]); (split; [exact Eb|]).
  - rewrite E. left. reflexivity.
  - destruct (split sep (pre ++ m ++ post)); [destruct Hin | right; exact Hin].
Qed.

(** ** The wind group *)

Lemma gustGroup_wind (m g : list N) : gustGroup m g -> lang windRe m.
Proof.
  intros (d & sp & -> & Hd & Hsp & Hg).
  exists d, (sp ++ str "G" ++ g ++ str "KT"). split; [reflexivity|]. split.
  - destruct Hd as [[Hd Hl]| ->]; [left | right; reflexivity].
    apply lang_digits. split; [exact Hd | lia].
  - exists sp, (str "G" ++ g ++ str "KT"). split; [reflexivity|]. split.
    + apply lang_digits. exact Hsp.
    + exists (str "G" ++ g), (str "KT").
      split; [rewrite <- app_assoc; reflexivity|]. split; [|reflexivity].
      left. exists (str "G"), g. split; [reflexivity|].
      split; [reflexivity | apply lang_digits; exact Hg].
Qed.

Lemma digits_noSP (ds : list N) : allDigits ds -> ~ In SP ds.
Proof.
  intros H Hin. unfold allDigits in H. rewrite List.Forall_forall in H.
  specialize (H _ Hin). discriminate H.
Qed.

Lemma gustGroup_noSP (m g : list N) : gustGroup m g -> ~ In SP m.
Proof.
  intros (d & sp & -> & Hd & [Hsp _] & [Hg _]) Hin.
  apply in_app_or in Hin. destruct Hin as [Hin|Hin].
  - destruct Hd as [[Hd _]| ->]; [exact (digits_noSP _ Hd Hin)|].
    vm_compute in Hin. intuition discriminate.
  - apply in_app_or in Hin. destruct Hin as [Hin|Hin];
      [exact (digits_noSP _ Hsp Hin)|].
    apply in_app_or in Hin. destruct Hin as [Hin|Hin];
      [vm_compute in Hin; intuition discriminate|].
    apply in_app_or in Hin. destruct Hin as [Hin|Hin];
      [exact (digits_noSP _ Hg Hin)|].
    vm_compute in Hin. intuition discriminate.
Qed.

Lemma test_occurs (r : regex) (s : list N) : occursIn r s -> test r s = true.
Proof.
  intros H. unfold test. destruct (exec r s) eqn:E; [reflexivity|].
  apply exec_none in E. contradiction.
Qed.

(** X10.  When [extractGust] finds a gust in the line, the word that holds the
    gust group is shown as wind, and [extractGust] of that word alone is
    the same gust. *)
Theorem gust_word_is_highlighted (text icaoUpper : list N) (v : jsint) :
  extractGust text = Some v ->
  exists part,
    In (part, Wind) (renderMetarParts text icaoUpper)
    /\ extractGust part = Some v.
Proof.
  intros H. apply extractGust_some in H.
  destruct H as (i & g & Hat & Hleft & ->).
  destruct Hat as (m & rest & Hi & Es & Hg).
  assert (Et : text = firstn i text ++ m ++ rest)
    by (rewrite <- Es; symmetry; apply firstn_skipn).
  destruct (split_word SP m (gustGroup_noSP m g Hg) (firstn i text) rest)
    as (a & b & pre' & post' & Ea & Eb & Hin).
  rewrite <- Et in Hin.
  set (part := a ++ m ++ b) in *.
  assert (Hpart : gustAt part (length a) g).
  { exists m, b. split; [unfold part; rewrite length_app; lia|].
    split; [unfold part; apply skipn_app_length | exact Hg]. }
  exists part. split.
  - unfold renderMetarParts. apply in_map_iff. exists part.
    split; [|exact Hin].
    rewrite (test_occurs windRe part); [reflexivity|].
    exists a, m, b. split; [reflexivity | apply (gustGroup_wind m g Hg)].
  - apply (extractGust_leftmost part (length a) g Hpart).
    intros j g' Hj (m' & rest' & Hj' & Es' & Hg').
    apply (Hleft (length pre' + j) g').
    + assert (Hl : length (firstn i text) = i) by (apply firstn_length_le, Hi).
      rewrite Ea, length_app in Hl. lia.
    + exists m', (rest' ++ post').
      assert (Etext : text = pre' ++ part ++ post').
      { rewrite Et, Ea, Eb. unfold part. rewrite <- !app_assoc. reflexivity. }
      split; [rewrite Etext, !length_app; lia|].
      split; [|exact Hg'].
      rewrite Etext. rewrite skipn_app.
      rewrite (skipn_all2 pre') by lia.
      replace (length pre' + j - length pre') with j by lia.
      simpl. rewrite skipn_app, Es'.
      replace (j - length part) with 0 by lia.
      rewrite <- app_assoc. reflexivity.
Qed.

(** In the METAR of the specification the word [18015G25KT] is shown as
    wind, and its gust is the 25 kt that [extractGust] reports. *)
Lemma gust_word_is_highlighted_witness :
  exists part,
    In (part, Wind)
      (renderMetarParts (str "KMIE 121654Z 18015G25KT 10SM") (str "KMIE"))
    /\ extractGust part = Some (Int 25).
Proof.
  apply (gust_word_is_highlighted (str "KMIE 121654Z 18015G25KT 10SM")
           (str "KMIE") (Int 25)).
  vm_compute. reflexivity.
Defined.

(** ** The clock *)

Lemma two_digit_text (n : Z) :
  (0 <= n < 60)%Z ->
  exists a b,
    padStart 2 "0" (numberToString n) = String a (String b "")
    /\ parseInt [N_of_ascii a; N_of_ascii b] = Int n.
Proof.
  intros H.
  assert (Hall :
    forallb (fun k =>
               match padStart 2 "0" (numberToString (Z.of_nat k)) with
               | String a (String b EmptyString) =>
                   match parseInt [N_of_ascii a; N_of_ascii b] with
                   | Int v => Z.eqb v (Z.of_nat k)
                   | NaN => false
                   end
               | _ => false
               end) (seq 0 60) = true) by (vm_compute; reflexivity).
  rewrite forallb_forall in Hall.
  specialize (Hall (Z.to_nat n) ltac:(apply in_seq; lia)).
  replace (Z.of_nat (Z.to_nat n)) with n in Hall by lia.
  destruct (padStart 2 "0" (numberToString n)) as [|a [|b [|]]];
    try discriminate.
  exists a, b. split; [reflexivity|].
  destruct (parseInt [N_of_ascii a; N_of_ascii b]) as [v|]; [|discriminate].
  apply Z.eqb_eq in Hall. congruence.
Qed.

(** X11.  The clock text is two digits of the UTC hour, two digits of the UTC
    minute and [Z], followed by the day of the month; read back with
    [parseInt], the digits give the hour (0..23) and the minute
    (0..59). *)
Theorem getZTime_reads_back (currentTime : Z) :
  exists hh mm,
    zStr (getZTime currentTime)
    = (hh ++ mm ++ "Z (Day "
       ++ numberToString (Active.DateFromTime currentTime) ++ ")")%string
    /\ String.length hh = 2 /\ String.length mm = 2
    /\ parseInt (str hh) = Int (zHours (getZTime currentTime))
    /\ parseInt (str mm) = Int (MinFromTime currentTime)
    /\ (0 <= zHours (getZTime currentTime) <= 23)%Z
    /\ (0 <= MinFromTime currentTime <= 59)%Z
    /\ zDay (getZTime currentTime) = Active.DateFromTime currentTime.
Proof.
  unfold getZTime. simpl.
  assert (Hh : (0 <= HourFromTime currentTime < 24)%Z)
    by (unfold HourFromTime; apply Z.mod_pos_bound; lia).
  assert (Hm : (0 <= MinFromTime currentTime < 60)%Z)
    by (unfold MinFromTime; apply Z.mod_pos_bound; lia).
  destruct (two_digit_text (HourFromTime currentTime) ltac:(lia))
    as (a & b & Eh & Ph).
  destruct (two_digit_text (MinFromTime currentTime) Hm)
    as (c & d & Em & Pm).
  rewrite Eh, Em.
  exists (String a (String b "")), (String c (String d "")).
  split; [reflexivity|]. split; [reflexivity|]. split; [reflexivity|].
  split; [exact Ph|]. split; [exact Pm|]. split; [lia|]. split; [lia|].
  reflexivity.
Qed.

End DisplayFacts.

(* ================================================================== *)
(** * The calendar and the index of the active entry                 *)
(* ================================================================== *)

Module CalendarFacts.
Import Active ActiveFacts.
Local Open Scope Z_scope.

(** ** The calendar *)

Lemma civil_bounds (doe : Z) :
  0 <= doe < 146097 ->
  let yoe := (doe - doe / 1460 + doe / 36524 - doe / 146096) / 365 in
  let doy := doe - (365 * yoe + yoe / 4 - yoe / 100) in
  let mp := (5 * doy + 2) / 153 in
  0 <= yoe <= 399 /\ 0 <= doy <= 365 /\ 0 <= mp <= 11.
Proof.
  intros H yoe doy mp. subst mp doy yoe.
  Z.div_mod_to_equations. lia.
Qed.

(** The day number of the date that [civil] reads off a day number is that
    day number; the month is one of 0..11. *)
Lemma civil_inverse (z : Z) :
  dayOfMonthStart (fst (fst (civil z))) (snd (fst (civil z)))
  + snd (civil z) - 1 = z
  /\ 0 <= snd (fst (civil z)) <= 11.
Proof.
  unfold civil.
  set (z' := z + 719468).
  set (era := z' / 146097).
  set (doe := z' - era * 146097).
  assert (Hdoe : 0 <= doe < 146097).
  { unfold doe, era. pose proof (Z.div_mod z' 146097 ltac:(lia)).
    pose proof (Z.mod_pos_bound z' 146097 ltac:(lia)). lia. }
  destruct (civil_bounds doe Hdoe) as (Hyoe & Hdoy & Hmp).
  set (yoe := (doe - doe / 1460 + doe / 36524 - doe / 146096) / 365) in *.
  set (doy := doe - (365 * yoe + yoe / 4 - yoe / 100)) in *.
  set (mp := (5 * doy + 2) / 153) in *.
  cbv zeta. simpl fst. simpl snd.
  assert (Hera : (yoe + era * 400) / 400 = era).
  { symmetry. apply (Z.div_unique _ 400 era yoe); lia. }
  assert (Edoy : doy = doe - (365 * yoe + yoe / 4 - yoe / 100)) by reflexivity.
  assert (Edoe : doe = z + 719468 - era * 146097) by reflexivity.
  unfold dayOfMonthStart.
  destruct (mp <? 10) eqn:E10.
  - apply Z.ltb_lt in E10.
    assert (E1 : (mp + 2 <=? 1) = false) by (apply Z.leb_gt; lia).
    rewrite E1. cbv zeta. rewrite Hera.
    replace (mp + 2 - 2) with mp by lia.
    replace (yoe + era * 400 - era * 400) with yoe by lia.
    clearbody doy doe mp yoe. lia.
  - apply Z.ltb_ge in E10.
    assert (E1 : (mp - 10 <=? 1) = true) by (apply Z.leb_le; lia).
    rewrite E1. cbv zeta.
    replace (yoe + era * 400 + 1 - 1) with (yoe + era * 400) by lia.
    rewrite Hera.
    replace (mp - 10 + 10) with mp by lia.
    replace (yoe + era * 400 - era * 400) with yoe by lia.
    clearbody doy doe mp yoe. lia.
Qed.

(** From 1970 on the year has more than two digits. *)
Lemma year_after_epoch (t : Z) : 0 <= t -> 99 < YearFromTime t.
Proof.
  intros Ht. unfold YearFromTime, civil, Day.
  assert (Hd : 0 <= t / msPerDay) by (apply Z.div_pos; unfold msPerDay; lia).
  set (z' := t / msPerDay + 719468).
  set (era := z' / 146097).
  set (doe := z' - era * 146097).
  assert (Hdoe : 0 <= doe < 146097).
  { unfold doe, era. pose proof (Z.div_mod z' 146097 ltac:(lia)).
    pose proof (Z.mod_pos_bound z' 146097 ltac:(lia)). lia. }
  assert (Hera : 4 <= era)
    by (unfold era; apply Z.div_le_lower_bound; unfold z'; lia).
  destruct (civil_bounds doe Hdoe) as (Hyoe & _ & _).
  cbv zeta. simpl fst.
  match goal with |- context [if ?c then _ else _] => destruct c end; lia.
Qed.

(** The date made of the year and the month of [now] and a day of the
    month [d] lies [d - today] days from the day of [now]. *)
Lemma MakeDay_this_month (now d : Z) :
  MakeDay (YearFromTime now) (MonthFromTime now) d
  = Day now + (d - DateFromTime now).
Proof.
  unfold MakeDay, YearFromTime, MonthFromTime, DateFromTime.
  destruct (civil_inverse (Day now)) as [Hinv Hm].
  rewrite (Z.div_small _ 12) by lia. rewrite (Z.mod_small _ 12) by lia.
  rewrite Z.add_0_r. lia.
Qed.

(** X12.  At a time [now] from 1970 on (up to 8 * 10^15 ms), an entry with an
    hour of two digits whose day of the month is at most 15 away from the
    day of the month of [now] is dated in the month of [now]:
    [d - today] days from the midnight before [now], plus [h] hours. *)
Theorem entry_date_this_month (now : Z) (e : TafEntry) (d h : Z) :
  0 <= now <= 8000000000000000 ->
  day e = Some (Int d) -> hour e = Some (Int h) ->
  0 <= h <= 99 ->
  - 15 <= d - DateFromTime now <= 15 ->
  getEntryDate now e
  = Some ((Day now + (d - DateFromTime now)) * msPerDay + h * msPerHour).
Proof.
  intros Hnow Hd Hh Hhr Hnear. unfold getEntryDate. rewrite Hd, Hh.
  assert (E1 : ltNum (Int d) (DateFromTime now)
               && minusGt15 (DateFromTime now) (Int d) = false).
  { simpl. destruct (d <? DateFromTime now); [|reflexivity].
    simpl. apply Z.ltb_ge. lia. }
  assert (E2 : gtNum (Int d) (DateFromTime now)
               && minusGt15' (Int d) (DateFromTime now) = false).
  { simpl. destruct (DateFromTime now <? d); [|reflexivity].
    simpl. apply Z.ltb_ge. lia. }
  rewrite E1, E2. unfold DateUTC.
  pose proof (year_after_epoch now ltac:(lia)) as Hy.
  assert (E3 : (0 <=? YearFromTime now) && (YearFromTime now <=? 99) = false).
  { apply andb_false_iff. right. apply Z.leb_gt. exact Hy. }
  rewrite E3, MakeDay_this_month.
  unfold MakeDate, MakeTime, TimeClip.
  replace (h * msPerHour + 0 * msPerMinute + 0 * 1000 + 0)
    with (h * msPerHour) by lia.
  assert (Hday : Day now * msPerDay <= now < Day now * msPerDay + msPerDay).
  { unfold Day, msPerDay.
    pose proof (Z.div_mod now 86400000 ltac:(lia)).
    pose proof (Z.mod_pos_bound now 86400000 ltac:(lia)). lia. }
  assert (Hclip : (Z.abs ((Day now + (d - DateFromTime now)) * msPerDay
                          + h * msPerHour) <=? 8640000000000000) = true).
  { apply Z.leb_le. unfold msPerDay, msPerHour in *. lia. }
  rewrite Hclip. reflexivity.
Qed.

(** ** The index that is returned *)

(** X13.  The result is -1 or the index of an entry. *)
Theorem active_index_in_range (tafData : list TafEntry) (now : Z) :
  -1 <= getActiveTafIndex tafData now < Z.of_nat (length tafData).
Proof.
  destruct (active_index_cases tafData now)
    as [[Hres _]|(i & line & Hres & Hn & _)].
  - rewrite Hres. lia.
  - rewrite Hres.
    assert (i < length tafData)%nat by (apply nth_error_Some; congruence).
    lia.
Qed.

(** X14.  A forecast that begins with its header always has an active entry
    from 1970 on: the header has no day and counts as started at the
    epoch. *)
Theorem forecast_with_header_has_active (rawHtml code : list N) (now : Z)
  (first : TafEntry) (rest : list TafEntry) :
  Weather.parseTaf rawHtml code = first :: rest ->
  type first = HEADER -> 0 <= now ->
  0 <= getActiveTafIndex (Weather.parseTaf rawHtml code) now.
Proof.
  intros Hp Hh Hnow.
  destruct (active_index_cases (Weather.parseTaf rawHtml code) now)
    as [[_ Hall]|(i & line & Hres & _)]; [|rewrite Hres; lia].
  exfalso.
  assert (Hin : In first (Weather.parseTaf rawHtml code))
    by (rewrite Hp; left; reflexivity).
  apply WeatherFacts.parseTaf_entry_shape in Hin.
  destruct Hin as (_ & _ & _ & Hshape).
  assert (Hday : day first = None).
  { destruct Hshape as [(Ht & _)|[([Ht|Ht] & _)|(_ & Hd & _)]];
      congruence. }
  specialize (Hall 0%nat first). rewrite Hp in Hall.
  specialize (Hall eq_refl).
  unfold started, candidate, getEntryDate in Hall.
  rewrite Hh, Hday in Hall. simpl in Hall.
  apply Z.leb_gt in Hall. lia.
Qed.

(** ** The statements at concrete forecasts *)

(** At 19:00 UTC on 12 January 2024 the FM group of day 12, 18:00 is dated
    18:00 UTC that day. *)
Lemma entry_date_this_month_witness :
  getEntryDate jan12_1900
    (mkTaf (Text.str "FM121800 20015G22KT") (Some (Int 22)) FM
       (Some (Int 12)) (Some (Int 18)))
  = Some 1705082400000.
Proof.
  rewrite (entry_date_this_month jan12_1900 _ 12 18);
    [reflexivity | | reflexivity | reflexivity | | ];
    vm_compute; split; discriminate.
Defined.

(** The example of the specification begins with its header, so at 19:00
    UTC on 12 January 2024 an entry is active. *)
Lemma forecast_with_header_has_active_witness :
  0 <= getActiveTafIndex
         (Weather.parseTaf Weather.specExample (Text.str "KMIE")) jan12_1900.
Proof.
  destruct (Weather.parseTaf Weather.specExample (Text.str "KMIE"))
    as [|first rest] eqn:E; [vm_compute in E; discriminate E|].
  rewrite <- E.
  apply (forecast_with_header_has_active _ _ jan12_1900 first rest E).
  - vm_compute in E. injection E as <- _. reflexivity.
  - vm_compute. discriminate.
Defined.

End CalendarFacts.

(* ================================================================== *)
(** * Properties of the profile wizard                               *)
(* ================================================================== *)

Module WizardFacts.
Import Calc CalcFacts CalcBounds Display Wizard.

(** ** Sorting *)

Lemma insertSorted_perm {A} (cmp : A -> A -> Q) (x : A) (l : list A) :
  Permutation (insertSorted cmp x l) (x :: l).
Proof.
  induction l as [|y l IH]; simpl; [reflexivity|].
  destruct (Qle_bool (cmp x y) 0); [reflexivity|].
  rewrite IH. apply perm_swap.
Qed.

Lemma sort_perm {A} (cmp : A -> A -> Q) (l : list A) :
  Permutation (sort cmp l) l.
Proof.
  induction l as [|x l IH]; simpl; [reflexivity|].
  rewrite insertSorted_perm, IH. reflexivity.
Qed.

Lemma insertSorted_sorted {A} (f : A -> Q) (x : A) (l : list A) :
  StronglySorted (fun a b => f a <= f b) l ->
  StronglySorted (fun a b => f a <= f b)
    (insertSorted (fun a b => f a - f b) x l).
Proof.
  induction 1 as [|y l Hs IH Hall]; simpl.
  - constructor; constructor.
  - destruct (Qle_bool (f x - f y) 0) eqn:E.
    + apply Qle_bool_iff in E.
      constructor; [constructor; assumption|].
      constructor; [lra|].
      eapply List.Forall_impl; [|exact Hall]. intros z Hz. simpl in Hz. lra.
    + assert (Hyx : f y <= f x).
      { destruct (Qlt_le_dec (f x) (f y)) as [Hlt|Hge]; [|exact Hge].
        assert (Hle : f x - f y <= 0) by lra.
        apply Qle_bool_iff in Hle. congruence. }
      constructor; [exact IH|].
      apply List.Forall_forall. intros z Hz.
      apply (Permutation_in _ (insertSorted_perm _ x l)) in Hz.
      destruct Hz as [<-|Hz]; [exact Hyx|].
      rewrite List.Forall_forall in Hall. apply Hall, Hz.
Qed.

Lemma sort_sorted {A} (f : A -> Q) (l : list A) :
  StronglySorted (fun a b => f a <= f b) (sort (fun a b => f a - f b) l).
Proof.
  induction l as [|x l IH]; simpl; [constructor|].
  apply insertSorted_sorted, IH.
Qed.

Lemma sorted_map {A B} (g : A -> B) (R : B -> B -> Prop) (l : list A) :
  StronglySorted (fun a b => R (g a) (g b)) l ->
  StronglySorted R (List.map g l).
Proof.
  induction 1 as [|x l Hs IH Hall]; simpl; constructor; [exact IH|].
  apply List.Forall_forall. intros y Hy. apply in_map_iff in Hy.
  destruct Hy as (z & <- & Hz).
  rewrite List.Forall_forall in Hall. apply Hall, Hz.
Qed.

Lemma last_map {A B} (g : A -> B) (l : list A) (d : A) :
  List.last (List.map g l) (g d) = g (List.last l d).
Proof.
  induction l as [|x l IH]; [reflexivity|].
  destruct l as [|y l]; [reflexivity|]. exact IH.
Qed.

Lemma ascending_le_last (data : list ChartDataPoint) (d x : ChartDataPoint) :
  ascending data -> In x data -> lbs x <= lbs (List.last data d).
Proof.
  intros Hs Hin. apply in_split in Hin. destruct Hin as (pre & post & ->).
  rewrite last_app_cons.
  destruct (sorted_split _ pre x post Hs) as (_ & H2 & _).
  inversion H2 as [|? ? _ Hall]; subst.
  destruct post as [|q post]; [simpl; lra|].
  rewrite last_cons_cons.
  rewrite List.Forall_forall in Hall. apply Hall, last_In. discriminate.
Qed.

Section FinishFacts.

Variable parseFloat : string -> option Q.
Variable toLowerCase : string -> string.
Variable toUpperCase : string -> string.

(** What a result of [handleFinish] consists of. *)
Lemma handleFinish_inv (wiz : WizardState) (now : Z) (p : AircraftProfile) :
  handleFinish parseFloat toLowerCase toUpperCase wiz now = Some p ->
  exists firstRow restRows,
    sort (fun a b => weightOf parseFloat a - weightOf parseFloat b) (rows wiz)
    = firstRow :: restRows
    /\ performanceData p
       = List.map (pointOfRow parseFloat (cols wiz)) (firstRow :: restRows)
    /\ configs p = List.map (configOfCol toLowerCase) (cols wiz)
    /\ presets p
       = [ mkPreset "Light" (weightOf parseFloat firstRow) User;
           mkPreset "Mid"
             (inject_Z
                (round ((weightOf parseFloat firstRow
                         + weightOf parseFloat
                             (List.last (firstRow :: restRows) firstRow))
                        / 2))) Users;
           mkPreset "Max Gross"
             (weightOf parseFloat (List.last (firstRow :: restRows) firstRow))
             Weight ].
Proof.
  unfold handleFinish.
  destruct (sort _ (rows wiz)) as [|firstRow restRows] eqn:E; [discriminate|].
  intros [= <-]. exists firstRow, restRows. simpl.
  split; [reflexivity|]. split; [reflexivity|]. split; reflexivity.
Qed.

Lemma handleFinish_none (wiz : WizardState) (now : Z) :
  handleFinish parseFloat toLowerCase toUpperCase wiz now = None
  <-> rows wiz = [].
Proof.
  unfold handleFinish. split.
  - destruct (sort _ (rows wiz)) as [|firstRow restRows] eqn:E; [|discriminate].
    intros _.
    pose proof (sort_perm (fun a b => weightOf parseFloat a
                                      - weightOf parseFloat b) (rows wiz)) as Hp.
    rewrite E in Hp. apply Permutation_nil in Hp. exact Hp.
  - intros ->. reflexivity.
Qed.

Lemma handleFinish_ascending (wiz : WizardState) (now : Z)
  (p : AircraftProfile) :
  handleFinish parseFloat toLowerCase toUpperCase wiz now = Some p ->
  ascending (performanceData p).
Proof.
  intros H. destruct (handleFinish_inv wiz now p H)
    as (firstRow & restRows & E & -> & _).
  rewrite <- E. unfold ascending. apply sorted_map. simpl.
  apply (sort_sorted (weightOf parseFloat)).
Qed.

(** X15.  The table of a new profile is sorted by weight and holds the rows of
    the wizard, each with its weight as [parseFloat] reads it (0 for NaN),
    none lost and none added; without rows the wizard raises, and only
    then. *)
Theorem handleFinish_table (wiz : WizardState) (now : Z) :
  (handleFinish parseFloat toLowerCase toUpperCase wiz now = None
   <-> rows wiz = [])
  /\ forall p,
       handleFinish parseFloat toLowerCase toUpperCase wiz now = Some p ->
       ascending (performanceData p)
       /\ Permutation (performanceData p)
            (List.map (pointOfRow parseFloat (cols wiz)) (rows wiz)).
Proof.
  split; [apply handleFinish_none|].
  intros p H. split; [apply (handleFinish_ascending wiz now p H)|].
  destruct (handleFinish_inv wiz now p H)
    as (firstRow & restRows & E & -> & _).
  rewrite <- E. apply Permutation_map, sort_perm.
Qed.

(** X16.  The presets of a new profile: Light is the weight of the first sample
    of the table, Max Gross that of the last, Mid the rounded mean of the
    two; every sample weighs at least Light and at most Max Gross. *)
Theorem handleFinish_presets (wiz : WizardState) (now : Z)
  (p : AircraftProfile) :
  handleFinish parseFloat toLowerCase toUpperCase wiz now = Some p ->
  exists first rest,
    performanceData p = first :: rest
    /\ presets p
       = [ mkPreset "Light" (lbs first) User;
           mkPreset "Mid"
             (inject_Z
                (round ((lbs first + lbs (List.last (first :: rest) first))
                        / 2))) Users;
           mkPreset "Max Gross" (lbs (List.last (first :: rest) first))
             Weight ]
    /\ forall pt, In pt (performanceData p) ->
         lbs first <= lbs pt
         /\ lbs pt <= lbs (List.last (first :: rest) first).
Proof.
  intros H. pose proof (handleFinish_ascending wiz now p H) as Hasc.
  destruct (handleFinish_inv wiz now p H)
    as (firstRow & restRows & _ & Ed & _ & Ep).
  exists (pointOfRow parseFloat (cols wiz) firstRow),
         (List.map (pointOfRow parseFloat (cols wiz)) restRows).
  split; [exact Ed|].
  change (pointOfRow parseFloat (cols wiz) firstRow
          :: List.map (pointOfRow parseFloat (cols wiz)) restRows)
    with (List.map (pointOfRow parseFloat (cols wiz)) (firstRow :: restRows)).
  rewrite last_map. split; [exact Ep|].
  intros pt Hin. rewrite Ed in Hin, Hasc. split.
  - destruct Hin as [<-|Hin]; [lra|].
    inversion Hasc as [|? ? _ Hall]; subst.
    rewrite List.Forall_forall in Hall. apply Hall, Hin.
  - rewrite <- (last_map (pointOfRow parseFloat (cols wiz))).
    apply ascending_le_last; assumption.
Qed.

Lemma forEachCol_keys (columns : list WizardConfigCol) (row : WizardWeightRow)
  (k : string) :
  forall idx speedsMap,
    is_Some (forEachCol parseFloat columns idx row speedsMap !! k)
    <-> is_Some (speedsMap !! k) \/ In k (List.map colId columns).
Proof.
  induction columns as [|col columns IH]; intros idx speedsMap; simpl.
  - tauto.
  - rewrite IH. destruct (decide (colId col = k)) as [->|Hne].
    + rewrite lookup_insert_eq. split; [auto|]. intros _. left. eauto.
    + rewrite lookup_insert_ne by exact Hne. tauto.
Qed.

(** X17.  Every sample of a new profile holds a speed under the key of every
    configuration, and under no other key; the keys of the configurations
    are the identifiers of the columns, in order. *)
Theorem handleFinish_speeds (wiz : WizardState) (now : Z)
  (p : AircraftProfile) :
  handleFinish parseFloat toLowerCase toUpperCase wiz now = Some p ->
  List.map key (configs p) = List.map colId (cols wiz)
  /\ forall pt k, In pt (performanceData p) ->
       (is_Some (speeds pt !! k) <-> In k (List.map key (configs p))).
Proof.
  intros H. destruct (handleFinish_inv wiz now p H)
    as (firstRow & restRows & _ & Ed & Ec & _).
  assert (Hk : List.map key (configs p) = List.map colId (cols wiz)).
  { rewrite Ec, List.map_map. reflexivity. }
  split; [exact Hk|].
  intros pt k Hin. rewrite Ed in Hin. apply in_map_iff in Hin.
  destruct Hin as (row & <- & _). simpl. unfold speedsMapOf.
  rewrite forEachCol_keys, lookup_empty, Hk. split; [|auto].
  intros [[x Hx]|Hin]; [discriminate | exact Hin].
Qed.

End FinishFacts.

(** ** Identifiers *)

Lemma digitsOf_numeric (fuel : nat) :
  forall n acc,
    Forall numeric (list_ascii_of_string acc) ->
    Forall numeric (list_ascii_of_string (digitsOf fuel n acc)).
Proof.
  induction fuel as [|fuel IH]; intros n acc Hacc; [exact Hacc|].
  cbn [digitsOf].
  assert (Hm : (n mod 10 < 10)%N) by (apply N.mod_upper_bound; discriminate).
  assert (Hd : numeric (ascii_of_N (48 + n mod 10))).
  { revert Hm. generalize (n mod 10)%N. intros d Hm.
    left. rewrite N_ascii_embedding by lia.
    apply WeatherFacts.isDigit_range. lia. }
  destruct (n / 10 =? 0)%N.
  - cbn [list_ascii_of_string]. constructor; assumption.
  - apply IH. cbn [list_ascii_of_string]. constructor; assumption.
Qed.

Lemma numberToString_numeric (n : Z) :
  Forall numeric (list_ascii_of_string (numberToString n)).
Proof.
  destruct n as [|q|q]; unfold numberToString.
  - constructor; [left; reflexivity | constructor].
  - apply digitsOf_numeric. constructor.
  - cbn [list_ascii_of_string]. constructor; [right; reflexivity|].
    apply digitsOf_numeric. constructor.
Qed.

Lemma list_ascii_app (a b : string) :
  list_ascii_of_string (a ++ b)
  = list_ascii_of_string a ++ list_ascii_of_string b.
Proof. induction a as [|c a IH]; simpl; [reflexivity | rewrite IH; reflexivity]. Qed.

(** No identifier of a column contains [clean]. *)
Lemma generated_not_clean (id : string) :
  generatedColId id ->
  Text.includes (Text.str id) (Text.str "clean") = false.
Proof.
  intros [n ->]. unfold Text.includes.
  destruct (Text.indexOf _ _ 0) eqn:E; [|reflexivity]. exfalso.
  assert (Hc : Text.contains (Text.str ("col-" ++ numberToString n))
                 (Text.str "clean")).
  { apply TextFacts.indexOfAux_some in E.
    destruct E as (k & _ & Hk & Hs). apply TextFacts.contains_skipn. eauto. }
  revert Hc. clear E.
  unfold Text.str. rewrite list_ascii_app, List.map_app.
  pose proof (numberToString_numeric n) as Hnum.
  set (ds := list_ascii_of_string (numberToString n)) in *.
  intros (pre & post & E).
  assert (Hds : forall c, In c (List.map N_of_ascii ds) -> c <> 99%N).
  { intros c Hc ->. apply in_map_iff in Hc. destruct Hc as (a & Ha & Hin).
    rewrite List.Forall_forall in Hnum. destruct (Hnum a Hin) as [Hd| ->].
    - rewrite Ha in Hd. discriminate Hd.
    - discriminate Ha. }
  change (List.map N_of_ascii (list_ascii_of_string "col-"))
    with [99; 111; 108; 45]%N in E.
  change (List.map N_of_ascii (list_ascii_of_string "clean"))
    with [99; 108; 101; 97; 110]%N in E.
  simpl in E.
  destruct pre as [|p1 pre]; simpl in E; [discriminate E|].
  injection E as _ E.
  assert (H99 : In 99%N ([111; 108; 45]%N ++ List.map N_of_ascii ds)).
  { simpl app. rewrite E. apply in_or_app. right. left. reflexivity. }
  apply in_app_or in H99. destruct H99 as [H|H].
  - simpl in H. intuition discriminate.
  - exact (Hds _ H eq_refl).
Qed.

(** ** The reference column *)

Section ReferenceColumn.

Variable parseFloat : string -> option Q.
Variable toLowerCase : string -> string.
Variable toUpperCase : string -> string.

Lemma forEachCol_ids (columns columns' : list WizardConfigCol)
  (row : WizardWeightRow) :
  List.map colId columns = List.map colId columns' ->
  forall idx speedsMap,
    forEachCol parseFloat columns idx row speedsMap
    = forEachCol parseFloat columns' idx row speedsMap.
Proof.
  revert columns'. induction columns as [|c columns IH];
    intros [|c' columns'] E idx speedsMap; try discriminate; [reflexivity|].
  simpl in E. injection E as Ec E. simpl. rewrite Ec. apply IH, E.
Qed.

Lemma handleFinish_setRefCol (wiz : WizardState) (id : string) (now : Z) :
  handleFinish parseFloat toLowerCase toUpperCase (setRefCol wiz id) now
  = handleFinish parseFloat toLowerCase toUpperCase wiz now.
Proof.
  unfold handleFinish, setRefCol. simpl.
  destruct (sort _ (rows wiz)) as [|firstRow restRows]; [reflexivity|].
  f_equal. f_equal.
  - apply List.map_ext. intros row. unfold pointOfRow, speedsMapOf. f_equal.
    apply forEachCol_ids. rewrite List.map_map. reflexivity.
  - rewrite List.map_map. reflexivity.
Qed.

Lemma find_none_all {A} (f : A -> bool) (l : list A) :
  (forall x, In x l -> f x = false) -> List.find f l = None.
Proof.
  induction l as [|x l IH]; intros H; [reflexivity|].
  simpl. rewrite (H x) by (left; reflexivity).
  apply IH. intros y Hy. apply H. right. exact Hy.
Qed.

(** X18.  The column marked as the reference in the wizard does not reach the
    profile: marking any column gives the same profile, and the hook takes
    the clean stall speed, hence DMMS, from the first column. *)
Theorem reference_column_is_ignored (wiz : WizardState) (now : Z)
  (id : string) (p : AircraftProfile) (c : WizardConfigCol)
  (cs : list WizardConfigCol) :
  handleFinish parseFloat toLowerCase toUpperCase wiz now = Some p ->
  cols wiz = c :: cs ->
  Forall generatedColId (List.map colId (cols wiz)) ->
  handleFinish parseFloat toLowerCase toUpperCase (setRefCol wiz id) now
  = Some p
  /\ cleanKeyOf (configs p) = Some (colId c).
Proof.
  intros H Ec Hgen. split; [rewrite handleFinish_setRefCol; exact H|].
  destruct (handleFinish_inv parseFloat toLowerCase toUpperCase wiz now p H)
    as (_ & _ & _ & _ & Econf & _).
  rewrite Econf, Ec. unfold cleanKeyOf.
  rewrite find_none_all; [reflexivity|].
  intros cfg Hin. rewrite <- Ec in Hin. apply in_map_iff in Hin.
  destruct Hin as (col & <- & Hcol). simpl.
  apply generated_not_clean.
  rewrite List.Forall_forall in Hgen. apply Hgen.
  apply in_map_iff. eauto.
Qed.

End ReferenceColumn.

(** ** The actions of the wizard *)

Lemma arrayFromLength_length (n : Z) (l : list Z) :
  arrayFromLength n = Some l -> Z.of_nat (length l) = Z.max 0 n.
Proof.
  unfold arrayFromLength.
  destruct (n <=? 0)%Z eqn:E0.
  - intros [= <-]. apply Z.leb_le in E0. simpl. lia.
  - destruct (n <? 4294967296)%Z; [|discriminate].
    intros [= <-]. apply Z.leb_gt in E0.
    rewrite length_map, length_seq. lia.
Qed.

Lemma mapM_some {A B} (f : A -> option B) (l : list A) (ys : list B) :
  mapM f l = Some ys ->
  length ys = length l
  /\ forall y, In y ys -> exists x, In x l /\ f x = Some y.
Proof.
  revert ys. induction l as [|x l IH]; intros ys H; simpl in H.
  - injection H as <-. split; [reflexivity | intros y []].
  - destruct (f x) as [y0|] eqn:Ex; [|discriminate].
    destruct (mapM f l) as [ys0|]; [|discriminate].
    injection H as <-. destruct (IH ys0 eq_refl) as [Hl Hin].
    split; [simpl; congruence|].
    intros y [<-|Hy].
    + exists x. split; [left; reflexivity | exact Ex].
    + destruct (Hin y Hy) as (x' & Hx' & Hf). exists x'.
      split; [right; exact Hx' | exact Hf].
Qed.

Lemma arrayFromLength_nth (n : Z) (l : list Z) (k : nat) (i : Z) :
  arrayFromLength n = Some l -> nth_error l k = Some i -> i = Z.of_nat k.
Proof.
  unfold arrayFromLength.
  destruct (n <=? 0)%Z; [intros [= <-]; destruct k; discriminate|].
  destruct (n <? 4294967296)%Z; [|discriminate].
  intros [= <-] H. rewrite nth_error_map in H.
  destruct (nth_error (seq 0 (Z.to_nat n)) k) as [j|] eqn:E; [|discriminate].
  injection H as <-.
  assert (Hk : (k < length (seq 0 (Z.to_nat n)))%nat)
    by (apply nth_error_Some; congruence).
  rewrite length_seq in Hk.
  rewrite (nth_error_nth' _ 0%nat) in E by (rewrite length_seq; exact Hk).
  rewrite seq_nth in E by exact Hk. injection E as <-. reflexivity.
Qed.

(** X19.  The table that [handleInitNext] sets up: one column more than asked
    for, as many rows as asked for (none for a negative count), one empty
    cell per column in every row; the columns are [col-0], [col-1], ... in
    order, and the first is the only reference. *)
Theorem handleInitNext_table (wiz w' : WizardState) :
  handleInitNext wiz = Some w' ->
  step w' = StepTable
  /\ Z.of_nat (length (cols w')) = Z.max 0 (colCounts wiz + 1)
  /\ Z.of_nat (length (rows w')) = Z.max 0 (rowCounts wiz)
  /\ wellFormed w'
  /\ Forall (fun r => Forall (fun cell => cell = ""%string) (rowSpeeds r))
       (rows w')
  /\ forall k col, nth_error (cols w') k = Some col ->
       colId col = ("col-" ++ numberToString (Z.of_nat k))%string
       /\ isRef col = Nat.eqb k 0.
Proof.
  unfold handleInitNext.
  destruct (arrayFromLength (colCounts wiz + 1)) as [colIndices|] eqn:Ec;
    [|discriminate].
  destruct (arrayFromLength (rowCounts wiz)) as [rowIndices|] eqn:Er;
    [|discriminate].
  destruct (mapM _ rowIndices) as [newRows|] eqn:Em; [|discriminate].
  intros [= <-]. simpl.
  pose proof (arrayFromLength_length _ _ Ec) as Hc.
  pose proof (arrayFromLength_length _ _ Er) as Hr.
  destruct (mapM_some _ _ _ Em) as [Hl Hin].
  split; [reflexivity|]. split; [rewrite length_map; exact Hc|].
  split; [rewrite Hl; exact Hr|].
  assert (Hcells : forall r, In r newRows ->
            rowSpeeds r = repeat ""%string (Z.to_nat (colCounts wiz + 1))
            /\ (0 <= colCounts wiz + 1)%Z).
  { intros r Hrow. destruct (Hin r Hrow) as (i & _ & Hf).
    unfold arrayFill in Hf.
    destruct ((0 <=? colCounts wiz + 1)%Z
              && (colCounts wiz + 1 <? 4294967296)%Z) eqn:E; [|discriminate].
    injection Hf as <-. simpl. split; [reflexivity|].
    apply andb_prop in E. destruct E as [E _]. apply Z.leb_le, E. }
  split; [split|split].
  - unfold rectangular. simpl. apply List.Forall_forall. intros r Hrow.
    destruct (Hcells r Hrow) as [-> H0].
    rewrite repeat_length, length_map. lia.
  - simpl. rewrite List.map_map. apply List.Forall_forall.
    intros id Hid. apply in_map_iff in Hid. destruct Hid as (i & <- & _).
    simpl. exists i. reflexivity.
  - apply List.Forall_forall. intros r Hrow.
    destruct (Hcells r Hrow) as [-> _].
    apply List.Forall_forall. intros cell Hcell.
    apply repeat_spec in Hcell. exact Hcell.
  - intros k col Hcol. rewrite nth_error_map in Hcol.
    destruct (nth_error colIndices k) as [i|] eqn:Ei; [|discriminate].
    injection Hcol as <-. simpl.
    rewrite (arrayFromLength_nth _ _ _ _ Ec Ei).
    split; [reflexivity|]. destruct k; reflexivity.
Qed.

Lemma removeAt_length {A} (l : list A) :
  forall idx,
    length (removeAt idx l)
    = if Nat.ltb idx (length l) then Nat.pred (length l) else length l.
Proof.
  induction l as [|x l IH]; intros idx; [destruct idx; reflexivity|].
  destruct idx as [|idx]; [reflexivity|].
  simpl removeAt. simpl length. rewrite IH.
  change (S idx <? S (length l))%nat with (idx <? length l)%nat.
  destruct (idx <? length l)%nat eqn:E; [|reflexivity].
  apply Nat.ltb_lt in E. lia.
Qed.

Lemma removeAt_incl {A} (l : list A) :
  forall idx x, In x (removeAt idx l) -> In x l.
Proof.
  induction l as [|y l IH]; intros idx x H; [destruct idx; exact H|].
  destruct idx as [|idx]; [right; exact H|].
  destruct H as [<-|H]; [left; reflexivity | right; eapply IH, H].
Qed.

(** X20.  The actions on the table keep it well formed; removing a column never
    raises, never removes the last column, and leaves a reference column
    when more than one column was there. *)
Theorem wizard_actions_keep_table (wiz : WizardState) :
  wellFormed wiz ->
  (forall now, wellFormed (addConfigCol wiz now))
  /\ (forall now, wellFormed (addWeightRow wiz now))
  /\ (forall id, wellFormed (removeWeightRow wiz id))
  /\ (forall id, wellFormed (setRefCol wiz id))
  /\ (forall id val, wellFormed (updateRowWeight wiz id val))
  /\ (forall idx, exists w',
         removeConfigCol wiz idx = Some w'
         /\ wellFormed w'
         /\ (cols wiz <> [] -> cols w' <> [])
         /\ (1 < length (cols wiz) -> existsb isRef (cols w') = true)%nat).
Proof.
  intros [Hrect Hgen]. unfold rectangular in Hrect.
  rewrite List.Forall_forall in Hrect.
  split; [|split; [|split; [|split; [|split]]]].
  - intros now. split.
    + unfold rectangular. simpl. apply List.Forall_forall. intros r Hr.
      apply in_map_iff in Hr. destruct Hr as (r0 & <- & Hr0). simpl.
      rewrite !length_app, (Hrect r0 Hr0). reflexivity.
    + simpl. rewrite List.map_app. apply Forall_app. split; [exact Hgen|].
      constructor; [exists now; reflexivity | constructor].
  - intros now. split; [|exact Hgen].
    unfold rectangular. simpl. apply Forall_app. split.
    + apply List.Forall_forall. exact Hrect.
    + constructor; [apply repeat_length | constructor].
  - intros id. unfold removeWeightRow.
    destruct (length (rows wiz) <=? 1)%nat.
    + split; [apply List.Forall_forall; exact Hrect | exact Hgen].
    + split; [|exact Hgen]. unfold rectangular. simpl.
      apply List.Forall_forall. intros r Hr. apply filter_In in Hr.
      apply Hrect, Hr.
  - intros id. split.
    + unfold rectangular. simpl. rewrite length_map.
      apply List.Forall_forall. exact Hrect.
    + simpl. rewrite List.map_map. exact Hgen.
  - intros id val. split; [|exact Hgen].
    unfold rectangular. simpl. apply List.Forall_forall. intros r Hr.
    apply in_map_iff in Hr. destruct Hr as (r0 & <- & Hr0).
    destruct (String.eqb (rowId r0) id); [simpl|]; apply Hrect, Hr0.
  - intros idx. unfold removeConfigCol.
    destruct (length (cols wiz) <=? 1)%nat eqn:Eg.
    + exists wiz. split; [reflexivity|].
      split; [split; [apply List.Forall_forall; exact Hrect | exact Hgen]|].
      split; [auto|]. apply Nat.leb_le in Eg. lia.
    + apply Nat.leb_gt in Eg.
      assert (Hlen : (0 < length (removeAt idx (cols wiz)))%nat).
      { rewrite removeAt_length. destruct (idx <? length (cols wiz))%nat; lia. }
      assert (Hrows : Forall
                (fun r => length (rowSpeeds r)
                          = length (removeAt idx (cols wiz)))
                (List.map (fun r => mkRow (rowId r) (weight r)
                                      (removeAt idx (rowSpeeds r)))
                   (rows wiz))).
      { apply List.Forall_forall. intros r Hr.
        apply in_map_iff in Hr. destruct Hr as (r0 & <- & Hr0). simpl.
        rewrite !removeAt_length, (Hrect r0 Hr0). reflexivity. }
      assert (Hids : Forall generatedColId
                       (List.map colId (removeAt idx (cols wiz)))).
      { apply List.Forall_forall. intros id Hid.
        apply in_map_iff in Hid. destruct Hid as (c & <- & Hc).
        rewrite List.Forall_forall in Hgen. apply Hgen.
        apply in_map_iff. exists c. split; [reflexivity|].
        eapply removeAt_incl, Hc. }
      destruct (existsb isRef (removeAt idx (cols wiz))) eqn:Eref.
      * eexists. split; [reflexivity|]. simpl.
        split; [split; assumption|].
        split; [intros _ E; rewrite E in Hlen; simpl in Hlen; lia|].
        intros _. exact Eref.
      * destruct (removeAt idx (cols wiz)) as [|c rest] eqn:Er;
          [simpl in Hlen; lia|].
        eexists. split; [reflexivity|]. simpl.
        split; [split|split; [discriminate | reflexivity]].
        -- exact Hrows.
        -- exact Hids.
Qed.

(** ** The statements at a sample table *)

Lemma sampleWizard_wellFormed : wellFormed sampleWizard.
Proof.
  split.
  - repeat constructor.
  - simpl. repeat constructor;
      [exists 0%Z | exists 1%Z | exists 2%Z]; reflexivity.
Defined.

(** The sample table gives the presets 1900, 2225 and 2550 lbs. *)
Lemma handleFinish_presets_witness :
  exists p,
    handleFinish parseWholeNumber id id sampleWizard 1700000000000 = Some p
    /\ List.map lbs (performanceData p) = [1900; 2200; 2550]
    /\ List.map val (presets p) = [1900; 2225; 2550].
Proof.
  destruct (handleFinish parseWholeNumber id id sampleWizard 1700000000000)
    as [p|] eqn:E; [|vm_compute in E; discriminate E].
  exists p. split; [reflexivity|].
  destruct (handleFinish_presets parseWholeNumber id id sampleWizard
              1700000000000 p E) as (first & rest & Ed & Ep & _).
  vm_compute in E. injection E as <-.
  split; reflexivity.
Defined.

(** Every sample of the sample table has a speed for [col-2] and none for
    [clean]. *)
Lemma handleFinish_speeds_witness :
  exists p,
    handleFinish parseWholeNumber id id sampleWizard 1700000000000 = Some p
    /\ Forall (fun pt => is_Some (speeds pt !! "col-2"%string)
                         /\ ~ is_Some (speeds pt !! "clean"%string))
         (performanceData p).
Proof.
  destruct (handleFinish parseWholeNumber id id sampleWizard 1700000000000)
    as [p|] eqn:E; [|vm_compute in E; discriminate E].
  exists p. split; [reflexivity|].
  destruct (handleFinish_speeds parseWholeNumber id id sampleWizard
              1700000000000 p E) as [Hk Hs].
  apply List.Forall_forall. intros pt Hpt. split.
  - apply (Hs pt _ Hpt). rewrite Hk. simpl. tauto.
  - intros H. apply (Hs pt _ Hpt) in H. rewrite Hk in H. simpl in H.
    intuition discriminate.
Defined.

(** For the sample table marking the third column as the reference gives
    the same profile, and the clean key is that of the first column. *)
Lemma reference_column_is_ignored_witness :
  exists p,
    handleFinish parseWholeNumber id id (setRefCol sampleWizard "col-2")
      1700000000000 = Some p
    /\ cleanKeyOf (configs p) = Some "col-0"%string.
Proof.
  destruct (handleFinish parseWholeNumber id id sampleWizard 1700000000000)
    as [p|] eqn:E; [|vm_compute in E; discriminate E].
  exists p.
  apply (reference_column_is_ignored parseWholeNumber id id sampleWizard
           1700000000000 "col-2" p _ _ E eq_refl).
  apply sampleWizard_wellFormed.
Defined.

(** The table that the wizard sets up from its initial state: three
    columns and three rows. *)
Lemma handleInitNext_table_witness :
  exists w',
    handleInitNext resetForm = Some w'
    /\ length (cols w') = 3%nat /\ length (rows w') = 3%nat
    /\ wellFormed w'.
Proof.
  destruct (handleInitNext resetForm) as [w'|] eqn:E;
    [|vm_compute in E; discriminate E].
  exists w'. split; [reflexivity|].
  destruct (handleInitNext_table resetForm w' E)
    as (_ & Hc & Hr & Hwf & _).
  simpl in Hc, Hr. split; [lia|]. split; [lia | exact Hwf].
Defined.

(** A column added to the sample table, and the second column removed. *)
Lemma wizard_actions_keep_table_witness :
  wellFormed (addConfigCol sampleWizard 1700000000000)
  /\ exists w', removeConfigCol sampleWizard 1 = Some w' /\ wellFormed w'.
Proof.
  destruct (wizard_actions_keep_table sampleWizard sampleWizard_wellFormed)
    as (Hadd & _ & _ & _ & _ & Hrem).
  split; [apply Hadd|].
  destruct (Hrem 1%nat) as (w' & Hw & Hwf & _). exists w'. auto.
Defined.

End WizardFacts.

(* ================================================================== *)
(** * Properties of the stored profiles                              *)
(* ================================================================== *)

Module AppFacts.
Import Calc Display Wizard WizardFacts App.



Lemma find_app_none {A} (f : A -> bool) (l : list A) (x : A) :
  (forall y, In y l -> f y = false) -> f x = true ->
  List.find f (l ++ [x]) = Some x.
Proof.
  induction l as [|y l IH]; intros Hl Hx; simpl.
  - rewrite Hx. reflexivity.
  - rewrite (Hl y) by (left; reflexivity).
    apply IH; [|exact Hx]. intros z Hz. apply Hl. right. exact Hz.
Qed.

(** X22.  After a profile is added it is the active one, provided no stored
    profile has its identifier already. *)
Theorem handleAddProfile_active (st : AppState) (newProfile : AircraftProfile) :
  (forall p, In p (profiles st) -> profileId p <> profileId newProfile)
  -> activeProfile (handleAddProfile st newProfile) = Some newProfile
     /\ activeStored (handleAddProfile st newProfile).
Proof.
  intros Hfresh. split.
  - unfold activeProfile, handleAddProfile. simpl.
    rewrite find_app_none; [reflexivity | | apply String.eqb_refl].
    intros p Hp. apply String.eqb_neq. apply Hfresh, Hp.
  - exists newProfile. split; [|reflexivity].
    simpl. apply in_or_app. right. left. reflexivity.
Qed.

(** X23.  When a profile made by the wizard becomes the active one, the weight
    is set to the weight of the last, heaviest sample of its table, or to
    2500 when that weight is 0. *)
Theorem new_profile_weight (parseFloat : string -> option Q)
  (toLowerCase toUpperCase : string -> string) (wiz : WizardState) (now : Z)
  (p : AircraftProfile) :
  handleFinish parseFloat toLowerCase toUpperCase wiz now = Some p ->
  exists first rest,
    performanceData p = first :: rest
    /\ maxGrossOf p
       = if Qeq_bool (lbs (List.last (first :: rest) first)) 0
         then 2500 else lbs (List.last (first :: rest) first).
Proof.
  intros H.
  destruct (handleFinish_inv parseFloat toLowerCase toUpperCase wiz now p H)
    as (firstRow & restRows & _ & Ed & _ & Ep).
  exists (pointOfRow parseFloat (cols wiz) firstRow),
         (List.map (pointOfRow parseFloat (cols wiz)) restRows).
  split; [exact Ed|].
  change (pointOfRow parseFloat (cols wiz) firstRow
          :: List.map (pointOfRow parseFloat (cols wiz)) restRows)
    with (List.map (pointOfRow parseFloat (cols wiz)) (firstRow :: restRows)).
  rewrite last_map. unfold maxGrossOf. rewrite Ep. reflexivity.
Qed.

(** ** The statements at concrete states *)


(** The profile of the sample table, added on a first visit, is the
    active one, and the weight is set to its 2550 lbs. *)
Lemma handleAddProfile_active_witness :
  exists p,
    handleFinish parseWholeNumber id id sampleWizard 1700000000000 = Some p
    /\ activeProfile (handleAddProfile initialState p) = Some p.
Proof.
  destruct (handleFinish parseWholeNumber id id sampleWizard 1700000000000)
    as [p|] eqn:E; [|vm_compute in E; discriminate E].
  exists p. split; [reflexivity|].
  apply (handleAddProfile_active initialState p).
  intros q [<-|[]]. vm_compute in E. injection E as <-. discriminate.
Defined.

Lemma new_profile_weight_witness :
  exists p,
    handleFinish parseWholeNumber id id sampleWizard 1700000000000 = Some p
    /\ maxGrossOf p = 2550.
Proof.
  destruct (handleFinish parseWholeNumber id id sampleWizard 1700000000000)
    as [p|] eqn:E; [|vm_compute in E; discriminate E].
  exists p. split; [reflexivity|].
  destruct (new_profile_weight parseWholeNumber id id sampleWizard
              1700000000000 p E) as (first & rest & Ed & ->).
  vm_compute in E. injection E as <-.
  injection Ed as <- <-. reflexivity.
Defined.

End AppFacts.
